(** * hier_object: a shallow embedding of [hier_object.py]

    The Python module keeps every annotated rectangle as a mutable
    [HierObject] instance.  Instances are shared: the collection
    [all_obj] (image identifier -> class label -> list of objects)
    holds references to them, and every [Overlap] tuple holds a
    reference to the other object of the pair.  The embedding keeps
    this sharing explicit:

    - a heap is a list of objects, an address is a position in it;
    - the collection and the [obj] field of an [Overlap] hold addresses;
    - the passes ([find_overlapping_objects], [find_duplicates],
      [find_parent]) are written in a state-and-exception monad over
      the heap, so that a raised exception leaves the partially updated
      heap behind as it does in Python.

    Python dictionaries keep insertion order, and the order in which
    [dict.values()] lists the class labels decides the order of the
    pairwise comparisons; dictionaries are therefore association lists
    that are updated in place or extended at the end.

    Numbers: the passes are modelled over exact rationals [Q], with
    [round(x, 5)] as rounding to the nearest multiple of 10^-5, ties
    going to the even multiple.  That is the arithmetic the structure
    of the passes is proved over: which facts are recorded, which
    flags and links are set, what is left alone.  It is not the
    arithmetic of the interpreter, and a number the code stores may
    differ from the one computed here.  The module [Float64] redoes
    the arithmetic of [parse], [__init__] and [compare] in binary64,
    every operation rounded to the nearest double; the properties
    that read a stored number are stated over it. *)

From Stdlib Require Import ZArith QArith Qabs Qpower String Bool Lia Lqa List Sorted.
From stdpp Require Import base tactics option list strings.

Local Open Scope Z_scope.
Local Open Scope Q_scope.
Local Open Scope nat_scope.
Local Open Scope list_scope.

(** ** Exceptions and the state-and-exception monad *)

Inductive exn :=
| AssertionError
| AttributeError
| TypeError
| IndexError
| ZeroDivisionError
| InvalidRef. (* no Python counterpart: an address outside the heap *)

Inductive result (A : Type) :=
| Ok (a : A)
| Raise (e : exn).
Arguments Ok {A} a.
Arguments Raise {A} e.

(** A statement: from a state to a result, or an exception, and the
    state it leaves. *)
Definition M (S A : Type) : Type := S -> result A * S.

Definition ret {S A} (a : A) : M S A := fun s => (Ok a, s).
Definition raise {S A} (e : exn) : M S A := fun s => (Raise e, s).
Definition bind {S A B} (m : M S A) (k : A -> M S B) : M S B :=
  fun s => match m s with
           | (Ok a, s') => k a s'
           | (Raise e, s') => (Raise e, s')
           end.

Notation "x <- m ;; k" := (bind m (fun x => k))
  (at level 100, m at next level, right associativity).
Notation "m ;;; k" := (bind m (fun _ => k))
  (at level 100, right associativity).

(** [for x in l: body x] *)
Fixpoint for_each {S A} (l : list A) (body : A -> M S unit) : M S unit :=
  match l with
  | [] => ret tt
  | x :: r => body x ;;; for_each r body
  end.

(** A list comprehension [[x for x in l if p x]] whose test reads the state. *)
Fixpoint filterM {S A} (p : A -> M S bool) (l : list A) : M S (list A) :=
  match l with
  | [] => ret []
  | x :: r =>
      b <- p x ;;
      r' <- filterM p r ;;
      ret (if b then x :: r' else r')
  end.

(** ** Rational arithmetic as the code uses it *)

Definition Qltb (a b : Q) : bool := (Qnum a * QDen b <? Qnum b * QDen a)%Z.
Definition Qleb (a b : Q) : bool := (Qnum a * QDen b <=? Qnum b * QDen a)%Z.

(** Python's [min(a, b)] and [max(a, b)] return the first argument on a tie. *)
Definition pymin (a b : Q) : Q := if Qltb b a then b else a.
Definition pymax (a b : Q) : Q := if Qltb a b then b else a.

(** Nearest integer to [n / d], ties to the even one ([d] positive). *)
Definition round_half_even (n d : Z) : Z :=
  let q := (n / d)%Z in
  let r := (n mod d)%Z in
  if (2 * r <? d)%Z then q
  else if (d <? 2 * r)%Z then (q + 1)%Z
  else if Z.even q then q else (q + 1)%Z.

(** [rn = lambda x: round(x, 5)] *)
Definition rn (x : Q) : Q :=
  Qmake (round_half_even (Qnum x * 100000) (Zpos (Qden x))) 100000.

(** Structural equality of two rationals (same numerator and denominator). *)
Definition Qsame (a b : Q) : bool :=
  (Qnum a =? Qnum b)%Z && (Qden a =? Qden b)%positive.

(** ** Insertion-ordered dictionaries with string keys *)

Abbreviation dict V := (list (string * V)) (only parsing).

Fixpoint dget {V} (k : string) (d : dict V) : option V :=
  match d with
  | [] => None
  | (k', v) :: r => if String.eqb k k' then Some v else dget k r
  end.

(** [d[k] = v]: an existing key keeps its position, a new one goes last. *)
Fixpoint dset {V} (k : string) (v : V) (d : dict V) : dict V :=
  match d with
  | [] => [(k, v)]
  | (k', v') :: r =>
      if String.eqb k k' then (k', v) :: r else (k', v') :: dset k v r
  end.

Definition dvalues {V} (d : dict V) : list V := map snd d.
Definition dkeys {V} (d : dict V) : list string := map fst d.

(** [d.get(k, [])] *)
Definition dget_list {V} (k : string) (d : dict (list V)) : list V :=
  default [] (dget k d).

(** [d[k].append(x)] on a [defaultdict(list)] *)
Definition dappend {V} (k : string) (x : V) (d : dict (list V)) : dict (list V) :=
  dset k (dget_list k d ++ [x]) d.

(** ** Data *)

(** References: to a HierObject, and to a collection made by
    [create_all_dict]. *)
Abbreviation addr := nat (only parsing).
Abbreviation cid := nat (only parsing).

(** An annotation row: the six keys [parse] reads, the coordinates
    as the numbers the row gives.  Whatever else the caller's
    dictionary holds is not part of the model. *)
Record Row := {
  LabelName : string;
  ImageID : string;
  XMin : Q;
  XMax : Q;
  YMin : Q;
  YMax : Q
}.

Module Overlap.
Record t := mk {
  index : nat;               (* index of other object *)
  self_inside_other : bool;
  center_of_self : bool;
  other_inside_self : bool;
  center_of_other : bool;
  intersection : Q;
  iou : Q;
  iom : Q;
  obj : addr                 (* other object *)
}.
End Overlap.

Module HierObject.
Record t := mk {
  obj : Row;
  all : cid;
  label : string;
  imageID : string;
  x0 : Q; x1 : Q; y0 : Q; y1 : Q;
  w : Q; h : Q;
  xc : Q; yc : Q;
  area : Q;
  index : nat;
  overlap : option (dict (list Overlap.t));
  duplicate : option bool;
  parent : option (dict nat);
  children : option (dict (list nat))
}.

Definition set_overlap (v : option (dict (list Overlap.t))) (o : t) : t :=
  mk (obj o) (all o) (label o) (imageID o) (x0 o) (x1 o) (y0 o) (y1 o)
     (w o) (h o) (xc o) (yc o) (area o) (index o)
     v (duplicate o) (parent o) (children o).
Definition set_duplicate (v : option bool) (o : t) : t :=
  mk (obj o) (all o) (label o) (imageID o) (x0 o) (x1 o) (y0 o) (y1 o)
     (w o) (h o) (xc o) (yc o) (area o) (index o)
     (overlap o) v (parent o) (children o).
Definition set_parent (v : option (dict nat)) (o : t) : t :=
  mk (obj o) (all o) (label o) (imageID o) (x0 o) (x1 o) (y0 o) (y1 o)
     (w o) (h o) (xc o) (yc o) (area o) (index o)
     (overlap o) (duplicate o) v (children o).
Definition set_children (v : option (dict (list nat))) (o : t) : t :=
  mk (obj o) (all o) (label o) (imageID o) (x0 o) (x1 o) (y0 o) (y1 o)
     (w o) (h o) (xc o) (yc o) (area o) (index o)
     (overlap o) (duplicate o) (parent o) v.

(** The members [parse] sets. *)
Record parsed := mk_parsed {
  p_label : string;
  p_imageID : string;
  p_x0 : Q; p_x1 : Q; p_y0 : Q; p_y1 : Q;
  p_w : Q; p_h : Q
}.

Definition parse (obj : Row) : result parsed :=
  let label := LabelName obj in
  let imageID := ImageID obj in
  let x0 := rn (XMin obj) in
  let x1 := rn (XMax obj) in
  let y0 := rn (YMin obj) in
  let y1 := rn (YMax obj) in
  let w := rn (x1 - x0) in
  if negb (Qltb 0 w) then Raise AssertionError else
  let h := rn (y1 - y0) in
  if negb (Qltb 0 h) then Raise AssertionError else
  Ok (mk_parsed label imageID x0 x1 y0 y1 w h).

(** The members [__init__] computes after [parse], with its assertion
    on the area: everything the constructor does before it touches
    the collection. *)
Definition derive (obj : Row) : result (parsed * Q * Q * Q) :=
  match parse obj with
  | Raise e => Raise e
  | Ok p =>
      let xc := rn ((p_x0 p + p_x1 p) / 2) in
      let yc := rn ((p_y0 p + p_y1 p) / 2) in
      let area := (p_w p * p_h p)%Q in (* do not round area *)
      if negb (Qltb 0 area) then Raise AssertionError else
      Ok (p, xc, yc, area)
  end.

(** The object as [__init__] leaves it, registered under index [idx]. *)
Definition build (obj : Row) (c : cid) (g : parsed * Q * Q * Q) (idx : nat) : t :=
  let '(p, xc, yc, area) := g in
  mk obj c (p_label p) (p_imageID p)
     (p_x0 p) (p_x1 p) (p_y0 p) (p_y1 p) (p_w p) (p_h p)
     xc yc area idx None None None None.

Definition has_intersection (self other : t) : bool :=
  let w := (pymin (x1 self) (x1 other) - pymax (x0 self) (x0 other))%Q in
  let h := (pymin (y1 self) (y1 other) - pymax (y0 self) (y0 other))%Q in
  Qltb 0 w && Qltb 0 h.

Definition is_inside (self other : t) : bool :=
  Qleb (x0 other) (x0 self)
  && Qleb (x1 self) (x1 other)
  && Qleb (y0 other) (y0 self)
  && Qleb (y1 self) (y1 other).

Definition center_is_inside (self other : t) : bool :=
  Qltb (x0 other) (xc self)
  && Qltb (xc self) (x1 other)
  && Qltb (y0 other) (yc self)
  && Qltb (yc self) (y1 other).

Definition intersection_area (self other : t) : Q :=
  let w := (pymin (x1 self) (x1 other) - pymax (x0 self) (x0 other))%Q in
  let h := (pymin (y1 self) (y1 other) - pymax (y0 self) (y0 other))%Q in
  if Qleb w 0 || Qleb h 0 then 0%Q else (w * h)%Q.

(** [bool(x)] for a member that is [None], [True] or [False]. *)
Definition truthy (b : option bool) : bool := default false b.

Definition redundant_and_not_last (threshold : Q) (self : t) : result bool :=
  match overlap self with
  | None => Raise AttributeError
  | Some ov =>
      match dget (label self) ov with
      | None | Some [] => Ok false
      | Some over =>
          Ok (existsb
                (fun other =>
                   Qltb threshold (Overlap.iou other)
                   && (index self <? Overlap.index other))
                over)
      end
  end.
End HierObject.

Abbreviation Heap := (list HierObject.t) (only parsing).
Abbreviation AllDict := (list (string * list (string * list nat))) (only parsing).

(** [create_all_dict()] *)
Definition create_all_dict : AllDict := [].

(** The interpreter state construction works on: the objects, the
    collections, and the class attribute [HierObject.default_all]. *)
Record State := mkState {
  heap : Heap;
  colls : list AllDict;
  default_all : option cid
}.

Definition empty_state : State := mkState [] [] None.

(** ** Construction: [HierObject.__init__] *)

(** The collection [__init__] uses: [all_obj], or the default one,
    created on first use. *)
Definition resolve_all (all_obj : option cid) : M State cid :=
  match all_obj with
  | Some c => ret c
  | None =>
      fun s =>
        match default_all s with
        | Some c => (Ok c, s)
        | None =>
            let c := length (colls s) in
            (Ok c, mkState (heap s) (colls s ++ [create_all_dict]) (Some c))
        end
  end.

(** [self.all[self.imageID][self.label].append(self)] and
    [self.index = len(self.all[self.imageID][self.label]) - 1] *)
Definition register (image lbl : string) (a : addr) (d : AllDict) : AllDict * nat :=
  let object_dict := default [] (dget image d) in
  let bucket := dget_list lbl object_dict in
  (dset image (dset lbl (bucket ++ [a]) object_dict) d, length (bucket ++ [a]) - 1).

Definition HierObject_init (obj : Row) (all_obj : option cid) : M State addr :=
  c <- resolve_all all_obj ;;
  match HierObject.derive obj with
  | Raise e => raise e
  | Ok g =>
      fun s =>
        match colls s !! c with
        | None => (Raise InvalidRef, s)
        | Some d =>
            let a := length (heap s) in
            let '(p, _, _, _) := g in
            let '(d', idx) :=
              register (HierObject.p_imageID p) (HierObject.p_label p) a d in
            (Ok a, mkState (heap s ++ [HierObject.build obj c g idx])
                           (<[c := d']> (colls s)) (default_all s))
        end
  end.

(** [clear_default_all()] *)
Definition clear_default_all : M State unit :=
  fun s => (Ok tt, mkState (heap s) (colls s) None).

(** ** Heap access *)

Definition get_obj (a : addr) : M Heap HierObject.t :=
  fun h => match h !! a with
           | Some o => (Ok o, h)
           | None => (Raise InvalidRef, h)
           end.

(** An attribute assignment [a.member = ...], as an update of the object. *)
Definition modify (a : addr) (f : HierObject.t -> HierObject.t) : M Heap unit :=
  fun h => match h !! a with
           | Some o => (Ok tt, <[a := f o]> h)
           | None => (Raise InvalidRef, h)
           end.

(** [l[i]] *)
Definition list_index {S A} (l : list A) (i : nat) : M S A :=
  match l !! i with
  | Some x => ret x
  | None => raise IndexError
  end.

(** [a / b] on floats *)
Definition pydiv {S} (a b : Q) : M S Q :=
  if Qeq_bool b 0 then raise ZeroDivisionError else ret (a / b)%Q.

(** ** Overlap: [compare] and [find_overlapping_objects] *)

(** [a.overlap[lbl].append(f)] *)
Definition append_overlap (a : addr) (lbl : string) (f : Overlap.t) : M Heap unit :=
  o <- get_obj a ;;
  match HierObject.overlap o with
  | None => raise TypeError
  | Some d => modify a (HierObject.set_overlap (Some (dappend lbl f d)))
  end.

Definition compare (obj1 obj2 : addr) : M Heap unit :=
  o1 <- get_obj obj1 ;;
  o2 <- get_obj obj2 ;;
  let intersection_flag := HierObject.has_intersection o1 o2 in
  if intersection_flag then
    let center1 := HierObject.center_is_inside o1 o2 in
    let center2 := HierObject.center_is_inside o2 o1 in
    let inside1 := HierObject.is_inside o1 o2 in
    let inside2 := HierObject.is_inside o2 o1 in
    let intersection := HierObject.intersection_area o1 o2 in
    q1 <- pydiv intersection
            (HierObject.area o1 + HierObject.area o2 - intersection)%Q ;;
    let iou := rn q1 in
    q2 <- pydiv intersection (pymin (HierObject.area o1) (HierObject.area o2)) ;;
    let iom := rn q2 in
    append_overlap obj1 (HierObject.label o2)
      (Overlap.mk (HierObject.index o2) inside1 center1 inside2 center2
                  (rn intersection) iou iom obj2) ;;;
    append_overlap obj2 (HierObject.label o1)
      (Overlap.mk (HierObject.index o1) inside2 center2 inside1 center1
                  (rn intersection) iou iom obj1)
  else ret tt.

(** The body of the loop over images in [find_overlapping_objects]. *)
Definition find_overlapping_image (object_dict : dict (list addr)) : M Heap unit :=
  for_each (dvalues object_dict) (fun object_list =>
    for_each object_list (fun obj =>
      modify obj (HierObject.set_overlap (Some [])))) ;;;
  let flat := concat (dvalues object_dict) in
  for_each (seq 0 (length flat - 1)) (fun idx1 =>
    for_each (seq (idx1 + 1) (length flat - (idx1 + 1))) (fun idx2 =>
      a1 <- list_index flat idx1 ;;
      a2 <- list_index flat idx2 ;;
      compare a1 a2)).

Definition find_overlapping_objects (all_obj : AllDict) : M Heap unit :=
  for_each (dvalues all_obj) find_overlapping_image.

(** ** Duplicates: [find_duplicates] *)

Definition threshold_default : Q := 5 # 10.

Definition find_duplicates (all_obj : AllDict) : M Heap unit :=
  for_each (dvalues all_obj) (fun object_dict =>
    for_each (dvalues object_dict) (fun object_list =>
      for_each object_list (fun obj =>
        o <- get_obj obj ;;
        match HierObject.redundant_and_not_last threshold_default o with
        | Raise e => raise e
        | Ok b => modify obj (HierObject.set_duplicate (Some b))
        end))).

(** ** Parents: [sort_for_parent] and [find_parent] *)

(** [(int(x.self_inside_other), int(x.center_of_self), x.iom)] *)
Definition sort_key (x : Overlap.t) : Z * Z * Q :=
  (Z.b2z (Overlap.self_inside_other x), Z.b2z (Overlap.center_of_self x),
   Overlap.iom x).

(** Python's [<] on these tuples: decided at the first component that differs. *)
Definition key_ltb (a b : Z * Z * Q) : bool :=
  let '(a1, a2, a3) := a in
  let '(b1, b2, b3) := b in
  if negb (a1 =? b1)%Z then (a1 <? b1)%Z
  else if negb (a2 =? b2)%Z then (a2 <? b2)%Z
  else Qltb a3 b3.

(** [sorted(..., reverse=True, key=...)] is stable: elements with equal
    keys keep their order.  That fixes the result, which a stable
    insertion sort computes. *)
Fixpoint insert_desc (x : Overlap.t) (l : list Overlap.t) : list Overlap.t :=
  match l with
  | [] => [x]
  | y :: r =>
      if key_ltb (sort_key x) (sort_key y) then y :: insert_desc x r
      else x :: y :: r
  end.

Definition sort_for_parent (overlap_list : list Overlap.t) : list Overlap.t :=
  foldr insert_desc [] overlap_list.

(** The body of [for child in child_list] in [find_parent]. *)
Definition find_parent_child (child_label parent_label : string) (child : addr)
  : M Heap unit :=
  c0 <- get_obj child ;;
  match HierObject.parent c0 with
  | None => modify child (HierObject.set_parent (Some []))
  | Some _ => ret tt
  end ;;;
  c <- get_obj child ;;
  if HierObject.truthy (HierObject.duplicate c) then ret tt else
  match HierObject.overlap c with
  | None => raise AttributeError
  | Some ov =>
      parent_overlap_list <-
        filterM (fun over =>
                   if Overlap.center_of_self over then
                     p <- get_obj (Overlap.obj over) ;;
                     ret (negb (HierObject.truthy (HierObject.duplicate p)))
                   else ret false)
                (dget_list parent_label ov) ;;
      match parent_overlap_list with
      | [] => ret tt
      | _ =>
          let parent_overlap_list :=
            if 1 <? length parent_overlap_list then
              let sorted := sort_for_parent parent_overlap_list in
              match sorted with
              | first :: _ =>
                  if Overlap.self_inside_other first
                  then List.filter Overlap.self_inside_other sorted
                  else sorted
              | [] => sorted
              end
            else parent_overlap_list in
          match parent_overlap_list with
          | [over] =>
              let parent := Overlap.obj over in
              p <- get_obj parent ;;
              modify child (fun o =>
                HierObject.set_parent
                  (Some (dset parent_label (HierObject.index p)
                              (default [] (HierObject.parent o)))) o) ;;;
              p' <- get_obj parent ;;
              match HierObject.children p' with
              | None => raise TypeError
              | Some ch =>
                  c' <- get_obj child ;;
                  modify parent
                    (HierObject.set_children
                       (Some (dappend child_label (HierObject.index c') ch)))
              end
          | _ => ret tt
          end
      end
  end.

(** The body of the loop over images in [find_parent]. *)
Definition find_parent_image (child_label parent_label : string)
    (object_dict : dict (list addr)) : M Heap unit :=
  match dget child_label object_dict with
  | None | Some [] => ret tt
  | Some child_list =>
      match dget parent_label object_dict with
      | None | Some [] => ret tt
      | Some all_parent_class =>
          for_each all_parent_class (fun parent =>
            p <- get_obj parent ;;
            match HierObject.children p with
            | None => modify parent (HierObject.set_children (Some []))
            | Some _ => ret tt
            end) ;;;
          for_each child_list (find_parent_child child_label parent_label)
      end
  end.

Definition find_parent (all_obj : AllDict) (child_label parent_label : string)
  : M Heap unit :=
  for_each (dvalues all_obj) (find_parent_image child_label parent_label).

(** ** [get_hierarchy] *)

Definition get_hierarchy (all_obj : AllDict)
    (child_parent_list : option (list (string * string))) : M Heap unit :=
  find_overlapping_objects all_obj ;;;
  find_duplicates all_obj ;;;
  match child_parent_list with
  | None | Some [] => ret tt
  | Some l =>
      for_each l (fun '(child_label, parent_label) =>
                    find_parent all_obj child_label parent_label)
  end.

(** ** The example program under [if __name__ == '__main__'] *)

(** Run a pass on the objects with the collection [c] refers to. *)
Definition on_collection {A} (c : cid) (m : AllDict -> M Heap A) : M State A :=
  fun s =>
    match colls s !! c with
    | None => (Raise InvalidRef, s)
    | Some d =>
        let '(r, h') := m d (heap s) in
        (r, mkState h' (colls s) (default_all s))
    end.

Definition row (image lbl : string) (xmin xmax ymin ymax : Q) : Row :=
  {| LabelName := lbl; ImageID := image;
     XMin := xmin; XMax := xmax; YMin := ymin; YMax := ymax |}.

Definition main_rows : list Row :=
  [ row "i1" "Object" (2 # 10) (4 # 10) (3 # 10) (5 # 10);
    row "i1" "Object" (1 # 10) (3 # 10) (4 # 10) (8 # 10);
    row "i1" "Group" (1 # 10) (5 # 10) (1 # 10) (5 # 10) ].

(** Construct the rows in order, all in the default collection. *)
Fixpoint construct (rows : list Row) (all_obj : option cid) : M State (list addr) :=
  match rows with
  | [] => ret []
  | r :: rest =>
      a <- HierObject_init r all_obj ;;
      l <- construct rest all_obj ;;
      ret (a :: l)
  end.

(** The statements of the example program, up to its assertions. *)
Definition main : M State (list addr) :=
  objs <- construct main_rows None ;;
  match objs with
  | hobj1 :: _ =>
      o1 <- (fun s => match heap s !! hobj1 with
                      | Some o => (Ok o, s)
                      | None => (Raise InvalidRef, s)
                      end) ;;
      on_collection (HierObject.all o1)
        (fun d => get_hierarchy d (Some [("Object", "Group")]%string)) ;;;
      ret objs
  | [] => raise IndexError
  end.

(** * The rest of the module, and what the tests expect *)

(** [bbox()] and [rect()] *)
Definition bbox (self : HierObject.t) : Q * Q * Q * Q :=
  (HierObject.x0 self, HierObject.y0 self, HierObject.x1 self, HierObject.y1 self).

Definition rect (self : HierObject.t) : Q * Q * Q * Q :=
  (HierObject.x0 self, HierObject.y0 self, HierObject.w self, HierObject.h self).

(** ** [sort_iou] *)

(** [sorted(overlap_list, reverse=True, key=attrgetter('iou'))]: a
    stable sort, largest [iou] first; as for [sort_for_parent] a
    stable insertion sort computes it. *)
Fixpoint insert_iou (x : Overlap.t) (l : list Overlap.t) : list Overlap.t :=
  match l with
  | [] => [x]
  | y :: r =>
      if Qltb (Overlap.iou x) (Overlap.iou y) then y :: insert_iou x r
      else x :: y :: r
  end.

Definition sort_iou (overlap_list : list Overlap.t) : list Overlap.t :=
  foldr insert_iou [] overlap_list.

(** ** [dict_for_json] and the JSON encoder *)

(** The Python values that occur as members of an object and in the
    dictionary [dict_for_json] returns.  Three of them hold references:
    to a collection, to an object, and the [Overlap] tuple with its
    [obj] field. *)
#[local] Unset Elimination Schemes.
Inductive pyval :=
| PNone
| PBool (b : bool)
| PInt (n : nat)
| PFloat (q : Q)
| PStr (s : string)
| PRow (r : Row)
| PAll (c : nat)
| PObj (a : nat)
| POverlap (f : Overlap.t)
| PList (l : list pyval)
| PDict (d : list (string * pyval)).
#[local] Set Elimination Schemes.

Definition pyopt {A} (f : A -> pyval) (x : option A) : pyval :=
  match x with
  | Some a => f a
  | None => PNone
  end.

(** [self.__dict__]: the members in the order [__init__] and [parse]
    create them. *)
Definition vars (self : HierObject.t) : list (string * pyval) :=
  [ ("obj", PRow (HierObject.obj self));
    ("all", PAll (HierObject.all self));
    ("label", PStr (HierObject.label self));
    ("imageID", PStr (HierObject.imageID self));
    ("x0", PFloat (HierObject.x0 self));
    ("x1", PFloat (HierObject.x1 self));
    ("y0", PFloat (HierObject.y0 self));
    ("y1", PFloat (HierObject.y1 self));
    ("w", PFloat (HierObject.w self));
    ("h", PFloat (HierObject.h self));
    ("xc", PFloat (HierObject.xc self));
    ("yc", PFloat (HierObject.yc self));
    ("area", PFloat (HierObject.area self));
    ("index", PInt (HierObject.index self));
    ("overlap",
     pyopt (fun d => PDict (map (fun e => (e.1, PList (map POverlap e.2))) d))
           (HierObject.overlap self));
    ("duplicate", pyopt PBool (HierObject.duplicate self));
    ("parent",
     pyopt (fun d => PDict (map (fun e => (e.1, PInt e.2)) d))
           (HierObject.parent self));
    ("children",
     pyopt (fun d => PDict (map (fun e => (e.1, PList (map PInt e.2))) d))
           (HierObject.children self)) ]%string.

(** [over._asdict()] *)
Definition asdict (over : Overlap.t) : list (string * pyval) :=
  [ ("index", PInt (Overlap.index over));
    ("self_inside_other", PBool (Overlap.self_inside_other over));
    ("center_of_self", PBool (Overlap.center_of_self over));
    ("other_inside_self", PBool (Overlap.other_inside_self over));
    ("center_of_other", PBool (Overlap.center_of_other over));
    ("intersection", PFloat (Overlap.intersection over));
    ("iou", PFloat (Overlap.iou over));
    ("iom", PFloat (Overlap.iom over));
    ("obj", PObj (Overlap.obj over)) ]%string.

(** [del d[k]], for a key that is there. *)
Definition ddel {V} (k : string) (d : list (string * V)) : list (string * V) :=
  List.filter (fun e => negb (String.eqb k e.1)) d.

(** [{k: v for (k, v) in over._asdict().items() if k != 'obj'}] *)
Definition json_overlap (over : pyval) : pyval :=
  match over with
  | POverlap f => PDict (List.filter (fun e => negb (String.eqb e.1 "obj")) (asdict f))
  | v => v
  end.

(** [[... for over in overlap_list]] *)
Definition json_overlap_list (overlap_list : pyval) : pyval :=
  match overlap_list with
  | PList l => PList (map json_overlap l)
  | v => v
  end.

Definition dict_for_json (overlap_info : bool) (self : HierObject.t)
  : list (string * pyval) :=
  let d := vars self in
  let d := ddel "all" d in
  let d := if negb overlap_info then ddel "overlap" d else d in
  match dget "overlap" d with
  | Some (PDict ov) =>
      dset "overlap"
        (PDict (map (fun e => (e.1, json_overlap_list e.2)) ov)) d
  | _ => d
  end.

(** What [HierObjectJSONEncoder.default] is called on: an object, or
    anything else the encoder cannot handle. *)
Inductive encoded :=
| AnObject (o : HierObject.t)
| Other (v : pyval).

Definition HierObjectJSONEncoder_default (obj : encoded)
  : result (list (string * pyval)) :=
  match obj with
  | AnObject o => Ok (dict_for_json true o)
  | Other _ => Raise TypeError
  end.

(** ** [test/bbox_utils.py]: what the tests expect of two rows *)

Module bbox_utils.

Definition get_bbox (row : Row) : Q * Q * Q * Q :=
  (XMin row, YMin row, XMax row, YMax row).

Definition get_center (row : Row) : Q * Q :=
  let '(x0, y0, x1, y1) := get_bbox row in
  let xc := ((x0 + x1) / 2)%Q in
  let yc := ((y0 + y1) / 2)%Q in
  (xc, yc).

Definition center_is_inside (row1 row2 : Row) : bool :=
  let '(xc, yc) := get_center row1 in
  let '(x0, y0, x1, y1) := get_bbox row2 in
  Qleb x0 xc && Qleb xc x1 && Qleb y0 yc && Qleb yc y1.

Definition object_is_inside (row1 row2 : Row) : bool :=
  let '(x0a, y0a, x1a, y1a) := get_bbox row1 in
  let '(x0b, y0b, x1b, y1b) := get_bbox row2 in
  Qleb x0b x0a && Qleb x1a x1b && Qleb y0b y0a && Qleb y1a y1b.

(** Either bounding box may be [None]. *)
Definition calc_intersection (bbox1 bbox2 : option (Q * Q * Q * Q))
  : option (Q * Q * Q * Q) :=
  match bbox1, bbox2 with
  | None, _ => bbox2
  | _, None => bbox1
  | Some (x0a, y0a, x1a, y1a), Some (x0b, y0b, x1b, y1b) =>
      let x0 := pymax x0a x0b in
      let y0 := pymax y0a y0b in
      let x1 := pymin x1a x1b in
      let y1 := pymin y1a y1b in
      let x1 := if Qltb x1 x0 then x0 else x1 in
      let y1 := if Qltb y1 y0 then y0 else y1 in
      Some (x0, y0, x1, y1)
  end.

Definition area (bbox : Q * Q * Q * Q) : Q :=
  let '(x0, y0, x1, y1) := bbox in
  if Qleb x1 x0 then 0%Q
  else if Qleb y1 y0 then 0%Q
  else ((x1 - x0) * (y1 - y0))%Q.

End bbox_utils.

(** ** The arithmetic in binary64 *)

Module Float64.

(** The exponent [e] of the binade of a positive [x]:
    [2^e <= x < 2^(e+1)]. *)
Definition binade (x : Q) : Z :=
  let e := (Z.log2 (Qnum x) - Z.log2 (QDen x))%Z in
  if Qleb (2 ^ e) x then e else (e - 1)%Z.

(** The integer nearest to [x], ties to the even one. *)
Definition nearest (x : Q) : Z := round_half_even (Qnum x) (QDen x).

(** The double nearest to a positive [x]: 53 significant bits, ties
    to even.  The exponent is not bounded: overflow, subnormal
    numbers, infinities and NaN are outside the model. *)
Definition fl_pos (x : Q) : Q :=
  let q := (binade x - 52)%Z in
  (inject_Z (nearest (x / 2 ^ q)) * 2 ^ q)%Q.

(** The double nearest to [x]: what a correctly rounded operation
    returns when [x] is its exact result. *)
Definition fl (x : Q) : Q :=
  match Qnum x with
  | Z0 => 0%Q
  | Zpos _ => fl_pos x
  | Zneg _ => (- fl_pos (- x))%Q
  end.

(** [a + b], [a - b], [a * b] and [a / b] on floats. *)
Definition add (a b : Q) : Q := fl (a + b).
Definition sub (a b : Q) : Q := fl (a - b).
Definition mul (a b : Q) : Q := fl (a * b).
Definition div {S} (a b : Q) : M S Q :=
  if Qeq_bool b 0 then raise ZeroDivisionError else ret (fl (a / b)).

(** [rn = lambda x: round(x, 5)]: the double nearest to the decimal
    with five places nearest to [x]. *)
Definition round5 (x : Q) : Q := fl (rn x).

(** [parse], where [float(obj['XMin'])] is the double nearest to the
    number the row gives. *)
Definition parse (obj : Row) : result HierObject.parsed :=
  let label := LabelName obj in
  let imageID := ImageID obj in
  let x0 := round5 (fl (XMin obj)) in
  let x1 := round5 (fl (XMax obj)) in
  let y0 := round5 (fl (YMin obj)) in
  let y1 := round5 (fl (YMax obj)) in
  let w := round5 (sub x1 x0) in
  if negb (Qltb 0 w) then Raise AssertionError else
  let h := round5 (sub y1 y0) in
  if negb (Qltb 0 h) then Raise AssertionError else
  Ok (HierObject.mk_parsed label imageID x0 x1 y0 y1 w h).

(** The members [__init__] computes after [parse]. *)
Definition derive (obj : Row) : result (HierObject.parsed * Q * Q * Q) :=
  match parse obj with
  | Raise e => Raise e
  | Ok p =>
      let xc := round5 (fl (add (HierObject.p_x0 p) (HierObject.p_x1 p) / 2)) in
      let yc := round5 (fl (add (HierObject.p_y0 p) (HierObject.p_y1 p) / 2)) in
      let area := mul (HierObject.p_w p) (HierObject.p_h p) in (* do not round area *)
      if negb (Qltb 0 area) then Raise AssertionError else
      Ok (p, xc, yc, area)
  end.

Definition has_intersection (self other : HierObject.t) : bool :=
  let w := sub (pymin (HierObject.x1 self) (HierObject.x1 other))
               (pymax (HierObject.x0 self) (HierObject.x0 other)) in
  let h := sub (pymin (HierObject.y1 self) (HierObject.y1 other))
               (pymax (HierObject.y0 self) (HierObject.y0 other)) in
  Qltb 0 w && Qltb 0 h.

Definition intersection_area (self other : HierObject.t) : Q :=
  let w := sub (pymin (HierObject.x1 self) (HierObject.x1 other))
               (pymax (HierObject.x0 self) (HierObject.x0 other)) in
  let h := sub (pymin (HierObject.y1 self) (HierObject.y1 other))
               (pymax (HierObject.y0 self) (HierObject.y0 other)) in
  if Qleb w 0 || Qleb h 0 then 0%Q else mul w h.

(** [compare]; [is_inside] and [center_is_inside] only compare
    members and are as before. *)
Definition compare (obj1 obj2 : nat) : M (list HierObject.t) unit :=
  o1 <- get_obj obj1 ;;
  o2 <- get_obj obj2 ;;
  let intersection_flag := has_intersection o1 o2 in
  if intersection_flag then
    let center1 := HierObject.center_is_inside o1 o2 in
    let center2 := HierObject.center_is_inside o2 o1 in
    let inside1 := HierObject.is_inside o1 o2 in
    let inside2 := HierObject.is_inside o2 o1 in
    let intersection := intersection_area o1 o2 in
    q1 <- div intersection
            (sub (add (HierObject.area o1) (HierObject.area o2)) intersection) ;;
    let iou := round5 q1 in
    q2 <- div intersection (pymin (HierObject.area o1) (HierObject.area o2)) ;;
    let iom := round5 q2 in
    append_overlap obj1 (HierObject.label o2)
      (Overlap.mk (HierObject.index o2) inside1 center1 inside2 center2
                  (round5 intersection) iou iom obj2) ;;;
    append_overlap obj2 (HierObject.label o1)
      (Overlap.mk (HierObject.index o1) inside2 center2 inside1 center1
                  (round5 intersection) iou iom obj1)
  else ret tt.

End Float64.

(** * Vocabulary of the properties *)

(** ** Construction *)


(** The collection reference handed to the constructor is a live one. *)
Definition coll_ref_ok (all_obj : option cid) (s : State) : bool :=
  match all_obj with
  | Some c => c <? length (colls s)
  | None =>
      match default_all s with
      | Some c => c <? length (colls s)
      | None => true
      end
  end.

(** The bucket [all[image][lbl]] of collection [c], empty when absent. *)
Definition bucket (s : State) (c : cid) (image lbl : string) : list addr :=
  dget_list lbl (default [] (dget image (default [] (colls s !! c)))).

(** A row of width zero. *)
Definition degenerate_row : Row :=
  row "i1" "Object" (4 # 10) (4 # 10) (3 # 10) (5 # 10).

(** ** Geometry of constructed objects *)

(** The members [parse] and [__init__] set are those derived from the
    object's own row: the object came out of the constructor. *)
Definition geom_ok (o : HierObject.t) : bool :=
  match HierObject.derive (HierObject.obj o) with
  | Ok (p, xc, yc, area) =>
      String.eqb (HierObject.label o) (HierObject.p_label p)
      && String.eqb (HierObject.imageID o) (HierObject.p_imageID p)
      && Qsame (HierObject.x0 o) (HierObject.p_x0 p)
      && Qsame (HierObject.x1 o) (HierObject.p_x1 p)
      && Qsame (HierObject.y0 o) (HierObject.p_y0 p)
      && Qsame (HierObject.y1 o) (HierObject.p_y1 p)
      && Qsame (HierObject.w o) (HierObject.p_w p)
      && Qsame (HierObject.h o) (HierObject.p_h p)
      && Qsame (HierObject.xc o) xc
      && Qsame (HierObject.yc o) yc
      && Qsame (HierObject.area o) area
  | Raise _ => false
  end.

(** The members [parse] and [__init__] set are those derived from the
    object's own row in binary64. *)
Definition geom_ok_float (o : HierObject.t) : bool :=
  match Float64.derive (HierObject.obj o) with
  | Ok (p, xc, yc, area) =>
      String.eqb (HierObject.label o) (HierObject.p_label p)
      && String.eqb (HierObject.imageID o) (HierObject.p_imageID p)
      && Qsame (HierObject.x0 o) (HierObject.p_x0 p)
      && Qsame (HierObject.x1 o) (HierObject.p_x1 p)
      && Qsame (HierObject.y0 o) (HierObject.p_y0 p)
      && Qsame (HierObject.y1 o) (HierObject.p_y1 p)
      && Qsame (HierObject.w o) (HierObject.p_w p)
      && Qsame (HierObject.h o) (HierObject.p_h p)
      && Qsame (HierObject.xc o) xc
      && Qsame (HierObject.yc o) yc
      && Qsame (HierObject.area o) area
  | Raise _ => false
  end.

(** What the checks of the constructor give about an object. *)
Record geometry (o : HierObject.t) : Prop := {
  geo_w : (HierObject.w o == HierObject.x1 o - HierObject.x0 o)%Q;
  geo_h : (HierObject.h o == HierObject.y1 o - HierObject.y0 o)%Q;
  geo_w_pos : (0 < HierObject.w o)%Q;
  geo_h_pos : (0 < HierObject.h o)%Q;
  geo_area : HierObject.area o = (HierObject.w o * HierObject.h o)%Q
}.

(** The overlap rectangle of two objects, as [has_intersection] and
    [intersection_area] compute it. *)
Definition overlap_w (o1 o2 : HierObject.t) : Q :=
  (pymin (HierObject.x1 o1) (HierObject.x1 o2)
   - pymax (HierObject.x0 o1) (HierObject.x0 o2))%Q.
Definition overlap_h (o1 o2 : HierObject.t) : Q :=
  (pymin (HierObject.y1 o1) (HierObject.y1 o2)
   - pymax (HierObject.y0 o1) (HierObject.y0 o2))%Q.

(** ** [compare] *)

(** The two facts [compare(obj1, obj2)] appends when the objects
    intersect: the one for [obj1] and the mirrored one for [obj2]. *)
Definition fact1 (o1 o2 : HierObject.t) (a2 : addr) : Overlap.t :=
  let i := HierObject.intersection_area o1 o2 in
  Overlap.mk (HierObject.index o2)
    (HierObject.is_inside o1 o2) (HierObject.center_is_inside o1 o2)
    (HierObject.is_inside o2 o1) (HierObject.center_is_inside o2 o1)
    (rn i)
    (rn (i / (HierObject.area o1 + HierObject.area o2 - i)))
    (rn (i / pymin (HierObject.area o1) (HierObject.area o2)))
    a2.

Definition fact2 (o1 o2 : HierObject.t) (a1 : addr) : Overlap.t :=
  let i := HierObject.intersection_area o1 o2 in
  Overlap.mk (HierObject.index o1)
    (HierObject.is_inside o2 o1) (HierObject.center_is_inside o2 o1)
    (HierObject.is_inside o1 o2) (HierObject.center_is_inside o1 o2)
    (rn i)
    (rn (i / (HierObject.area o1 + HierObject.area o2 - i)))
    (rn (i / pymin (HierObject.area o1) (HierObject.area o2)))
    a1.

(** The object after [o.overlap[lbl].append(f)]. *)
Definition add_fact (lbl : string) (f : Overlap.t) (o : HierObject.t) : HierObject.t :=
  HierObject.set_overlap
    (Some (dappend lbl f (default [] (HierObject.overlap o)))) o.

(** ** What the passes leave alone *)

(** The members fixed at construction: the object with the four
    members the passes write blanked out. *)
Definition static (o : HierObject.t) : HierObject.t :=
  HierObject.set_overlap None
    (HierObject.set_duplicate None
       (HierObject.set_parent None (HierObject.set_children None o))).

(** ** Well-formed collections *)

(** The objects of one image in the order [find_overlapping_objects]
    flattens them, and the objects of the whole collection. *)
Definition image_addrs (object_dict : list (string * list nat)) : list nat :=
  concat (dvalues object_dict).
Definition all_addrs (all_obj : list (string * list (string * list nat))) : list nat :=
  concat (map image_addrs (dvalues all_obj)).

(** The object at [a] is the one registered as number [i] of the
    bucket [all[image][lbl]]. *)
Definition entry_ok (h : list HierObject.t) (image lbl : string) (i : nat) (a : nat)
  : bool :=
  match h !! a with
  | Some o =>
      String.eqb (HierObject.imageID o) image
      && String.eqb (HierObject.label o) lbl
      && (HierObject.index o =? i)
      && geom_ok o
  | None => false
  end.

(** The same for every position of a bucket, and for every bucket of
    an image, whose class labels are distinct keys. *)
Definition bucket_ok (h : list HierObject.t) (image lbl : string) (l : list nat) : bool :=
  forallb (fun ia => entry_ok h image lbl ia.1 ia.2) (imap pair l).

Definition image_ok (h : list HierObject.t) (image : string)
    (object_dict : list (string * list nat)) : bool :=
  bool_decide (NoDup (dkeys object_dict))
  && forallb (fun e => bucket_ok h image e.1 e.2) object_dict.

(** The state every sequence of constructor calls leaves behind. *)
Definition wf_coll (all_obj : list (string * list (string * list nat)))
    (h : list HierObject.t) : bool :=
  bool_decide (NoDup (all_addrs all_obj))
  && forallb (fun e => image_ok h e.1 e.2) all_obj.

(** [wf_coll] as a proposition. *)
Record WF (all_obj : list (string * list (string * list nat)))
    (h : list HierObject.t) : Prop := {
  wf_nodup : NoDup (all_addrs all_obj);
  wf_labels : forall image od, (image, od) ∈ all_obj -> NoDup (dkeys od);
  wf_entry : forall image od lbl l i a,
    (image, od) ∈ all_obj -> (lbl, l) ∈ od -> l !! i = Some a ->
    exists o, h !! a = Some o /\ HierObject.imageID o = image
              /\ HierObject.label o = lbl /\ HierObject.index o = i
              /\ geom_ok o = true
}.

(** ** Loops over disjoint groups of objects *)

(** The three passes loop over images, over the buckets of an image
    and over the objects of a bucket.  Each round touches the objects
    of its own group only, so what a round does to an object survives
    the rest of the loop. *)
(** A round of a loop: from a heap with [G] the body runs without
    error, keeps [G], changes the objects of its group [fp x] only,
    and relates each of them to its new state by [T x]. *)
Definition round_ok {X : Type} (fp : X -> list nat)
    (G : list HierObject.t -> Prop)
    (T : X -> nat -> HierObject.t -> HierObject.t -> Prop)
    (body : X -> M (list HierObject.t) unit) (x : X) : Prop :=
  forall h, G h ->
    exists h', body x h = (Ok tt, h') /\ G h'
      /\ (forall a, a ∉ fp x -> h' !! a = h !! a)
      /\ (forall a o, a ∈ fp x -> h !! a = Some o ->
            exists o', h' !! a = Some o' /\ T x a o o').

(** ** [find_duplicates] *)

(** Every object of the collection has its [overlap] member set:
    [find_overlapping_objects] has run. *)
Definition populated (all_obj : list (string * list (string * list nat)))
    (h : list HierObject.t) : bool :=
  forallb (fun a => match h !! a with
                    | Some o => match HierObject.overlap o with
                                | Some _ => true
                                | None => false
                                end
                    | None => false
                    end)
          (all_addrs all_obj).

(** The overlap facts an object holds under a class label. *)
Definition facts_under (lbl : string) (o : HierObject.t) : list Overlap.t :=
  dget_list lbl (default [] (HierObject.overlap o)).

(** The flag [find_duplicates] computes for an object. *)
Definition dup_flag (o : HierObject.t) : bool :=
  existsb (fun other =>
             Qltb threshold_default (Overlap.iou other)
             && (HierObject.index o <? Overlap.index other))
          (facts_under (HierObject.label o) o).

(** ** [find_overlapping_objects] *)

(** The pairs the two index loops visit, by recursion on the list. *)
Fixpoint compare_all (flat : list nat) : M (list HierObject.t) unit :=
  match flat with
  | [] => ret tt
  | x :: rest => for_each rest (compare x) ;;; compare_all rest
  end.

(** The body of the two index loops of [find_overlapping_objects]. *)
Definition pair_body (flat : list nat) (idx1 idx2 : nat) : M (list HierObject.t) unit :=
  a1 <- list_index flat idx1 ;;
  a2 <- list_index flat idx2 ;;
  compare a1 a2.

(** Two heaps whose objects agree on the construction-time members. *)
Definition sameS (h h' : list HierObject.t) : Prop :=
  forall a, static <$> (h' !! a) = static <$> (h !! a).

(** The fact [compare x b] gives [x] about [b] under label [l], and
    the one it gives [a] about [x], read off a heap. *)
Definition row_fact1 (h : list HierObject.t) (x b : nat) (l : string) : list Overlap.t :=
  match h !! x, h !! b with
  | Some ox, Some ob =>
      if HierObject.has_intersection ox ob && String.eqb (HierObject.label ob) l
      then [fact1 ox ob b] else []
  | _, _ => []
  end.

Definition row_fact2 (h : list HierObject.t) (x a : nat) (l : string) : list Overlap.t :=
  match h !! x, h !! a with
  | Some ox, Some oa =>
      if HierObject.has_intersection ox oa && String.eqb (HierObject.label ox) l
      then [fact2 ox oa x] else []
  | _, _ => []
  end.

(** The facts [compare_all flat] adds to the object [a] under label
    [l], in the order it adds them. *)
Fixpoint new_facts (h : list HierObject.t) (flat : list nat) (a : nat) (l : string)
  : list Overlap.t :=
  match flat with
  | [] => []
  | x :: rest =>
      (if bool_decide (a = x) then flat_map (fun b => row_fact1 h x b l) rest
       else if bool_decide (a ∈ rest) then row_fact2 h x a l
       else [])
      ++ new_facts h rest a l
  end.

(** An object whose overlap lists have grown by [D], nothing else changed. *)
Record grows (D : string -> list Overlap.t) (o o' : HierObject.t) : Prop := {
  grows_only : o' = HierObject.set_overlap (HierObject.overlap o') o;
  grows_some : is_Some (HierObject.overlap o');
  grows_facts : forall l, facts_under l o' = facts_under l o ++ D l
}.

(** The objects [compare] may be run on. *)
Definition comparable (h : list HierObject.t) (S : list nat) : Prop :=
  forall a, a ∈ S ->
    exists o, h !! a = Some o /\ geom_ok o = true /\ is_Some (HierObject.overlap o).

(** What one row of comparisons, [x] against [rest], adds to [a]. *)
Definition row_delta (h : list HierObject.t) (x : nat) (rest : list nat) (a : nat)
    (l : string) : list Overlap.t :=
  if bool_decide (a = x) then flat_map (fun b => row_fact1 h x b l) rest
  else if bool_decide (a ∈ rest) then row_fact2 h x a l
  else [].

(** What [find_overlapping_objects] does to the object [a] of an image
    whose objects are [flat]: the overlap lists are those of the
    comparisons, every other member is as before. *)
Record overlapped (h : list HierObject.t) (flat : list nat) (a : nat)
    (o o' : HierObject.t) : Prop := {
  ov_only : o' = HierObject.set_overlap (HierObject.overlap o') o;
  ov_some : is_Some (HierObject.overlap o');
  ov_facts : forall l, facts_under l o' = new_facts h flat a l
}.

(** The objects of [S] are there and came out of the constructor. *)
Definition constructed (h : list HierObject.t) (S : list nat) : Prop :=
  forall a, a ∈ S -> exists o, h !! a = Some o /\ geom_ok o = true.

(** ** The facts two objects hold about each other *)

(** The facts of a list that are about the object [b]. *)
Definition about (b : nat) (fs : list Overlap.t) : list Overlap.t :=
  List.filter (fun f => Overlap.obj f =? b) fs.

(** ** Well-formed overlap facts *)

(** A fact held under label [l] by an object of the image whose
    objects are [flat]: it is about an object of that image, of class
    [l], and carries that object's index. *)
Definition fact_ok (h : list HierObject.t) (flat : list nat) (l : string)
    (f : Overlap.t) : bool :=
  bool_decide (Overlap.obj f ∈ flat)
  && match h !! Overlap.obj f with
     | Some p =>
         String.eqb (HierObject.label p) l
         && (HierObject.index p =? Overlap.index f)
     | None => false
     end.

(** The state [find_overlapping_objects] leaves behind. *)
Definition facts_ok (all_obj : list (string * list (string * list nat)))
    (h : list HierObject.t) : bool :=
  forallb (fun e =>
    let flat := image_addrs e.2 in
    forallb (fun a =>
      match h !! a with
      | Some o =>
          match HierObject.overlap o with
          | Some ov =>
              forallb (fun l => forallb (fact_ok h flat l) (dget_list l ov)) (dkeys ov)
          | None => false
          end
      | None => false
      end) flat) all_obj.

(** [facts_ok] as a proposition. *)
Definition FactsOK (all_obj : list (string * list (string * list nat)))
    (h : list HierObject.t) : Prop :=
  forall image od a, (image, od) ∈ all_obj -> a ∈ image_addrs od ->
    exists o, h !! a = Some o /\ is_Some (HierObject.overlap o)
      /\ forall l f, f ∈ facts_under l o -> fact_ok h (image_addrs od) l f = true.

(** Heaps that agree on the overlap lists, and on the duplicate flags. *)
Definition sameO (h h' : list HierObject.t) : Prop :=
  forall a, HierObject.overlap <$> (h' !! a) = HierObject.overlap <$> (h !! a).
Definition sameD (h h' : list HierObject.t) : Prop :=
  forall a, HierObject.duplicate <$> (h' !! a) = HierObject.duplicate <$> (h !! a).

(** ** [sort_for_parent] *)

(** [a < b] on sort keys, as a proposition. *)
Definition key_lt (a b : Z * Z * Q) : Prop :=
  (a.1.1 < b.1.1)%Z
  \/ (a.1.1 = b.1.1 /\ ((a.1.2 < b.1.2)%Z \/ (a.1.2 = b.1.2 /\ (a.2 < b.2)%Q))).

(** [a] ranks no lower than [b], as [sort_for_parent] compares
    them: through [sort_key]. *)
Definition ranks_above (a b : Overlap.t) : Prop :=
  key_ltb (sort_key a) (sort_key b) = false.

(** ** Candidates, survivors and the chosen parent *)

(** [bool(a.duplicate)] for the object at [a]. *)
Definition dup_at (h : list HierObject.t) (a : nat) : bool :=
  match h !! a with
  | Some p => HierObject.truthy (HierObject.duplicate p)
  | None => false
  end.

(** The candidate parents of a child under [parent_label]: its facts
    there with the center inside and a target that is no duplicate. *)
Definition candidates (h : list HierObject.t) (parent_label : string)
    (child : HierObject.t) : list Overlap.t :=
  List.filter (fun over =>
                 Overlap.center_of_self over && negb (dup_at h (Overlap.obj over)))
              (facts_under parent_label child).

(** More than one candidate: rank them, and if the best is fully
    inside keep the fully inside ones only. *)
Definition survivors (cands : list Overlap.t) : list Overlap.t :=
  if 1 <? length cands then
    let sorted := sort_for_parent cands in
    match sorted with
    | first :: _ =>
        if Overlap.self_inside_other first
        then List.filter Overlap.self_inside_other sorted
        else sorted
    | [] => sorted
    end
  else cands.

(** The parent fact [find_parent] settles on for a child, if any. *)
Definition chosen (h : list HierObject.t) (parent_label : string)
    (child : HierObject.t) : option Overlap.t :=
  if HierObject.truthy (HierObject.duplicate child) then None
  else match survivors (candidates h parent_label child) with
       | [over] => Some over
       | _ => None
       end.

(** The child's [parent] dictionary after the round. *)
Definition assign (parent_label : string) (c : option Overlap.t) (d : list (string * nat))
  : list (string * nat) :=
  match c with
  | Some over => dset parent_label (Overlap.index over) d
  | None => d
  end.

(** [children[child_label].append(i)] for each [i] of [kids] in turn. *)
Definition add_kids (child_label : string) (kids : list nat)
    (ch : option (list (string * list nat))) : option (list (string * list nat)) :=
  fold_left (fun ch i => Some (dappend child_label i (default [] ch))) kids ch.

(** ** The ranking and the outcome of [find_parent], as it is described *)

(** [False < True] *)
Definition bool_lt (a b : bool) : Prop := a = false /\ b = true.

(** [a] ranks no lower than [b] by the triple ([self_inside_other],
    [center_of_self], [iom]), compared from the left.  This is the
    order of the description, written on the members of the facts
    and not through [sort_key]. *)
Definition triple_ge (a b : Overlap.t) : Prop :=
  bool_lt (Overlap.self_inside_other b) (Overlap.self_inside_other a)
  \/ (Overlap.self_inside_other a = Overlap.self_inside_other b
      /\ (bool_lt (Overlap.center_of_self b) (Overlap.center_of_self a)
          \/ (Overlap.center_of_self a = Overlap.center_of_self b
              /\ (Overlap.iom b <= Overlap.iom a)%Q))).

(** What remains of several candidates once they are ranked: the
    fully contained ones when the top-ranked one is fully contained,
    all of them otherwise. *)
Definition remaining (ranked : list Overlap.t) : list Overlap.t :=
  match ranked with
  | top :: _ =>
      if Overlap.self_inside_other top
      then List.filter Overlap.self_inside_other ranked
      else ranked
  | [] => []
  end.

(** The same, said without a ranking: of several candidates of which
    one is fully contained, the fully contained ones; all candidates
    otherwise. *)
Definition kept (cands : list Overlap.t) : list Overlap.t :=
  if (1 <? length cands) && existsb Overlap.self_inside_other cands
  then List.filter Overlap.self_inside_other cands
  else cands.

(** The parent a child is given: none when the child is flagged
    duplicate, the candidate that is kept when exactly one is. *)
Definition settled (h : list HierObject.t) (parent_label : string)
    (child : HierObject.t) : option Overlap.t :=
  if HierObject.truthy (HierObject.duplicate child) then None
  else match kept (candidates h parent_label child) with
       | [over] => Some over
       | _ => None
       end.

(** The indices of the children of the list [cs], in its order, that
    are given the object at [b] as parent. *)
Definition handed (h : list HierObject.t) (parent_label : string) (cs : list nat)
    (b : nat) : list nat :=
  flat_map (fun c =>
              match h !! c with
              | Some oc =>
                  match settled h parent_label oc with
                  | Some f => if Overlap.obj f =? b then [HierObject.index oc] else []
                  | None => []
                  end
              | None => []
              end) cs.

(** ** [find_parent]: one child *)

(** The object [o] with new [parent] and [children] members. *)
Definition pc (np : option (list (string * nat)))
    (nc : option (list (string * list nat))) (o : HierObject.t) : HierObject.t :=
  HierObject.set_parent np (HierObject.set_children nc o).

(** A heap that differs from another in [parent] and [children]
    members only. *)
Definition pc_only (h h' : list HierObject.t) : Prop :=
  length h' = length h
  /\ forall a o, h !! a = Some o -> exists np nc, h' !! a = Some (pc np nc o).

(** The children [find_parent] hands to the object [a] while it goes
    through the list [cs] of children. *)
Definition assigned (h : list HierObject.t) (pl : string) (cs : list nat) (a : nat)
  : list nat :=
  flat_map (fun c =>
              match h !! c with
              | Some oc =>
                  match chosen h pl oc with
                  | Some f => if Overlap.obj f =? a then [HierObject.index oc] else []
                  | None => []
                  end
              | None => []
              end) cs.

(** The members of [a] after the rounds for the children [cs]. *)
Definition new_parent (h : list HierObject.t) (pl : string) (cs : list nat)
    (a : nat) (o : HierObject.t) : option (list (string * nat)) :=
  if bool_decide (a ∈ cs)
  then Some (assign pl (chosen h pl o) (default [] (HierObject.parent o)))
  else HierObject.parent o.

Definition new_children (h : list HierObject.t) (cl pl : string) (cs : list nat)
    (a : nat) (o : HierObject.t) : option (list (string * list nat)) :=
  add_kids cl (assigned h pl cs a) (HierObject.children o).

(** The facts of a child under [pl] point to objects that are there,
    carry their index and can take children. *)
Definition child_ready (h : list HierObject.t) (pl : string) (c : nat) : Prop :=
  exists o, h !! c = Some o /\ is_Some (HierObject.overlap o)
    /\ forall f, f ∈ facts_under pl o ->
         exists p, h !! Overlap.obj f = Some p
                   /\ HierObject.index p = Overlap.index f
                   /\ is_Some (HierObject.children p).

(** ** [find_parent]: the children of one image *)

(** The first loop of an image: every object of the parent class gets
    a [children] dictionary. *)
Definition init_children (ps : list nat) (a : nat) (o : HierObject.t)
  : option (list (string * list nat)) :=
  if bool_decide (a ∈ ps) then Some (default [] (HierObject.children o))
  else HierObject.children o.

(** The buckets [find_parent] works on in an image, when neither is
    missing or empty. *)
Definition active (cl pl : string) (od : list (string * list nat))
  : option (list nat * list nat) :=
  match dget cl od with
  | None | Some [] => None
  | Some cs =>
      match dget pl od with
      | None | Some [] => None
      | Some ps => Some (cs, ps)
      end
  end.

(** The [parent] member of the object [o] at [a] after the round of
    [find_parent] for the image [od]. *)
Definition image_parent (h : list HierObject.t) (cl pl : string)
    (od : list (string * list nat)) (a : nat) (o : HierObject.t)
  : option (list (string * nat)) :=
  match active cl pl od with
  | Some (cs, _) => new_parent h pl cs a o
  | None => HierObject.parent o
  end.

(** Its [children] member after that round. *)
Definition image_children (h : list HierObject.t) (cl pl : string)
    (od : list (string * list nat)) (a : nat) (o : HierObject.t)
  : option (list (string * list nat)) :=
  match active cl pl od with
  | Some (cs, ps) => add_kids cl (assigned h pl cs a) (init_children ps a o)
  | None => HierObject.children o
  end.

(** ** Sample data for the examples below *)

(** Two images.  In [i1]: three objects, the third apart from all the
    rest, and two groups with the same box, so that the first group
    is a duplicate.  In [i2]: one object and no group. *)
Definition sample_rows : list Row :=
  [ row "i1" "Object" (2 # 10) (4 # 10) (3 # 10) (5 # 10);
    row "i1" "Object" (1 # 10) (3 # 10) (4 # 10) (8 # 10);
    row "i1" "Group" (1 # 10) (5 # 10) (1 # 10) (5 # 10);
    row "i1" "Group" (1 # 10) (5 # 10) (1 # 10) (5 # 10);
    row "i1" "Object" (6 # 10) (9 # 10) (6 # 10) (9 # 10);
    row "i2" "Object" (2 # 10) (4 # 10) (3 # 10) (5 # 10) ].

Definition sample_state : State :=
  Eval vm_compute in snd (construct sample_rows None empty_state).

Definition sample_all : list (string * list (string * list nat)) :=
  Eval vm_compute in default [] (colls sample_state !! 0).

(** The sample objects as constructed, after [find_overlapping_objects],
    and after [find_duplicates]. *)
Definition sample_heap : list HierObject.t := heap sample_state.
Definition sample_overlapped : list HierObject.t :=
  Eval vm_compute in snd (find_overlapping_objects sample_all sample_heap).
Definition sample_flagged : list HierObject.t :=
  Eval vm_compute in snd (find_duplicates sample_all sample_overlapped).

(** ** Sample data in binary64 *)

(** The objects the constructor builds in binary64 from the rows of
    one class of one image (a row it refuses is left out), with the
    empty overlap dictionary [find_overlapping_objects] gives them
    before it compares. *)
Fixpoint float_objects (rows : list Row) (idx : nat) : list HierObject.t :=
  match rows with
  | [] => []
  | r :: rest =>
      match Float64.derive r with
      | Ok g =>
          HierObject.set_overlap (Some []) (HierObject.build r 0 g idx)
          :: float_objects rest (S idx)
      | Raise _ => float_objects rest idx
      end
  end.




(** ** The intersection over union of two rows *)


(** Two rectangles of one class with a corner in common, the second
    inside the first with 0.70711 of its side: the areas are 1 and
    0.5000045521, so the IoU is just above one half. *)
Definition near_half_rows : list Row :=
  [ row "i1" "Object" 0 1 0 1;
    row "i1" "Object" 0 (70711 # 100000) 0 (70711 # 100000) ].

(** ** [get_hierarchy] and duplicates *)

(** [find_parent] has not run on the objects of the collection
    yet: none has a [parent] or a [children] member. *)
Definition fresh (all_obj : list (string * list (string * list nat)))
    (h : list HierObject.t) : bool :=
  forallb (fun a => match h !! a with
                    | Some o =>
                        match HierObject.parent o, HierObject.children o with
                        | None, None => true
                        | _, _ => false
                        end
                    | None => false
                    end)
          (all_addrs all_obj).

(** A duplicate has no parent and no children. *)
Definition dup_bare (all_obj : list (string * list (string * list nat)))
    (h : list HierObject.t) : Prop :=
  forall a o, a ∈ all_addrs all_obj -> h !! a = Some o ->
    HierObject.truthy (HierObject.duplicate o) = true ->
    (HierObject.parent o = None \/ HierObject.parent o = Some [])
    /\ (HierObject.children o = None \/ HierObject.children o = Some []).

(** Every recorded parent is a candidate that is no duplicate. *)
Definition parents_sound (all_obj : list (string * list (string * list nat)))
    (h : list HierObject.t) : Prop :=
  forall a o pl idx, a ∈ all_addrs all_obj -> h !! a = Some o ->
    dget pl (default [] (HierObject.parent o)) = Some idx ->
    exists f, f ∈ facts_under pl o /\ Overlap.center_of_self f = true
              /\ dup_at h (Overlap.obj f) = false /\ Overlap.index f = idx.

(** ** Examples on the sample data *)

(** The unit test of [sort_for_parent], with the members the test
    leaves as [None] set to [false] and to the address 0. *)
Definition overlap_5 : list Overlap.t :=
  [ Overlap.mk 0 true true false false (59 # 100) (5 # 10) (5 # 10) 0;
    Overlap.mk 1 false true false false (58 # 100) (6 # 10) (8 # 10) 0;
    Overlap.mk 2 true true false false (57 # 100) (9 # 10) (3 # 10) 0;
    Overlap.mk 3 false true false false (56 # 100) (4 # 10) (9 # 10) 0;
    Overlap.mk 5 false false false false (55 # 100) (9 # 10) (7 # 10) 0 ].

(** ** Vocabulary of the further properties *)

(** An object no pass has touched: the four members [__init__] sets
    to [None] are still [None]. *)
Definition untouched (o : HierObject.t) : Prop :=
  HierObject.overlap o = None /\ HierObject.duplicate o = None
  /\ HierObject.parent o = None /\ HierObject.children o = None.

(** One step of the grid [round(x, 5)] rounds to. *)
Definition grid_step : Q := 1 # 100000.

(** Python's [==] on the sort keys of [sort_for_parent]. *)
Definition key_eqb (a b : Z * Z * Q) : bool :=
  let '(a1, a2, a3) := a in
  let '(b1, b2, b3) := b in
  (a1 =? b1)%Z && (a2 =? b2)%Z && Qeq_bool a3 b3.

(** The sort of both functions, for any strict order [lt] on the elements. *)
Fixpoint insert_by {A} (lt : A -> A -> bool) (x : A) (l : list A) : list A :=
  match l with
  | [] => [x]
  | y :: r => if lt x y then y :: insert_by lt x r else x :: y :: r
  end.

Definition iou_ltb (a b : Overlap.t) : bool := Qltb (Overlap.iou a) (Overlap.iou b).
Definition parent_ltb (a b : Overlap.t) : bool := key_ltb (sort_key a) (sort_key b).

(** ** Statements that work on a group of objects *)

(** Two heaps of one size with the same objects at the addresses [S]. *)
Definition agree (S : list nat) (h g : list HierObject.t) : Prop :=
  length h = length g /\ forall a, a ∈ S -> h !! a = g !! a.

(** A statement that reads and writes the objects at [S] only: run on
    two heaps that agree there, it gives the same result and heaps
    that agree there. *)
Definition local {A} (S : list nat) (m : M (list HierObject.t) A) : Prop :=
  forall h g, agree S h g ->
    fst (m h) = fst (m g) /\ agree S (snd (m h)) (snd (m g)).

(** Heaps whose objects are the same but for the [overlap] member. *)
Definition same_but_overlap (h g : list HierObject.t) : Prop :=
  forall a, HierObject.set_overlap None <$> (g !! a)
            = HierObject.set_overlap None <$> (h !! a).

(** No object of the collection has its [overlap] or [duplicate]
    member set: neither [find_overlapping_objects] nor
    [find_duplicates] has run. *)
Definition unpopulated (all_obj : list (string * list (string * list nat)))
    (h : list HierObject.t) : bool :=
  forallb (fun a => match h !! a with
                    | Some o => match HierObject.overlap o, HierObject.duplicate o with
                                | None, None => true
                                | _, _ => false
                                end
                    | None => false
                    end)
          (all_addrs all_obj).

(** [bool(l)] for a list. *)
Definition nonempty {A} (l : list A) : bool :=
  match l with [] => false | _ => true end.

(** A value made of [None], booleans, numbers, strings, lists and
    dictionaries only: what the JSON encoder writes without coming
    back to [default].  A row is the caller's own dictionary, which
    the object keeps as it is; what it holds is not known, so a row
    does not count. *)
Fixpoint json_ready (v : pyval) : bool :=
  match v with
  | PNone | PBool _ | PInt _ | PFloat _ | PStr _ => true
  | PRow _ | PAll _ | PObj _ | POverlap _ => false
  | PList l => forallb json_ready l
  | PDict d => forallb (fun e => json_ready e.2) d
  end.

(** The same of every value of a dictionary but the one under [obj]. *)
Definition json_ready_but_obj (d : list (string * pyval)) : bool :=
  forallb (fun e => String.eqb e.1 "obj" || json_ready e.2) d.

(** The object without what [dict_for_json] leaves out: the reference
    to the collection and the references the facts hold. *)
Definition forget_fact (f : Overlap.t) : Overlap.t :=
  Overlap.mk (Overlap.index f) (Overlap.self_inside_other f)
    (Overlap.center_of_self f) (Overlap.other_inside_self f)
    (Overlap.center_of_other f) (Overlap.intersection f) (Overlap.iou f)
    (Overlap.iom f) 0.

Definition forget (o : HierObject.t) : HierObject.t :=
  HierObject.mk (HierObject.obj o) 0 (HierObject.label o) (HierObject.imageID o)
    (HierObject.x0 o) (HierObject.x1 o) (HierObject.y0 o) (HierObject.y1 o)
    (HierObject.w o) (HierObject.h o) (HierObject.xc o) (HierObject.yc o)
    (HierObject.area o) (HierObject.index o)
    (option_map (map (fun e => (e.1, map forget_fact e.2))) (HierObject.overlap o))
    (HierObject.duplicate o) (HierObject.parent o) (HierObject.children o).

(** The names of the members, in the order of [__dict__]. *)
Definition member_names : list string :=
  [ "obj"; "all"; "label"; "imageID"; "x0"; "x1"; "y0"; "y1"; "w"; "h";
    "xc"; "yc"; "area"; "index"; "overlap"; "duplicate"; "parent";
    "children" ]%string.

(** A row as the generators of the tests write it: every coordinate
    is a multiple of the grid step. *)
Definition on_grid (r : Row) : Prop :=
  (rn (XMin r) == XMin r)%Q /\ (rn (XMax r) == XMax r)%Q
  /\ (rn (YMin r) == YMin r)%Q /\ (rn (YMax r) == YMax r)%Q.

(** The sample object at an address, as constructed and after
    [find_overlapping_objects]. *)
Definition sample_object (a : nat) : HierObject.t :=
  nth a sample_heap
    (HierObject.mk (row "" "" 0 0 0 0) 0 "" "" 0 0 0 0 0 0 0 0 0 0
       None None None None).

Definition sample_object_overlapped (a : nat) : HierObject.t :=
  nth a sample_overlapped (sample_object a).

(** The state after the first row of the example program, after the
    second, and the states after [clear_default_all()] and after the
    second row is constructed then. *)
Definition main_state_1 : State :=
  Eval vm_compute in snd (construct (take 1 main_rows) None empty_state).
Definition main_state_2 : State :=
  Eval vm_compute in snd (construct (take 2 main_rows) None empty_state).
Definition main_state_cleared : State :=
  Eval vm_compute in snd (clear_default_all main_state_1).
Definition main_state_restarted : State :=
  Eval vm_compute in
    snd (HierObject_init (row "i1" "Object" (1 # 10) (3 # 10) (4 # 10) (8 # 10))
           None main_state_cleared).

(** * Properties *)

(** ** Comparisons, minimum and maximum *)

Lemma Qltb_lt (a b : Q) : Qltb a b = true <-> (a < b)%Q.
Proof. unfold Qltb, Qlt. apply Z.ltb_lt. Qed.

Lemma Qltb_nlt (a b : Q) : Qltb a b = false <-> (b <= a)%Q.
Proof. unfold Qltb, Qle. rewrite Z.ltb_ge. reflexivity. Qed.

Lemma Qleb_le (a b : Q) : Qleb a b = true <-> (a <= b)%Q.
Proof. unfold Qleb, Qle. apply Z.leb_le. Qed.

Lemma Qleb_nle (a b : Q) : Qleb a b = false <-> (b < a)%Q.
Proof. unfold Qleb, Qlt. rewrite Z.leb_gt. reflexivity. Qed.

Lemma Qsame_eq (a b : Q) : Qsame a b = true <-> a = b.
Proof.
  unfold Qsame. rewrite andb_true_iff, Z.eqb_eq, Pos.eqb_eq.
  destruct a, b; simpl. split; [intros [-> ->]; reflexivity | intros [= -> ->]; auto].
Qed.

Lemma pymin_le_l (a b : Q) : (pymin a b <= a)%Q.
Proof.
  unfold pymin. destruct (Qltb b a) eqn:E.
  - apply Qltb_lt in E. lra.
  - lra.
Qed.

Lemma pymin_le_r (a b : Q) : (pymin a b <= b)%Q.
Proof.
  unfold pymin. destruct (Qltb b a) eqn:E.
  - lra.
  - apply Qltb_nlt in E. lra.
Qed.

Lemma pymax_ge_l (a b : Q) : (a <= pymax a b)%Q.
Proof.
  unfold pymax. destruct (Qltb a b) eqn:E.
  - apply Qltb_lt in E. lra.
  - lra.
Qed.

Lemma pymax_ge_r (a b : Q) : (b <= pymax a b)%Q.
Proof.
  unfold pymax. destruct (Qltb a b) eqn:E.
  - lra.
  - apply Qltb_nlt in E. lra.
Qed.

Lemma pymin_cases (a b : Q) : pymin a b = a \/ pymin a b = b.
Proof. unfold pymin. destruct (Qltb b a); auto. Qed.

(** ** Rounding *)

Section Rounding.
Local Open Scope Z_scope.

Lemma round_half_even_exact (k d : Z) : 0 < d -> round_half_even (k * d) d = k.
Proof.
  intros Hd. unfold round_half_even.
  rewrite Z.div_mul by lia. rewrite Z.mod_mul by lia.
  destruct (2 * 0 <? d) eqn:E; [reflexivity | apply Z.ltb_ge in E; lia].
Qed.

Lemma round_half_even_floor (n d : Z) :
  0 < d -> n / d <= round_half_even n d <= n / d + 1.
Proof.
  intros Hd. unfold round_half_even.
  repeat match goal with |- context [if ?b then _ else _] => destruct b end; lia.
Qed.

(** Rounding never crosses an integer. *)
Lemma round_half_even_lower (k n d : Z) :
  0 < d -> k * d <= n -> k <= round_half_even n d.
Proof.
  intros Hd Hk.
  assert (k <= n / d) by (apply Z.div_le_lower_bound; lia).
  pose proof (round_half_even_floor n d Hd). lia.
Qed.

Lemma round_half_even_upper (k n d : Z) :
  0 < d -> n <= k * d -> round_half_even n d <= k.
Proof.
  intros Hd Hk.
  destruct (Z.eq_dec n (k * d)) as [-> | Hne].
  - rewrite round_half_even_exact by lia. lia.
  - assert (n / d < k) by (apply Z.div_lt_upper_bound; lia).
    pose proof (round_half_even_floor n d Hd). lia.
Qed.

(** The result depends on the quotient only, not on how it is written. *)
Lemma round_half_even_proper (n1 d1 n2 d2 : Z) :
  0 < d1 -> 0 < d2 -> n1 * d2 = n2 * d1 ->
  round_half_even n1 d1 = round_half_even n2 d2.
Proof.
  intros H1 H2 E. unfold round_half_even.
  pose proof (Z.div_mod n1 d1 ltac:(lia)) as D1.
  pose proof (Z.div_mod n2 d2 ltac:(lia)) as D2.
  pose proof (Z.mod_pos_bound n1 d1 H1) as B1.
  pose proof (Z.mod_pos_bound n2 d2 H2) as B2.
  assert (Q : n1 / d1 = n2 / d2).
  { symmetry.
    apply (Z.div_unique n1 d1 (n2 / d2) ((n1 - d1 * (n2 / d2)))); [|lia].
    left. split; nia. }
  rewrite <- Q in *.
  assert (R : (n1 mod d1) * d2 = (n2 mod d2) * d1) by nia.
  set (q := n1 / d1) in *. set (r1 := n1 mod d1) in *. set (r2 := n2 mod d2) in *.
  assert (C1 : (2 * r1 <? d1) = (2 * r2 <? d2)).
  { destruct (2 * r1 <? d1) eqn:A, (2 * r2 <? d2) eqn:B; try reflexivity;
      rewrite ?Z.ltb_lt, ?Z.ltb_ge in *; nia. }
  assert (C2 : (d1 <? 2 * r1) = (d2 <? 2 * r2)).
  { destruct (d1 <? 2 * r1) eqn:A, (d2 <? 2 * r2) eqn:B; try reflexivity;
      rewrite ?Z.ltb_lt, ?Z.ltb_ge in *; nia. }
  rewrite C1, C2. reflexivity.
Qed.
End Rounding.

Lemma rn_proper (x y : Q) : (x == y)%Q -> rn x = rn y.
Proof.
  intros E. unfold rn. f_equal. unfold Qeq in E.
  apply round_half_even_proper; lia.
Qed.

(** Multiples of 10^-5 are fixed points, up to the way they are written. *)
Lemma rn_grid (k : Z) (x : Q) : (x == k # 100000)%Q -> rn x = k # 100000.
Proof.
  intros E. rewrite (rn_proper _ _ E). unfold rn. simpl. f_equal.
  apply round_half_even_exact. lia.
Qed.

Lemma rn_minus_grid (x y : Q) : (rn (rn x - rn y) == rn x - rn y)%Q.
Proof.
  rewrite (rn_grid (Qnum (rn x) - Qnum (rn y))).
  - unfold rn, Qminus, Qplus, Qopp, Qeq. simpl. lia.
  - unfold rn, Qminus, Qplus, Qopp, Qeq. simpl. lia.
Qed.



Lemma round_half_even_error (n d : Z) :
  (0 < d)%Z -> (2 * Z.abs (round_half_even n d * d - n) <= d)%Z.
Proof.
  intros Hd. unfold round_half_even.
  pose proof (Z.div_mod n d ltac:(lia)) as D.
  pose proof (Z.mod_pos_bound n d Hd) as B.
  set (q := (n / d)%Z) in *. set (r := (n mod d)%Z) in *.
  destruct (2 * r <? d)%Z eqn:A; [apply Z.ltb_lt in A; nia |].
  apply Z.ltb_ge in A.
  destruct (d <? 2 * r)%Z eqn:C; [apply Z.ltb_lt in C; nia |].
  apply Z.ltb_ge in C.
  destruct (Z.even q); nia.
Qed.

(** ** Binary64 rounding *)

Lemma pow2_pos (e : Z) : (0 < 2 ^ e)%Q.
Proof. apply Qpower_0_lt. reflexivity. Qed.

Lemma pow2_plus (a b : Z) : (2 ^ (a + b) == 2 ^ a * 2 ^ b)%Q.
Proof. apply Qpower_plus. discriminate. Qed.

Lemma pow2_succ (e : Z) : (2 ^ (e + 1) == 2 * 2 ^ e)%Q.
Proof. rewrite pow2_plus. change (2 ^ 1)%Q with 2%Q. ring. Qed.


Lemma pow2_le (a b : Z) : (a <= b)%Z -> (2 ^ a <= 2 ^ b)%Q.
Proof. intros H. apply Qpower_le_compat_l; [exact H | discriminate]. Qed.

Lemma pow2_lt_inv (a b : Z) : (2 ^ a < 2 ^ b)%Q -> (a < b)%Z.
Proof. intros H. apply (Qpower_lt_compat_l_inv 2); [exact H | reflexivity]. Qed.

Lemma pow2_Z (n : Z) : (0 <= n)%Z -> (inject_Z (2 ^ n) == 2 ^ n)%Q.
Proof. intros H. apply (Zpower_Qpower 2 n H). Qed.

Lemma ratio_between (x d n P R E : Q) :
  (0 < R)%Q -> (x * d == n)%Q -> (P <= n)%Q -> (n < 2 * P)%Q ->
  (R <= d)%Q -> (d < 2 * R)%Q -> (E * R == P)%Q ->
  (E < 2 * x)%Q /\ (x < 2 * E)%Q.
Proof.
  intros HR X N0 N1 D0 D1 HE.
  assert (Hd : (0 < d)%Q) by lra.
  assert (HP : (0 < n)%Q).
  { destruct (Qlt_le_dec 0 n) as [H | H]; [exact H | lra]. }
  assert (Hx : (0 < x)%Q).
  { destruct (Qlt_le_dec 0 x) as [H | H]; [exact H | nra]. }
  assert (HE0 : (0 < E)%Q).
  { destruct (Qlt_le_dec 0 E) as [H | H]; [exact H | nra]. }
  split.
  - destruct (Qlt_le_dec E (2 * x)) as [H | H]; [exact H | exfalso].
    assert ((2 * x) * d <= E * d)%Q by nra.
    assert (E * d < E * (2 * R))%Q by nra. nra.
  - destruct (Qlt_le_dec x (2 * E)) as [H | H]; [exact H | exfalso].
    assert ((2 * E) * R <= x * d)%Q by nra. nra.
Qed.

Lemma binade_spec (x : Q) :
  (0 < x)%Q ->
  (2 ^ Float64.binade x <= x)%Q /\ (x < 2 ^ (Float64.binade x + 1))%Q.
Proof.
  intros Hx. destruct x as [n d].
  assert (Hn : (0 < n)%Z) by (unfold Qlt in Hx; simpl in Hx; lia).
  unfold Float64.binade. cbn [Qnum Qden].
  set (ln := Z.log2 n). set (ld := Z.log2 (Z.pos d)).
  destruct (Z.log2_spec n Hn) as [N0 N1]. fold ln in N0, N1.
  destruct (Z.log2_spec (Z.pos d) ltac:(lia)) as [D0 D1]. fold ld in D0, D1.
  assert (Ln : (0 <= ln)%Z) by apply Z.log2_nonneg.
  assert (Ld : (0 <= ld)%Z) by apply Z.log2_nonneg.
  assert (B : (2 ^ (ln - ld) < 2 * (n # d))%Q /\ (n # d < 2 * 2 ^ (ln - ld))%Q).
  { apply (ratio_between (n # d) (inject_Z (Z.pos d)) (inject_Z n)
             (2 ^ ln) (2 ^ ld) (2 ^ (ln - ld))).
    - apply pow2_pos.
    - unfold Qeq, Qmult, inject_Z. simpl. lia.
    - rewrite <- pow2_Z by exact Ln. rewrite <- Zle_Qle. exact N0.
    - rewrite <- pow2_succ, <- pow2_Z by lia. rewrite <- Zlt_Qlt.
      replace (ln + 1)%Z with (Z.succ ln) by lia. exact N1.
    - rewrite <- pow2_Z by exact Ld. rewrite <- Zle_Qle. exact D0.
    - rewrite <- pow2_succ, <- pow2_Z by lia. rewrite <- Zlt_Qlt.
      replace (ld + 1)%Z with (Z.succ ld) by lia. exact D1.
    - rewrite <- pow2_plus. replace (ln - ld + ld)%Z with ln by lia. reflexivity. }
  destruct B as [B1 B2].
  destruct (Qleb (2 ^ (ln - ld)) (n # d)) eqn:C.
  - apply Qleb_le in C. split; [exact C |]. rewrite pow2_succ. exact B2.
  - apply Qleb_nle in C. replace (ln - ld - 1 + 1)%Z with (ln - ld)%Z by lia.
    split; [| exact C].
    pose proof (pow2_succ (ln - ld - 1)) as E.
    replace (ln - ld - 1 + 1)%Z with (ln - ld)%Z in E by lia. lra.
Qed.

Lemma binade_unique (x : Q) (e : Z) :
  (2 ^ e <= x)%Q -> (x < 2 ^ (e + 1))%Q -> Float64.binade x = e.
Proof.
  intros H1 H2. pose proof (pow2_pos e) as He.
  destruct (binade_spec x ltac:(lra)) as [B1 B2].
  assert (Float64.binade x < e + 1)%Z by (apply pow2_lt_inv; lra).
  assert (e < Float64.binade x + 1)%Z by (apply pow2_lt_inv; lra).
  lia.
Qed.

Lemma binade_proper (x y : Q) :
  (0 < x)%Q -> (x == y)%Q -> Float64.binade x = Float64.binade y.
Proof.
  intros Hx E. destruct (binade_spec y ltac:(lra)) as [B1 B2].
  apply binade_unique; lra.
Qed.

Lemma binade_mono (x y : Q) :
  (0 < x)%Q -> (x <= y)%Q -> (Float64.binade x <= Float64.binade y)%Z.
Proof.
  intros Hx L. destruct (binade_spec x Hx) as [B1 _].
  destruct (binade_spec y ltac:(lra)) as [_ B2].
  assert (Float64.binade x < Float64.binade y + 1)%Z by (apply pow2_lt_inv; lra).
  lia.
Qed.

Lemma nearest_proper (x y : Q) : (x == y)%Q -> Float64.nearest x = Float64.nearest y.
Proof.
  intros E. unfold Float64.nearest. apply round_half_even_proper; try lia.
  exact E.
Qed.


Lemma nearest_lower (k : Z) (x : Q) :
  (inject_Z k <= x)%Q -> (k <= Float64.nearest x)%Z.
Proof.
  intros H. unfold Float64.nearest. apply round_half_even_lower; [lia |].
  unfold Qle in H. simpl in H. lia.
Qed.

Lemma nearest_upper (k : Z) (x : Q) :
  (x <= inject_Z k)%Q -> (Float64.nearest x <= k)%Z.
Proof.
  intros H. unfold Float64.nearest. apply round_half_even_upper; [lia |].
  unfold Qle in H. simpl in H. lia.
Qed.

Lemma nearest_error (x : Q) :
  (inject_Z (Float64.nearest x) - (1 # 2) <= x)%Q
  /\ (x <= inject_Z (Float64.nearest x) + (1 # 2))%Q.
Proof.
  pose proof (round_half_even_error (Qnum x) (QDen x) ltac:(lia)) as H.
  unfold Float64.nearest. set (R := round_half_even (Qnum x) (QDen x)) in *.
  destruct x as [n d]. simpl in *.
  unfold Qle, Qminus, Qplus, Qopp, inject_Z. simpl. lia.
Qed.

Lemma nearest_mono (x y : Q) :
  (x <= y)%Q -> (Float64.nearest x <= Float64.nearest y)%Z.
Proof.
  intros L.
  destruct (Z_le_gt_dec (Float64.nearest x) (Float64.nearest y)) as [H | H];
    [exact H | exfalso].
  destruct (nearest_error x) as [X1 _]. destruct (nearest_error y) as [_ Y2].
  assert (I : (inject_Z (Float64.nearest y) + 1 <= inject_Z (Float64.nearest x))%Q).
  { change 1%Q with (inject_Z 1). rewrite <- inject_Z_plus, <- Zle_Qle. lia. }
  assert (E : (x == y)%Q) by lra.
  apply nearest_proper in E. lia.
Qed.

(** The scaled value of a positive number lies between [2^52] and [2^53]. *)
Lemma scaled_range (x : Q) :
  (0 < x)%Q ->
  (inject_Z (2 ^ 52) <= x / 2 ^ (Float64.binade x - 52))%Q
  /\ (x / 2 ^ (Float64.binade x - 52) < inject_Z (2 ^ 53))%Q.
Proof.
  intros Hx. destruct (binade_spec x Hx) as [B1 B2].
  set (b := Float64.binade x) in *.
  pose proof (pow2_pos (b - 52)) as Hs.
  pose proof (pow2_plus (b - 52) 52) as E1.
  pose proof (pow2_plus (b - 52) 53) as E2.
  replace (b - 52 + 52)%Z with b in E1 by lia.
  replace (b - 52 + 53)%Z with (b + 1)%Z in E2 by lia.
  rewrite !pow2_Z by lia. split.
  - apply Qle_shift_div_l; [exact Hs |]. rewrite Qmult_comm, <- E1. exact B1.
  - apply Qlt_shift_div_r; [exact Hs |]. rewrite Qmult_comm, <- E2. exact B2.
Qed.

Lemma mantissa_range (x : Q) :
  (0 < x)%Q ->
  (2 ^ 52 <= Float64.nearest (x / 2 ^ (Float64.binade x - 52)) <= 2 ^ 53)%Z.
Proof.
  intros Hx. destruct (scaled_range x Hx) as [S1 S2]. split.
  - apply nearest_lower. exact S1.
  - apply nearest_upper. lra.
Qed.

Lemma fl_pos_bounds (x : Q) :
  (0 < x)%Q ->
  (2 ^ Float64.binade x <= Float64.fl_pos x)%Q
  /\ (Float64.fl_pos x <= 2 ^ (Float64.binade x + 1))%Q.
Proof.
  intros Hx. destruct (mantissa_range x Hx) as [M1 M2].
  unfold Float64.fl_pos. set (b := Float64.binade x) in *.
  set (m := Float64.nearest (x / 2 ^ (b - 52))) in *.
  pose proof (pow2_pos (b - 52)) as Hs.
  pose proof (pow2_plus (b - 52) 52) as E1.
  pose proof (pow2_plus (b - 52) 53) as E2.
  replace (b - 52 + 52)%Z with b in E1 by lia.
  replace (b - 52 + 53)%Z with (b + 1)%Z in E2 by lia.
  rewrite <- (pow2_Z 52) in E1 by lia. rewrite <- (pow2_Z 53) in E2 by lia.
  rewrite Zle_Qle in M1, M2. rewrite E1, E2. split.
  - rewrite (Qmult_comm (2 ^ (b - 52))). apply Qmult_le_compat_r; [exact M1 | lra].
  - rewrite (Qmult_comm (2 ^ (b - 52))). apply Qmult_le_compat_r; [exact M2 | lra].
Qed.

Lemma fl_pos_positive (x : Q) : (0 < x)%Q -> (0 < Float64.fl_pos x)%Q.
Proof.
  intros Hx. destruct (fl_pos_bounds x Hx) as [B _].
  pose proof (pow2_pos (Float64.binade x)). lra.
Qed.

Lemma fl_pos_proper (x y : Q) :
  (0 < x)%Q -> (x == y)%Q -> Float64.fl_pos x = Float64.fl_pos y.
Proof.
  intros Hx E. unfold Float64.fl_pos. rewrite <- (binade_proper x y Hx E).
  rewrite (nearest_proper (x / 2 ^ (Float64.binade x - 52))
             (y / 2 ^ (Float64.binade x - 52))); [reflexivity |].
  apply Qdiv_comp; [exact E | reflexivity].
Qed.

Lemma fl_pos_mono (x y : Q) :
  (0 < x)%Q -> (x <= y)%Q -> (Float64.fl_pos x <= Float64.fl_pos y)%Q.
Proof.
  intros Hx L. assert (Hy : (0 < y)%Q) by lra.
  pose proof (binade_mono x y Hx L) as B.
  destruct (Z.eq_dec (Float64.binade x) (Float64.binade y)) as [E | N].
  - unfold Float64.fl_pos. rewrite <- E.
    pose proof (pow2_pos (Float64.binade x - 52)) as Hs.
    apply Qmult_le_compat_r; [| lra]. rewrite <- Zle_Qle. apply nearest_mono.
    apply Qmult_le_compat_r; [exact L |]. apply Qlt_le_weak, Qinv_lt_0_compat, Hs.
  - destruct (fl_pos_bounds x Hx) as [_ U]. destruct (fl_pos_bounds y Hy) as [V _].
    pose proof (pow2_le (Float64.binade x + 1) (Float64.binade y) ltac:(lia)). lra.
Qed.




Lemma fl_zero (x : Q) : (x == 0)%Q -> Float64.fl x = 0%Q.
Proof.
  intros E. destruct x as [n d]. unfold Qeq in E. simpl in E.
  assert (n = 0%Z) by lia. subst n. reflexivity.
Qed.

Lemma fl_positive (x : Q) : (0 < x)%Q -> Float64.fl x = Float64.fl_pos x.
Proof.
  intros H. destruct x as [n d]. unfold Qlt in H. simpl in H.
  destruct n; try lia. reflexivity.
Qed.

Lemma fl_negative (x : Q) : (x < 0)%Q -> Float64.fl x = (- Float64.fl_pos (- x))%Q.
Proof.
  intros H. destruct x as [n d]. unfold Qlt in H. simpl in H.
  destruct n; try lia. reflexivity.
Qed.

Lemma fl_proper (x y : Q) : (x == y)%Q -> Float64.fl x = Float64.fl y.
Proof.
  intros E. destruct (Q_dec x 0) as [[H | H] | H].
  - rewrite !fl_negative by lra. f_equal. apply fl_pos_proper; lra.
  - rewrite !fl_positive by lra. apply fl_pos_proper; lra.
  - rewrite !fl_zero by lra. reflexivity.
Qed.

Lemma fl_sign_pos (x : Q) : (0 < x)%Q -> (0 < Float64.fl x)%Q.
Proof. intros H. rewrite fl_positive by exact H. apply fl_pos_positive, H. Qed.

Lemma fl_nonneg (x : Q) : (0 <= x)%Q -> (0 <= Float64.fl x)%Q.
Proof.
  intros H. destruct (Qlt_le_dec 0 x) as [P | P].
  - apply Qlt_le_weak, fl_sign_pos, P.
  - rewrite fl_zero by lra. lra.
Qed.

Lemma fl_sign_neg (x : Q) : (x < 0)%Q -> (Float64.fl x < 0)%Q.
Proof.
  intros H. rewrite fl_negative by exact H.
  pose proof (fl_pos_positive (- x) ltac:(lra)). lra.
Qed.

(** Rounding to a double keeps the order. *)
Lemma fl_mono (x y : Q) : (x <= y)%Q -> (Float64.fl x <= Float64.fl y)%Q.
Proof.
  intros L. destruct (Q_dec x 0) as [[Hx | Hx] | Hx].
  - destruct (Qlt_le_dec y 0) as [Hy | Hy].
    + rewrite !fl_negative by assumption.
      pose proof (fl_pos_mono (- y) (- x) ltac:(lra) ltac:(lra)). lra.
    + pose proof (fl_sign_neg x Hx). pose proof (fl_nonneg y Hy). lra.
  - rewrite !fl_positive by lra. apply fl_pos_mono; lra.
  - rewrite (fl_zero x Hx). apply fl_nonneg. lra.
Qed.





(** ** The monad *)

Lemma bind_ok {S A B} (m : M S A) (k : A -> M S B) s a s' :
  m s = (Ok a, s') -> bind m k s = k a s'.
Proof. intros E. unfold bind. rewrite E. reflexivity. Qed.

(** A loop whose body always succeeds and keeps an invariant keeps it. *)
Lemma for_each_inv {S A} (I : S -> Prop) (l : list A) (body : A -> M S unit) :
  (forall x s, In x l -> I s -> exists s', body x s = (Ok tt, s') /\ I s') ->
  forall s, I s -> exists s', for_each l body s = (Ok tt, s') /\ I s'.
Proof.
  induction l as [| x l IH]; intros Hb s Hs; simpl.
  - eauto.
  - destruct (Hb x s (or_introl eq_refl) Hs) as (s1 & E1 & H1).
    rewrite (bind_ok _ _ _ _ _ E1).
    apply IH; [| exact H1]. intros y s2 Hy. apply Hb. right. exact Hy.
Qed.

(** ** Construction *)



Lemma resolve_all_spec (ao : option cid) (s : State) :
  exists c s1, resolve_all ao s = (Ok c, s1) /\ heap s1 = heap s /\
    (colls s1 = colls s \/
     (ao = None /\ default_all s = None /\
      colls s1 = colls s ++ [create_all_dict])) /\
    (coll_ref_ok ao s = true -> c < length (colls s1)).
Proof.
  destruct ao as [c |]; simpl.
  - exists c, s. unfold ret. repeat split; auto. intros H. apply Nat.ltb_lt, H.
  - destruct (default_all s) as [c |] eqn:D.
    + exists c, s. repeat split; auto. intros H. apply Nat.ltb_lt, H.
    + eexists _, _. split; [reflexivity |]. simpl. repeat split; auto.
      intros _. rewrite length_app. simpl. lia.
Qed.



(** C9: when [HierObject.__init__] raises, no object has been created
    and no bucket of any collection has changed: the checks come before
    the append.  At most the empty default collection has been created. *)
Theorem HierObject_init_atomic (r : Row) (all_obj : option cid) (s : State) (e : exn) :
  fst (HierObject_init r all_obj s) = Raise e ->
  let s' := snd (HierObject_init r all_obj s) in
  heap s' = heap s /\
  (forall c image lbl, bucket s' c image lbl = bucket s c image lbl) /\
  (colls s' = colls s \/ colls s' = colls s ++ [create_all_dict]).
Proof.
  destruct (resolve_all_spec all_obj s) as (c & s1 & E & Hh & Hcs & _).
  unfold HierObject_init. rewrite (bind_ok _ _ _ _ _ E).
  assert (Hb : forall c image lbl, bucket s1 c image lbl = bucket s c image lbl).
  { intros c' image lbl. unfold bucket.
    destruct Hcs as [-> | (_ & _ & ->)]; [reflexivity |].
    destruct (decide (c' < length (colls s))) as [Hlt | Hge].
    - rewrite lookup_app_l by exact Hlt. reflexivity.
    - rewrite (lookup_ge_None_2 (colls s)) by lia.
      destruct (decide (c' = length (colls s))) as [-> | Hne].
      + rewrite list_lookup_middle by reflexivity. reflexivity.
      + rewrite lookup_ge_None_2; [reflexivity |]. rewrite length_app. simpl. lia. }
  assert (Hc' : colls s1 = colls s \/ colls s1 = colls s ++ [create_all_dict])
    by (destruct Hcs as [? | (_ & _ & ?)]; auto).
  destruct (HierObject.derive r) as [g | e'] eqn:D.
  - destruct (colls s1 !! c) as [d |] eqn:L.
    + destruct g as [[[p xc] yc] area]. simpl. discriminate.
    + simpl. auto.
  - simpl. auto.
Qed.

Lemma HierObject_init_atomic_witness :
  let s := snd (construct main_rows None empty_state) in
  let s' := snd (HierObject_init degenerate_row None s) in
  heap s' = heap s /\
  (forall c image lbl, bucket s' c image lbl = bucket s c image lbl) /\
  (colls s' = colls s \/ colls s' = colls s ++ [create_all_dict]).
Proof.
  apply (HierObject_init_atomic degenerate_row None
           (snd (construct main_rows None empty_state)) AssertionError).
  vm_compute. reflexivity.
Defined.

(** ** Geometry of constructed objects *)

Lemma geom_ok_build (r : Row) (c : cid) g (idx : nat) :
  HierObject.derive r = Ok g -> geom_ok (HierObject.build r c g idx) = true.
Proof.
  intros D. destruct g as [[[p xc] yc] area]. unfold geom_ok. simpl. rewrite D.
  rewrite !String.eqb_refl.
  repeat rewrite (proj2 (Qsame_eq _ _) eq_refl). reflexivity.
Qed.

Lemma geom_ok_geometry (o : HierObject.t) : geom_ok o = true -> geometry o.
Proof.
  unfold geom_ok, HierObject.derive, HierObject.parse.
  set (r := HierObject.obj o).
  destruct (Qltb 0 (rn (rn (XMax r) - rn (XMin r)))) eqn:W; simpl; [| discriminate].
  destruct (Qltb 0 (rn (rn (YMax r) - rn (YMin r)))) eqn:H; simpl; [| discriminate].
  match goal with |- context [if ?b then _ else _] => destruct b end;
    [discriminate |].
  rewrite !andb_true_iff, !Qsame_eq.
  intros [[[[[[[[[[_ _] X0] X1] Y0] Y1] Hw] Hh] _] _] Ha].
  apply Qltb_lt in W, H.
  split.
  - rewrite Hw, X0, X1. apply rn_minus_grid.
  - rewrite Hh, Y0, Y1. apply rn_minus_grid.
  - rewrite Hw. exact W.
  - rewrite Hh. exact H.
  - rewrite Ha, Hw, Hh. reflexivity.
Qed.

Lemma has_intersection_iff (o1 o2 : HierObject.t) :
  HierObject.has_intersection o1 o2 = true <->
  (0 < overlap_w o1 o2)%Q /\ (0 < overlap_h o1 o2)%Q.
Proof.
  unfold HierObject.has_intersection. fold (overlap_w o1 o2) (overlap_h o1 o2).
  rewrite andb_true_iff, !Qltb_lt. reflexivity.
Qed.

Lemma intersection_area_pos (o1 o2 : HierObject.t) :
  HierObject.has_intersection o1 o2 = true ->
  HierObject.intersection_area o1 o2 = (overlap_w o1 o2 * overlap_h o1 o2)%Q.
Proof.
  intros H. apply has_intersection_iff in H as [W Hh].
  unfold HierObject.intersection_area. fold (overlap_w o1 o2) (overlap_h o1 o2).
  assert (A : Qleb (overlap_w o1 o2) 0 = false) by (apply Qleb_nle; exact W).
  assert (B : Qleb (overlap_h o1 o2) 0 = false) by (apply Qleb_nle; exact Hh).
  rewrite A, B. reflexivity.
Qed.

Lemma overlap_w_le (o1 o2 : HierObject.t) :
  geometry o1 -> geometry o2 ->
  (overlap_w o1 o2 <= HierObject.w o1)%Q /\ (overlap_w o1 o2 <= HierObject.w o2)%Q.
Proof.
  intros [W1 _ _ _ _] [W2 _ _ _ _]. unfold overlap_w.
  pose proof (pymin_le_l (HierObject.x1 o1) (HierObject.x1 o2)).
  pose proof (pymin_le_r (HierObject.x1 o1) (HierObject.x1 o2)).
  pose proof (pymax_ge_l (HierObject.x0 o1) (HierObject.x0 o2)).
  pose proof (pymax_ge_r (HierObject.x0 o1) (HierObject.x0 o2)).
  split; lra.
Qed.

Lemma overlap_h_le (o1 o2 : HierObject.t) :
  geometry o1 -> geometry o2 ->
  (overlap_h o1 o2 <= HierObject.h o1)%Q /\ (overlap_h o1 o2 <= HierObject.h o2)%Q.
Proof.
  intros [_ H1 _ _ _] [_ H2 _ _ _]. unfold overlap_h.
  pose proof (pymin_le_l (HierObject.y1 o1) (HierObject.y1 o2)).
  pose proof (pymin_le_r (HierObject.y1 o1) (HierObject.y1 o2)).
  pose proof (pymax_ge_l (HierObject.y0 o1) (HierObject.y0 o2)).
  pose proof (pymax_ge_r (HierObject.y0 o1) (HierObject.y0 o2)).
  split; lra.
Qed.

(** The intersection of two constructed, intersecting rectangles is
    positive and no larger than either of them. *)
Lemma intersection_area_bounds (o1 o2 : HierObject.t) :
  geometry o1 -> geometry o2 ->
  HierObject.has_intersection o1 o2 = true ->
  let i := HierObject.intersection_area o1 o2 in
  (0 < i)%Q /\ (i <= HierObject.area o1)%Q /\ (i <= HierObject.area o2)%Q
  /\ (0 < HierObject.area o1)%Q /\ (0 < HierObject.area o2)%Q.
Proof.
  intros G1 G2 H. simpl. rewrite (intersection_area_pos _ _ H).
  apply has_intersection_iff in H as [W Hh].
  destruct (overlap_w_le o1 o2 G1 G2) as [Wa Wb].
  destruct (overlap_h_le o1 o2 G1 G2) as [Ha Hb].
  destruct G1 as [_ _ P1 P2 ->], G2 as [_ _ P3 P4 ->].
  repeat split; nra.
Qed.


(** ** [compare] *)

Lemma get_obj_ok (h : list HierObject.t) a o :
  h !! a = Some o -> get_obj a h = (Ok o, h).
Proof. intros E. unfold get_obj. rewrite E. reflexivity. Qed.

Lemma modify_ok (h : list HierObject.t) a o f :
  h !! a = Some o -> modify a f h = (Ok tt, <[a := f o]> h).
Proof. intros E. unfold modify. rewrite E. reflexivity. Qed.

Lemma append_overlap_ok (h : list HierObject.t) a o lbl f :
  h !! a = Some o -> is_Some (HierObject.overlap o) ->
  append_overlap a lbl f h = (Ok tt, <[a := add_fact lbl f o]> h).
Proof.
  intros E [d Hd]. unfold append_overlap.
  rewrite (bind_ok _ _ _ _ _ (get_obj_ok _ _ _ E)). rewrite Hd.
  rewrite (modify_ok _ _ _ _ E). unfold add_fact. rewrite Hd. reflexivity.
Qed.

Lemma pydiv_ok {S} (a b : Q) (s : S) :
  ~ (b == 0)%Q -> pydiv a b s = (Ok (a / b)%Q, s).
Proof.
  intros H. unfold pydiv. destruct (Qeq_bool b 0) eqn:E.
  - apply Qeq_bool_iff in E. contradiction.
  - reflexivity.
Qed.

(** What [compare] does to two distinct constructed objects that intersect. *)
Lemma compare_intersecting (h : list HierObject.t) a1 a2 o1 o2 :
  h !! a1 = Some o1 -> h !! a2 = Some o2 -> a1 <> a2 ->
  geom_ok o1 = true -> geom_ok o2 = true ->
  is_Some (HierObject.overlap o1) -> is_Some (HierObject.overlap o2) ->
  HierObject.has_intersection o1 o2 = true ->
  compare a1 a2 h =
  (Ok tt, <[a2 := add_fact (HierObject.label o1) (fact2 o1 o2 a1) o2]>
            (<[a1 := add_fact (HierObject.label o2) (fact1 o1 o2 a2) o1]> h)).
Proof.
  intros E1 E2 Hne G1 G2 O1 O2 Hi.
  destruct (intersection_area_bounds o1 o2 (geom_ok_geometry _ G1)
              (geom_ok_geometry _ G2) Hi) as (Ip & I1 & I2 & A1 & A2).
  unfold compare.
  rewrite (bind_ok _ _ _ _ _ (get_obj_ok _ _ _ E1)).
  rewrite (bind_ok _ _ _ _ _ (get_obj_ok _ _ _ E2)).
  rewrite Hi.
  assert (Hu : ~ (HierObject.area o1 + HierObject.area o2
                   - HierObject.intersection_area o1 o2 == 0)%Q) by lra.
  rewrite (bind_ok _ _ _ _ _ (pydiv_ok _ _ _ Hu)).
  assert (Hm : ~ (pymin (HierObject.area o1) (HierObject.area o2) == 0)%Q).
  { destruct (pymin_cases (HierObject.area o1) (HierObject.area o2)) as [-> | ->]; lra. }
  rewrite (bind_ok _ _ _ _ _ (pydiv_ok _ _ _ Hm)).
  rewrite (bind_ok _ _ _ _ _ (append_overlap_ok _ _ _ _ _ E1 O1)).
  apply append_overlap_ok; [| exact O2].
  rewrite list_lookup_insert_ne by exact Hne. exact E2.
Qed.

(** C7: when the overlap width or the overlap height of two objects is
    not strictly positive, [compare] records nothing: the heap, and so
    the overlap lists of both objects, is unchanged. *)
Theorem compare_no_intersection (h : list HierObject.t) a1 a2 o1 o2 :
  h !! a1 = Some o1 -> h !! a2 = Some o2 ->
  (overlap_w o1 o2 <= 0)%Q \/ (overlap_h o1 o2 <= 0)%Q ->
  HierObject.has_intersection o1 o2 = false /\
  compare a1 a2 h = (Ok tt, h).
Proof.
  intros E1 E2 H.
  assert (Hi : HierObject.has_intersection o1 o2 = false).
  { destruct (HierObject.has_intersection o1 o2) eqn:Hi; [| reflexivity].
    apply has_intersection_iff in Hi. destruct H; lra. }
  split; [exact Hi |].
  unfold compare.
  rewrite (bind_ok _ _ _ _ _ (get_obj_ok _ _ _ E1)).
  rewrite (bind_ok _ _ _ _ _ (get_obj_ok _ _ _ E2)).
  rewrite Hi. reflexivity.
Qed.

(** ** [compare] in binary64 *)







(** ** Dictionaries *)

Lemma dget_dset_eq {V} (k : string) (v : V) (d : list (string * V)) :
  dget k (dset k v d) = Some v.
Proof.
  induction d as [| [k' v'] d IH]; simpl.
  - rewrite String.eqb_refl. reflexivity.
  - destruct (String.eqb k k') eqn:E; simpl; rewrite E; auto.
Qed.

Lemma dget_dset_ne {V} (k k' : string) (v : V) (d : list (string * V)) :
  k <> k' -> dget k' (dset k v d) = dget k' d.
Proof.
  intros Hne. induction d as [| [k0 v0] d IH]; simpl.
  - destruct (String.eqb k' k) eqn:E; [apply String.eqb_eq in E; congruence | reflexivity].
  - destruct (String.eqb k k0) eqn:E; simpl.
    + apply String.eqb_eq in E. subst k0.
      destruct (String.eqb k' k) eqn:E'; [apply String.eqb_eq in E'; congruence | reflexivity].
    + rewrite IH. reflexivity.
Qed.

Lemma dget_list_dappend {V} (k l : string) (x : V) (d : list (string * list V)) :
  dget_list l (dappend k x d) =
  if String.eqb k l then dget_list l d ++ [x] else dget_list l d.
Proof.
  unfold dappend, dget_list at 1.
  destruct (String.eqb k l) eqn:E.
  - apply String.eqb_eq in E. subst l. rewrite dget_dset_eq. reflexivity.
  - apply String.eqb_neq in E. rewrite dget_dset_ne by exact E. reflexivity.
Qed.

Lemma dget_In {V} (k : string) (v : V) (d : list (string * V)) :
  dget k d = Some v -> (k, v) ∈ d.
Proof.
  induction d as [| [k' v'] d IH]; simpl; [discriminate |].
  destruct (String.eqb k k') eqn:E.
  - apply String.eqb_eq in E. intros [= ->]. subst. left.
  - intros H. right. auto.
Qed.

Lemma In_dget {V} (k : string) (v : V) (d : list (string * V)) :
  NoDup (dkeys d) -> (k, v) ∈ d -> dget k d = Some v.
Proof.
  induction d as [| [k' v'] d IH]; simpl; intros ND H.
  - inversion H.
  - apply NoDup_cons in ND as [Hk ND].
    apply elem_of_cons in H as [[= -> ->] | H].
    + rewrite String.eqb_refl. reflexivity.
    + destruct (String.eqb k k') eqn:E; [| auto].
      apply String.eqb_eq in E. subst k'. exfalso. apply Hk.
      unfold dkeys. apply list_elem_of_fmap. exists (k, v). auto.
Qed.

(** ** What the passes leave alone *)

Ltac static_inj H :=
  match type of H with
  | static ?o = static ?o' =>
      destruct o, o'; unfold static in H; simpl in H;
      injection H as; subst; simpl in *
  end.

Lemma static_label o o' : static o = static o' -> HierObject.label o = HierObject.label o'.
Proof. intros H. static_inj H. reflexivity. Qed.

Lemma static_imageID o o' :
  static o = static o' -> HierObject.imageID o = HierObject.imageID o'.
Proof. intros H. static_inj H. reflexivity. Qed.

Lemma static_index o o' : static o = static o' -> HierObject.index o = HierObject.index o'.
Proof. intros H. static_inj H. reflexivity. Qed.

Lemma static_geom_ok o o' : static o = static o' -> geom_ok o = geom_ok o'.
Proof. intros H. static_inj H. reflexivity. Qed.

Lemma static_has_intersection o1 o1' o2 o2' :
  static o1 = static o1' -> static o2 = static o2' ->
  HierObject.has_intersection o1 o2 = HierObject.has_intersection o1' o2'.
Proof. intros H1 H2. static_inj H1. static_inj H2. reflexivity. Qed.

Lemma static_fact1 o1 o1' o2 o2' a :
  static o1 = static o1' -> static o2 = static o2' ->
  fact1 o1 o2 a = fact1 o1' o2' a.
Proof. intros H1 H2. static_inj H1. static_inj H2. reflexivity. Qed.

Lemma static_fact2 o1 o1' o2 o2' a :
  static o1 = static o1' -> static o2 = static o2' ->
  fact2 o1 o2 a = fact2 o1' o2' a.
Proof. intros H1 H2. static_inj H1. static_inj H2. reflexivity. Qed.

(** ** Well-formed collections *)

Lemma forallb_elem_of {A} (f : A -> bool) (l : list A) :
  forallb f l = true <-> forall x, x ∈ l -> f x = true.
Proof.
  rewrite forallb_forall. split; intros H x Hx; apply H;
    [apply list_elem_of_In | apply list_elem_of_In]; exact Hx.
Qed.

Lemma wf_coll_WF all_obj h : wf_coll all_obj h = true <-> WF all_obj h.
Proof.
  unfold wf_coll. rewrite andb_true_iff, bool_decide_eq_true, forallb_elem_of.
  split.
  - intros [ND H]. split; [exact ND | |].
    + intros image od Hin. specialize (H _ Hin). unfold image_ok in H. simpl in H.
      apply andb_true_iff in H as [H _]. apply bool_decide_eq_true in H. exact H.
    + intros image od lbl l i a Hin Hl Hi. specialize (H _ Hin).
      unfold image_ok in H. simpl in H. apply andb_true_iff in H as [_ H].
      rewrite forallb_elem_of in H. specialize (H _ Hl). unfold bucket_ok in H.
      simpl in H. rewrite forallb_elem_of in H.
      specialize (H (i, a)). simpl in H. unfold entry_ok in H.
      destruct (h !! a) as [o |].
      * exists o. rewrite !andb_true_iff, !String.eqb_eq, Nat.eqb_eq in H.
        destruct H as [[[? ?] ?] ?]; [| auto].
        apply list_elem_of_lookup. exists i. rewrite list_lookup_imap, Hi. reflexivity.
      * discriminate H. apply list_elem_of_lookup. exists i.
        rewrite list_lookup_imap, Hi. reflexivity.
  - intros [ND HL HE]. split; [exact ND |].
    intros [image od] Hin. unfold image_ok. simpl.
    apply andb_true_iff. split; [apply bool_decide_eq_true; eauto |].
    apply forallb_elem_of. intros [lbl l] Hl. unfold bucket_ok. simpl.
    apply forallb_elem_of. intros [i a] Hia. simpl.
    apply list_elem_of_lookup in Hia as [j Hj].
    rewrite list_lookup_imap in Hj.
    destruct (l !! j) as [a' |] eqn:Ej; simpl in Hj; [| discriminate].
    injection Hj as <- <-.
    destruct (HE _ _ _ _ _ _ Hin Hl Ej) as (o & Ho & H1 & H2 & H3 & H4).
    unfold entry_ok. rewrite Ho, H1, H2, H3, H4, !String.eqb_refl, Nat.eqb_refl.
    reflexivity.
Qed.

(** Well-formedness looks at the construction-time members only. *)
Lemma WF_static all_obj (h h' : list HierObject.t) :
  static <$> h' = static <$> h -> WF all_obj h -> WF all_obj h'.
Proof.
  intros E [ND HL HE]. split; auto.
  intros image od lbl l i a Hin Hl Hi.
  destruct (HE _ _ _ _ _ _ Hin Hl Hi) as (o & Ho & H1 & H2 & H3 & H4).
  assert (Hs : (static <$> h') !! a = Some (static o))
    by (rewrite E, list_lookup_fmap, Ho; reflexivity).
  rewrite list_lookup_fmap in Hs.
  destruct (h' !! a) as [o' |]; simpl in Hs; [| discriminate].
  apply (inj Some) in Hs. exists o'. split; [reflexivity |].
  rewrite (static_imageID _ _ Hs), (static_label _ _ Hs), (static_index _ _ Hs),
    (static_geom_ok _ _ Hs). auto.
Qed.

Lemma elem_of_concat {A} (x : A) (ls : list (list A)) :
  x ∈ concat ls <-> exists l, x ∈ l /\ l ∈ ls.
Proof.
  rewrite list_elem_of_In, in_concat. split.
  - intros (l & H1 & H2). exists l. rewrite !list_elem_of_In. auto.
  - intros (l & H1 & H2). exists l. rewrite <- !list_elem_of_In. auto.
Qed.

Lemma elem_of_image_addrs (od : list (string * list nat)) a :
  a ∈ image_addrs od <-> exists lbl l i, (lbl, l) ∈ od /\ l !! i = Some a.
Proof.
  unfold image_addrs, dvalues. rewrite elem_of_concat. split.
  - intros (l & Ha & Hl). apply list_elem_of_fmap in Hl as ([lbl l'] & -> & Hl).
    apply list_elem_of_lookup in Ha as [i Hi]. eauto.
  - intros (lbl & l & i & Hl & Hi). exists l. split.
    + apply list_elem_of_lookup. eauto.
    + apply list_elem_of_fmap. exists (lbl, l). auto.
Qed.

Lemma elem_of_all_addrs (all_obj : list (string * list (string * list nat))) a :
  a ∈ all_addrs all_obj <-> exists image od, (image, od) ∈ all_obj /\ a ∈ image_addrs od.
Proof.
  unfold all_addrs, dvalues. rewrite elem_of_concat. split.
  - intros (l & Ha & Hl). apply list_elem_of_fmap in Hl as (od & -> & Hl).
    apply list_elem_of_fmap in Hl as ([image od'] & -> & Hl). eauto.
  - intros (image & od & Hin & Ha). exists (image_addrs od). split; [exact Ha |].
    apply list_elem_of_fmap. exists od. split; [reflexivity |].
    apply list_elem_of_fmap. exists (image, od). auto.
Qed.

(** Every object of a well-formed image, with its bucket. *)
Lemma WF_image_obj all_obj h image od a :
  WF all_obj h -> (image, od) ∈ all_obj -> a ∈ image_addrs od ->
  exists o, h !! a = Some o /\ HierObject.imageID o = image /\ geom_ok o = true
            /\ exists l, dget (HierObject.label o) od = Some l
                         /\ l !! HierObject.index o = Some a.
Proof.
  intros W Hin Ha. apply elem_of_image_addrs in Ha as (lbl & l & i & Hl & Hi).
  destruct (wf_entry _ _ W _ _ _ _ _ _ Hin Hl Hi) as (o & Ho & H1 & H2 & H3 & H4).
  exists o. repeat split; auto. exists l. subst. split; [| exact Hi].
  apply In_dget; [eapply wf_labels; eauto | exact Hl].
Qed.

(** ** Loops over disjoint groups of objects *)

Section Regions.
Context {X : Type}.
Variable fp : X -> list nat.
Variable G : list HierObject.t -> Prop.
Variable T : X -> nat -> HierObject.t -> HierObject.t -> Prop.
Variable body : X -> M (list HierObject.t) unit.

Lemma for_each_regions (l : list X) :
  NoDup (concat (map fp l)) ->
  (forall x, x ∈ l -> round_ok fp G T body x) ->
  forall h, G h ->
    exists h', for_each l body h = (Ok tt, h') /\ G h'
      /\ (forall a, a ∉ concat (map fp l) -> h' !! a = h !! a)
      /\ (forall x a o, x ∈ l -> a ∈ fp x -> h !! a = Some o ->
            exists o', h' !! a = Some o' /\ T x a o o').
Proof.
  induction l as [| x l IH]; intros ND Hb h Hg; simpl.
  - exists h. repeat split; auto. intros x a o Hx. inversion Hx.
  - simpl in ND. apply NoDup_app in ND as (NDx & Hdisj & NDl).
    destruct (Hb x ltac:(left) h Hg) as (h1 & E1 & G1 & F1 & T1).
    rewrite (bind_ok _ _ _ _ _ E1).
    destruct (IH NDl (fun y Hy => Hb y ltac:(right; exact Hy)) h1 G1)
      as (h' & E' & G' & F' & T').
    exists h'. split; [exact E' |]. split; [exact G' |]. split.
    + intros a Ha. rewrite elem_of_app in Ha.
      rewrite F' by tauto. apply F1. tauto.
    + intros y a o Hy Ha Ho.
      assert (Hin : forall z, z ∈ l -> a ∈ fp z -> a ∈ concat (map fp l)).
      { intros z Hz Hz'. apply elem_of_concat. exists (fp z). split; [exact Hz' |].
        apply list_elem_of_fmap. eauto. }
      apply elem_of_cons in Hy as [-> | Hy].
      * destruct (T1 a o Ha Ho) as (o' & Ho' & Ht).
        exists o'. split; [| exact Ht]. rewrite F'; [exact Ho' |]. auto.
      * apply T'; [exact Hy | exact Ha |]. rewrite F1; [exact Ho |].
        intros Hx. exact (Hdisj a Hx (Hin y Hy Ha)).
Qed.
End Regions.

Lemma NoDup_concat_elem {A} (ls : list (list A)) (l : list A) :
  NoDup (concat ls) -> l ∈ ls -> NoDup l.
Proof.
  induction ls as [| l' ls IH]; simpl; intros ND H; [inversion H |].
  apply NoDup_app in ND as (H1 & _ & H2).
  apply elem_of_cons in H as [-> | H]; auto.
Qed.

Lemma concat_singletons {A} (l : list A) : concat (map (fun a => [a]) l) = l.
Proof. induction l; simpl; congruence. Qed.

Lemma WF_image_nodup all_obj h image od :
  WF all_obj h -> (image, od) ∈ all_obj -> NoDup (image_addrs od).
Proof.
  intros W Hin. eapply NoDup_concat_elem; [apply (wf_nodup _ _ W) |].
  unfold dvalues. apply list_elem_of_fmap. exists od. split; [reflexivity |].
  apply list_elem_of_fmap. exists (image, od). auto.
Qed.

(** Loops bucket by bucket and object by object whose body works on
    its object alone. *)
Section PerObject.
Variable G : list HierObject.t -> Prop.
Variable T : nat -> HierObject.t -> HierObject.t -> Prop.
Variable body : nat -> M (list HierObject.t) unit.

Lemma per_bucket_loop (l : list nat) :
  NoDup l ->
  (forall a, a ∈ l -> round_ok (fun a => [a]) G (fun _ => T) body a) ->
  round_ok (fun l : list nat => l) G (fun _ => T) (fun l => for_each l body) l.
Proof.
  intros ND Hb h Hg. rewrite <- (concat_singletons l) in ND.
  destruct (for_each_regions (fun a => [a]) G (fun _ => T) body l ND Hb h Hg)
    as (h' & E & G' & F' & T').
  rewrite concat_singletons in F'.
  exists h'. repeat split; auto.
  intros a o Ha Ho. apply (T' a a o Ha); [left | exact Ho].
Qed.

Lemma per_image_loop (od : list (string * list nat)) :
  NoDup (image_addrs od) ->
  (forall a, a ∈ image_addrs od ->
             round_ok (fun a => [a]) G (fun _ => T) body a) ->
  round_ok image_addrs G (fun _ => T)
    (fun od => for_each (dvalues od) (fun l => for_each l body)) od.
Proof.
  intros ND Hb h Hg. unfold image_addrs in *.
  pose proof (for_each_regions (fun l : list nat => l) G (fun _ => T)
                (fun object_list => for_each object_list body) (dvalues od)) as R.
  rewrite map_id in R.
  destruct R with (h := h) as (h' & E & G' & F' & T'); [exact ND | | exact Hg |].
  - intros l Hl. apply per_bucket_loop.
    + eapply NoDup_concat_elem; [exact ND | exact Hl].
    + intros a Ha. apply Hb. apply elem_of_concat. eauto.
  - exists h'. repeat split; auto.
    intros a o Ha Ho. apply elem_of_concat in Ha as (l & Ha & Hl). eauto.
Qed.

Lemma per_object_loop (all_obj : list (string * list (string * list nat)))
    (h : list HierObject.t) :
  NoDup (all_addrs all_obj) ->
  (forall a, a ∈ all_addrs all_obj ->
             round_ok (fun a => [a]) G (fun _ => T) body a) ->
  G h ->
  exists h',
    for_each (dvalues all_obj) (fun object_dict =>
      for_each (dvalues object_dict) (fun object_list =>
        for_each object_list body)) h = (Ok tt, h')
    /\ G h'
    /\ (forall a, a ∉ all_addrs all_obj -> h' !! a = h !! a)
    /\ (forall a o, a ∈ all_addrs all_obj -> h !! a = Some o ->
          exists o', h' !! a = Some o' /\ T a o o').
Proof.
  intros ND Hb Hg.
  destruct (for_each_regions image_addrs G (fun _ => T)
              (fun od => for_each (dvalues od) (fun l => for_each l body))
              (dvalues all_obj) ND) with (h := h) as (h' & E & G' & F' & T');
    [| exact Hg |].
  - intros od Hod. apply per_image_loop.
    + eapply NoDup_concat_elem; [exact ND |]. apply list_elem_of_fmap. eauto.
    + intros a Ha. apply Hb. unfold all_addrs. apply elem_of_concat.
      exists (image_addrs od). split; [exact Ha |]. apply list_elem_of_fmap. eauto.
  - exists h'. repeat split; auto.
    intros a o Ha Ho. apply elem_of_concat in Ha as (l & Ha & Hl).
    apply list_elem_of_fmap in Hl as (od & -> & Hod). eauto.
Qed.
End PerObject.

(** An attribute assignment as a round on the single object [a]. *)
Lemma modify_round (G : list HierObject.t -> Prop)
    (T : nat -> HierObject.t -> HierObject.t -> Prop)
    (f : HierObject.t -> HierObject.t) (a : nat) :
  (forall h o, G h -> h !! a = Some o -> G (<[a := f o]> h) /\ T a o (f o)) ->
  (forall h, G h -> is_Some (h !! a)) ->
  round_ok (fun a => [a]) G (fun _ => T) (fun a => modify a f) a.
Proof.
  intros Hf Hv h Hg. destruct (Hv h Hg) as [o Ho].
  destruct (Hf h o Hg Ho) as [G' T'].
  exists (<[a := f o]> h). rewrite (modify_ok _ _ _ _ Ho).
  split; [reflexivity |]. split; [exact G' |]. split.
  - intros b Hb. apply list_lookup_insert_ne. intros ->. apply Hb. left.
  - intros b o0 Hb Ho0. apply list_elem_of_singleton in Hb. subst b.
    rewrite Ho in Ho0. injection Ho0 as <-. exists (f o). split; [| exact T'].
    apply list_lookup_insert_eq. eapply lookup_lt_Some; eauto.
Qed.

(** ** [find_duplicates] *)

Lemma populated_spec all_obj h :
  populated all_obj h = true <->
  forall a, a ∈ all_addrs all_obj ->
    exists o, h !! a = Some o /\ is_Some (HierObject.overlap o).
Proof.
  unfold populated. rewrite forallb_elem_of. split; intros H a Ha; specialize (H a Ha).
  - destruct (h !! a) as [o |]; [| discriminate]. exists o. split; [reflexivity |].
    destruct (HierObject.overlap o); [eauto | discriminate].
  - destruct H as (o & -> & [ov ->]). reflexivity.
Qed.

Lemma redundant_and_not_last_ok (o : HierObject.t) :
  is_Some (HierObject.overlap o) ->
  HierObject.redundant_and_not_last threshold_default o = Ok (dup_flag o).
Proof.
  intros [ov Hov]. unfold HierObject.redundant_and_not_last, dup_flag, facts_under.
  rewrite Hov. simpl. unfold dget_list.
  destruct (dget (HierObject.label o) ov) as [[| f fs] |]; reflexivity.
Qed.


Lemma find_duplicates_spec all_obj (h : list HierObject.t) :
  NoDup (all_addrs all_obj) -> populated all_obj h = true ->
  exists h',
    find_duplicates all_obj h = (Ok tt, h')
    /\ (forall a, a ∉ all_addrs all_obj -> h' !! a = h !! a)
    /\ (forall a o, a ∈ all_addrs all_obj -> h !! a = Some o ->
          h' !! a = Some (HierObject.set_duplicate (Some (dup_flag o)) o)).
Proof.
  intros ND P.
  set (G := fun h : list HierObject.t => populated all_obj h = true).
  set (T := fun (_ : nat) o o' =>
              o' = HierObject.set_duplicate (Some (dup_flag o)) o).
  destruct (per_object_loop G T
              (fun obj =>
                 o <- get_obj obj ;;
                 match HierObject.redundant_and_not_last threshold_default o with
                 | Raise e => raise e
                 | Ok b => modify obj (HierObject.set_duplicate (Some b))
                 end) all_obj h ND) as (h' & E & _ & F & Ht).
  - intros a Ha h1 G1.
    destruct (proj1 (populated_spec _ _) G1 a Ha) as (o & Ho & Hov).
    rewrite (bind_ok _ _ _ _ _ (get_obj_ok _ _ _ Ho)).
    rewrite (redundant_and_not_last_ok o Hov).
    rewrite (modify_ok _ _ _ _ Ho). eexists. split; [reflexivity |].
    split; [| split].
    + apply populated_spec. intros b Hb.
      destruct (proj1 (populated_spec _ _) G1 b Hb) as (ob & Hob & Hovb).
      destruct (decide (a = b)) as [<- | Hne].
      * rewrite list_lookup_insert_eq by (eapply lookup_lt_Some; eauto).
        eexists. split; [reflexivity |]. exact Hov.
      * rewrite list_lookup_insert_ne by exact Hne. eauto.
    + intros b Hb. apply list_lookup_insert_ne. intros ->. apply Hb. left.
    + intros b o0 Hb Ho0. apply list_elem_of_singleton in Hb. subst b.
      rewrite Ho in Ho0. injection Ho0 as <-. eexists. split; [| reflexivity].
      apply list_lookup_insert_eq. eapply lookup_lt_Some; eauto.
  - exact P.
  - exists h'. split; [exact E |]. split; [exact F |].
    intros a o Ha Ho. destruct (Ht a o Ha Ho) as (o' & Ho' & ->). exact Ho'.
Qed.

(** ** [find_overlapping_objects] *)

Lemma pair_body_run (flat : list nat) i j x y h :
  flat !! i = Some x -> flat !! j = Some y ->
  pair_body flat i j h = compare x y h.
Proof.
  intros Hi Hj. unfold pair_body, list_index. rewrite Hi, Hj. reflexivity.
Qed.

Lemma inner_loop_eq (r2 r1 pre : list nat) (x : nat) h :
  for_each (seq (length pre + 1 + length r1) (length r2))
    (pair_body (pre ++ x :: r1 ++ r2) (length pre)) h
  = for_each r2 (compare x) h.
Proof.
  revert r1 h. induction r2 as [| y r2 IH]; intros r1 h; [reflexivity |].
  cbn [seq length for_each]. unfold bind.
  rewrite (pair_body_run _ _ _ x y).
  - destruct (compare x y h) as [[[] | e] h1]; [| reflexivity].
    specialize (IH (r1 ++ [y]) h1).
    rewrite length_app in IH. simpl in IH.
    replace (length pre + 1 + (length r1 + 1)) with (S (length pre + 1 + length r1))
      in IH by lia.
    rewrite <- app_assoc in IH. simpl in IH. exact IH.
  - apply list_lookup_middle. reflexivity.
  - rewrite lookup_app_r by lia.
    replace (length pre + 1 + length r1 - length pre) with (S (length r1)) by lia.
    simpl. apply list_lookup_middle. reflexivity.
Qed.

Lemma pair_loop_eq (suf pre : list nat) h :
  for_each (seq (length pre) (length suf - 1)) (fun idx1 =>
    for_each (seq (idx1 + 1) (length (pre ++ suf) - (idx1 + 1)))
      (pair_body (pre ++ suf) idx1)) h
  = compare_all suf h.
Proof.
  revert pre h. induction suf as [| x rest IH]; intros pre h; [reflexivity |].
  destruct rest as [| y rest'] eqn:Er.
  - reflexivity.
  - rewrite <- Er in *.
    replace (length (x :: rest) - 1) with (S (length rest - 1))
      by (subst rest; simpl; lia).
    cbn [seq for_each compare_all].
    replace (length (pre ++ x :: rest) - (length pre + 1)) with (length rest)
      by (rewrite length_app; simpl; lia).
    pose proof (inner_loop_eq rest [] pre x h) as E. cbn [length app] in E.
    replace (length pre + 1 + 0) with (length pre + 1) in E by lia.
    unfold bind. rewrite E.
    destruct (for_each rest (compare x) h) as [[[] | e] h1]; [| reflexivity].
    specialize (IH (pre ++ [x]) h1). rewrite length_app in IH. simpl in IH.
    replace (length pre + 1) with (S (length pre)) in IH by lia.
    rewrite <- app_assoc in IH. simpl in IH. exact IH.
Qed.

Lemma find_overlapping_image_eq (object_dict : list (string * list nat)) h :
  find_overlapping_image object_dict h =
  (for_each (dvalues object_dict) (fun object_list =>
     for_each object_list (fun obj =>
       modify obj (HierObject.set_overlap (Some [])))) ;;;
   compare_all (image_addrs object_dict)) h.
Proof.
  unfold find_overlapping_image, bind.
  destruct (for_each (dvalues object_dict) _ h) as [[[] | e] h1]; [| reflexivity].
  apply (pair_loop_eq (image_addrs object_dict) [] h1).
Qed.

Lemma sameS_refl h : sameS h h.
Proof. intros a. reflexivity. Qed.

Lemma sameS_trans h1 h2 h3 : sameS h1 h2 -> sameS h2 h3 -> sameS h1 h3.
Proof. intros H1 H2 a. rewrite H2. apply H1. Qed.

Lemma sameS_fmap h h' : sameS h h' <-> static <$> h' = static <$> h.
Proof.
  split.
  - intros H. apply list_eq. intros a. rewrite !list_lookup_fmap. apply H.
  - intros H a. rewrite <- !list_lookup_fmap, H. reflexivity.
Qed.

Lemma sameS_lookup h h' a o :
  sameS h h' -> h !! a = Some o -> exists o', h' !! a = Some o' /\ static o' = static o.
Proof.
  intros H Ho. specialize (H a). rewrite Ho in H.
  destruct (h' !! a) as [o' |]; simpl in H; [| discriminate].
  apply (inj Some) in H. eauto.
Qed.

Lemma sameS_insert h a o o' :
  h !! a = Some o -> static o' = static o -> sameS h (<[a := o']> h).
Proof.
  intros Ho Hs b. destruct (decide (a = b)) as [<- | Hne].
  - rewrite list_lookup_insert_eq by (eapply lookup_lt_Some; eauto).
    rewrite Ho. simpl. congruence.
  - rewrite list_lookup_insert_ne by exact Hne. reflexivity.
Qed.

Lemma row_fact1_sameS h h' x b l :
  sameS h h' -> row_fact1 h' x b l = row_fact1 h x b l.
Proof.
  intros H. unfold row_fact1. pose proof (H x) as Hx. pose proof (H b) as Hb.
  destruct (h !! x) as [ox |], (h' !! x) as [ox' |]; simpl in Hx; try discriminate;
    [| reflexivity].
  destruct (h !! b) as [ob |], (h' !! b) as [ob' |]; simpl in Hb; try discriminate;
    [| reflexivity].
  apply (inj Some) in Hx, Hb.
  rewrite (static_has_intersection _ _ _ _ Hx Hb), (static_label _ _ Hb),
    (static_fact1 _ _ _ _ b Hx Hb). reflexivity.
Qed.

Lemma row_fact2_sameS h h' x a l :
  sameS h h' -> row_fact2 h' x a l = row_fact2 h x a l.
Proof.
  intros H. unfold row_fact2. pose proof (H x) as Hx. pose proof (H a) as Ha.
  destruct (h !! x) as [ox |], (h' !! x) as [ox' |]; simpl in Hx; try discriminate;
    [| reflexivity].
  destruct (h !! a) as [oa |], (h' !! a) as [oa' |]; simpl in Ha; try discriminate;
    [| reflexivity].
  apply (inj Some) in Hx, Ha.
  rewrite (static_has_intersection _ _ _ _ Hx Ha), (static_label _ _ Hx),
    (static_fact2 _ _ _ _ x Hx Ha). reflexivity.
Qed.

Lemma new_facts_sameS h h' flat a l :
  sameS h h' -> new_facts h' flat a l = new_facts h flat a l.
Proof.
  intros H. induction flat as [| x rest IH]; simpl; [reflexivity |].
  rewrite IH, (row_fact2_sameS _ _ _ _ _ H). f_equal.
  destruct (bool_decide (a = x)); [| reflexivity].
  apply flat_map_ext. intros b. apply row_fact1_sameS. exact H.
Qed.

Lemma grows_refl o : is_Some (HierObject.overlap o) -> grows (fun _ => []) o o.
Proof.
  intros H. split; [destruct o; reflexivity | exact H |].
  intros l. rewrite app_nil_r. reflexivity.
Qed.

Lemma grows_trans D1 D2 o1 o2 o3 :
  grows D1 o1 o2 -> grows D2 o2 o3 -> grows (fun l => D1 l ++ D2 l) o1 o3.
Proof.
  intros [A1 B1 C1] [A2 B2 C2]. split; [| exact B2 |].
  - rewrite A2. rewrite A1. reflexivity.
  - intros l. rewrite C2, C1, app_assoc. reflexivity.
Qed.

Lemma grows_ext D D' o o' : (forall l, D l = D' l) -> grows D o o' -> grows D' o o'.
Proof. intros E [A B C]. split; auto. intros l. rewrite <- E. apply C. Qed.

Lemma grows_static D o o' : grows D o o' -> static o' = static o.
Proof. intros [A _ _]. rewrite A. reflexivity. Qed.

Lemma grows_add_fact lbl f o :
  is_Some (HierObject.overlap o) ->
  grows (fun l => if String.eqb lbl l then [f] else []) o (add_fact lbl f o).
Proof.
  intros [ov Hov]. split.
  - destruct o; reflexivity.
  - unfold add_fact. simpl. eauto.
  - intros l. unfold facts_under, add_fact. simpl. rewrite Hov. simpl.
    rewrite dget_list_dappend. destruct (String.eqb lbl l); [reflexivity |].
    rewrite app_nil_r. reflexivity.
Qed.

Lemma compare_step (h : list HierObject.t) (x b : nat) ox ob :
  h !! x = Some ox -> h !! b = Some ob -> x <> b ->
  geom_ok ox = true -> geom_ok ob = true ->
  is_Some (HierObject.overlap ox) -> is_Some (HierObject.overlap ob) ->
  exists h' ox' ob',
    compare x b h = (Ok tt, h')
    /\ (forall a, a <> x -> a <> b -> h' !! a = h !! a)
    /\ h' !! x = Some ox' /\ h' !! b = Some ob'
    /\ grows (row_fact1 h x b) ox ox'
    /\ grows (row_fact2 h x b) ob ob'.
Proof.
  intros Hx Hb Hne Gx Gb Ox Ob.
  assert (Lx : x < length h) by (eapply lookup_lt_Some; eauto).
  assert (Lb : b < length h) by (eapply lookup_lt_Some; eauto).
  destruct (HierObject.has_intersection ox ob) eqn:Hi.
  - exists (<[b := add_fact (HierObject.label ox) (fact2 ox ob x) ob]>
              (<[x := add_fact (HierObject.label ob) (fact1 ox ob b) ox]> h)).
    exists (add_fact (HierObject.label ob) (fact1 ox ob b) ox),
           (add_fact (HierObject.label ox) (fact2 ox ob x) ob).
    split; [apply compare_intersecting; assumption |].
    split; [| split; [| split; [| split]]].
    + intros a H1 H2. rewrite !list_lookup_insert_ne by congruence. reflexivity.
    + rewrite list_lookup_insert_ne by congruence.
      apply list_lookup_insert_eq. exact Lx.
    + apply list_lookup_insert_eq. rewrite length_insert. exact Lb.
    + eapply grows_ext; [| apply grows_add_fact; exact Ox].
      intros l. cbv beta. unfold row_fact1. rewrite Hx, Hb, Hi. reflexivity.
    + eapply grows_ext; [| apply grows_add_fact; exact Ob].
      intros l. cbv beta. unfold row_fact2. rewrite Hx, Hb, Hi. reflexivity.
  - exists h, ox, ob. split.
    + unfold compare.
      rewrite (bind_ok _ _ _ _ _ (get_obj_ok _ _ _ Hx)).
      rewrite (bind_ok _ _ _ _ _ (get_obj_ok _ _ _ Hb)).
      rewrite Hi. reflexivity.
    + split; [reflexivity |]. split; [exact Hx |]. split; [exact Hb |]. split.
      * eapply grows_ext; [| apply grows_refl; exact Ox].
        intros l. cbv beta. unfold row_fact1. rewrite Hx, Hb, Hi. reflexivity.
      * eapply grows_ext; [| apply grows_refl; exact Ob].
        intros l. cbv beta. unfold row_fact2. rewrite Hx, Hb, Hi. reflexivity.
Qed.

Lemma frame_sameS (S : list nat) (h h' : list HierObject.t) :
  (forall a, a ∉ S -> h' !! a = h !! a) ->
  (forall a o, a ∈ S -> h !! a = Some o ->
     exists o', h' !! a = Some o' /\ static o' = static o) ->
  (forall a, a ∈ S -> is_Some (h !! a)) ->
  sameS h h'.
Proof.
  intros F Hs Hv a. destruct (decide (a ∈ S)) as [Ha | Ha].
  - destruct (Hv a Ha) as [o Ho]. destruct (Hs a o Ha Ho) as (o' & Ho' & E).
    rewrite Ho, Ho'. simpl. congruence.
  - rewrite F by exact Ha. reflexivity.
Qed.

Lemma comparable_is_Some h S a : comparable h S -> a ∈ S -> is_Some (h !! a).
Proof. intros C Ha. destruct (C a Ha) as (o & -> & _). eauto. Qed.

Lemma row_delta_sameS h h' x rest a l :
  sameS h h' -> row_delta h' x rest a l = row_delta h x rest a l.
Proof.
  intros H. unfold row_delta. rewrite (row_fact2_sameS _ _ _ _ _ H).
  destruct (bool_decide (a = x)); [| reflexivity].
  apply flat_map_ext. intros b. apply row_fact1_sameS. exact H.
Qed.

Lemma compare_row (rest : list nat) (x : nat) (h : list HierObject.t) :
  NoDup (x :: rest) -> comparable h (x :: rest) ->
  exists h',
    for_each rest (compare x) h = (Ok tt, h')
    /\ (forall a, a ∉ x :: rest -> h' !! a = h !! a)
    /\ (forall a o, a ∈ x :: rest -> h !! a = Some o ->
          exists o', h' !! a = Some o' /\ grows (row_delta h x rest a) o o').
Proof.
  revert h. induction rest as [| b rest IH]; intros h ND C.
  - exists h. split; [reflexivity |]. split; [auto |].
    intros a o Ha Ho. exists o. split; [exact Ho |].
    destruct (C a Ha) as (o0 & Ho0 & _ & Hov). rewrite Ho in Ho0. injection Ho0 as <-.
    eapply grows_ext; [| apply grows_refl; exact Hov].
    intros l. unfold row_delta. simpl.
    destruct (bool_decide (a = x)); [reflexivity |].
    destruct (bool_decide (a ∈ [])) eqn:E; [| reflexivity].
    apply bool_decide_eq_true in E. inversion E.
  - apply NoDup_cons in ND as [Hx ND]. apply NoDup_cons in ND as [Hb ND].
    rewrite not_elem_of_cons in Hx. destruct Hx as [Hxb Hx].
    destruct (C x ltac:(left)) as (ox & Hox & Gx & Ox).
    destruct (C b ltac:(right; left)) as (ob & Hob & Gb & Ob).
    destruct (compare_step h x b ox ob Hox Hob Hxb Gx Gb Ox Ob)
      as (h1 & ox' & ob' & E1 & F1 & Hx1 & Hb1 & Grx & Grb).
    assert (S1 : sameS h h1).
    { apply (frame_sameS [x; b]).
      - intros a Ha. rewrite !not_elem_of_cons in Ha. apply F1; tauto.
      - intros a o Ha Ho. rewrite !elem_of_cons in Ha.
        destruct Ha as [-> | [-> | Ha]]; [| | inversion Ha].
        + rewrite Hox in Ho. injection Ho as <-. eauto using grows_static.
        + rewrite Hob in Ho. injection Ho as <-. eauto using grows_static.
      - intros a Ha. rewrite !elem_of_cons in Ha.
        destruct Ha as [-> | [-> | Ha]]; [eauto | eauto | inversion Ha]. }
    assert (C1 : comparable h1 (x :: rest)).
    { intros a Ha. apply elem_of_cons in Ha as [-> | Ha].
      - exists ox'. split; [exact Hx1 |]. split; [| apply (grows_some _ _ _ Grx)].
        rewrite (static_geom_ok _ _ (grows_static _ _ _ Grx)). exact Gx.
      - rewrite F1; [apply C; right; right; exact Ha | |]; intros ->; tauto. }
    destruct (IH h1 ltac:(apply NoDup_cons; auto) C1) as (h' & E' & F' & T').
    exists h'. cbn [for_each]. rewrite (bind_ok _ _ _ _ _ E1).
    split; [exact E' |]. split.
    + intros a Ha. rewrite !not_elem_of_cons in Ha.
      rewrite F' by (rewrite not_elem_of_cons; tauto). apply F1; tauto.
    + intros a o Ha Ho. rewrite !elem_of_cons in Ha. destruct Ha as [-> | [-> | Ha]].
      * rewrite Hox in Ho. injection Ho as <-.
        destruct (T' x ox' ltac:(left) Hx1) as (o'' & Ho'' & Gr).
        exists o''. split; [exact Ho'' |].
        eapply grows_ext; [| exact (grows_trans _ _ _ _ _ Grx Gr)].
        intros l. cbv beta. rewrite (row_delta_sameS _ _ _ _ _ _ S1).
        unfold row_delta. rewrite bool_decide_eq_true_2 by reflexivity.
        reflexivity.
      * rewrite Hob in Ho. injection Ho as <-.
        exists ob'. split.
        -- rewrite F'; [exact Hb1 |]. rewrite not_elem_of_cons. split; auto.
        -- eapply grows_ext; [| exact Grb].
           intros l. unfold row_delta.
           rewrite bool_decide_eq_false_2 by auto.
           rewrite bool_decide_eq_true_2 by left. reflexivity.
      * assert (a <> x) by (intros ->; tauto).
        assert (a <> b) by (intros ->; tauto).
        destruct (T' a o ltac:(right; exact Ha)) as (o' & Ho' & Gr).
        { rewrite F1 by assumption. exact Ho. }
        exists o'. split; [exact Ho' |].
        eapply grows_ext; [| exact Gr].
        intros l. rewrite (row_delta_sameS _ _ _ _ _ _ S1). unfold row_delta.
        rewrite !bool_decide_eq_false_2 by assumption.
        rewrite bool_decide_eq_true_2 by exact Ha.
        rewrite bool_decide_eq_true_2 by (right; exact Ha). reflexivity.
Qed.

Lemma new_facts_notin h flat a l : a ∉ flat -> new_facts h flat a l = [].
Proof.
  induction flat as [| x rest IH]; simpl; intros Ha; [reflexivity |].
  rewrite not_elem_of_cons in Ha. destruct Ha as [H1 H2].
  rewrite IH by exact H2.
  rewrite bool_decide_eq_false_2 by exact H1.
  rewrite bool_decide_eq_false_2 by exact H2. reflexivity.
Qed.

Lemma compare_all_spec (flat : list nat) (h : list HierObject.t) :
  NoDup flat -> comparable h flat ->
  exists h',
    compare_all flat h = (Ok tt, h')
    /\ (forall a, a ∉ flat -> h' !! a = h !! a)
    /\ (forall a o, a ∈ flat -> h !! a = Some o ->
          exists o', h' !! a = Some o' /\ grows (new_facts h flat a) o o').
Proof.
  revert h. induction flat as [| x rest IH]; intros h ND C.
  - exists h. split; [reflexivity |]. split; [auto |]. intros a o Ha. inversion Ha.
  - destruct (compare_row rest x h ND C) as (h1 & E1 & F1 & T1).
    pose proof ND as ND'. apply NoDup_cons in ND' as [Hx NDr].
    assert (S1 : sameS h h1).
    { apply (frame_sameS (x :: rest)); [exact F1 | |].
      - intros a o Ha Ho. destruct (T1 a o Ha Ho) as (o' & Ho' & Gr).
        eauto using grows_static.
      - intros a Ha. eapply comparable_is_Some; eauto. }
    assert (C1 : comparable h1 rest).
    { intros a Ha. destruct (C a ltac:(right; exact Ha)) as (o & Ho & Go & Ov).
      destruct (T1 a o ltac:(right; exact Ha) Ho) as (o' & Ho' & Gr).
      exists o'. split; [exact Ho' |]. split; [| apply (grows_some _ _ _ Gr)].
      rewrite (static_geom_ok _ _ (grows_static _ _ _ Gr)). exact Go. }
    destruct (IH h1 NDr C1) as (h' & E' & F' & T').
    exists h'. cbn [compare_all]. rewrite (bind_ok _ _ _ _ _ E1).
    split; [exact E' |]. split.
    + intros a Ha. rewrite not_elem_of_cons in Ha.
      rewrite F' by tauto. apply F1. rewrite not_elem_of_cons. exact Ha.
    + intros a o Ha Ho. destruct (T1 a o Ha Ho) as (o1 & Ho1 & Gr1).
      destruct (decide (a ∈ rest)) as [Har | Har].
      * destruct (T' a o1 Har Ho1) as (o' & Ho' & Gr').
        exists o'. split; [exact Ho' |].
        eapply grows_ext; [| exact (grows_trans _ _ _ _ _ Gr1 Gr')].
        intros l. cbv beta. rewrite (new_facts_sameS _ _ _ _ _ S1). reflexivity.
      * exists o1. split; [rewrite F' by exact Har; exact Ho1 |].
        eapply grows_ext; [| exact Gr1].
        intros l. cbn [new_facts]. rewrite (new_facts_notin _ _ _ _ Har).
        rewrite app_nil_r. reflexivity.
Qed.

Lemma overlapped_static h flat a o o' : overlapped h flat a o o' -> static o' = static o.
Proof. intros [A _ _]. rewrite A. reflexivity. Qed.

Lemma constructed_sameS h h' S : sameS h h' -> constructed h S -> constructed h' S.
Proof.
  intros E C a Ha. destruct (C a Ha) as (o & Ho & Go).
  destruct (sameS_lookup _ _ _ _ E Ho) as (o' & Ho' & Es).
  exists o'. split; [exact Ho' |]. rewrite (static_geom_ok _ _ Es). exact Go.
Qed.

Lemma WF_constructed all_obj h : WF all_obj h -> constructed h (all_addrs all_obj).
Proof.
  intros W a Ha. apply elem_of_all_addrs in Ha as (image & od & Hin & Ha).
  destruct (WF_image_obj _ _ _ _ _ W Hin Ha) as (o & Ho & _ & Go & _). eauto.
Qed.

Lemma find_overlapping_image_spec (od : list (string * list nat))
    (h : list HierObject.t) :
  NoDup (image_addrs od) -> constructed h (image_addrs od) ->
  exists h',
    find_overlapping_image od h = (Ok tt, h')
    /\ (forall a, a ∉ image_addrs od -> h' !! a = h !! a)
    /\ (forall a o, a ∈ image_addrs od -> h !! a = Some o ->
          exists o', h' !! a = Some o' /\ overlapped h (image_addrs od) a o o').
Proof.
  intros ND C. rewrite find_overlapping_image_eq.
  set (G := fun h1 : list HierObject.t => constructed h1 (image_addrs od)).
  set (T := fun (_ : nat) (o o' : HierObject.t) =>
              o' = HierObject.set_overlap (Some []) o).
  destruct (per_image_loop G T
              (fun obj => modify obj (HierObject.set_overlap (Some []))) od ND)
    with (h := h) as (h1 & E1 & G1 & F1 & T1); [| exact C |].
  { intros a Ha. apply modify_round.
    - intros h2 o G2 Ho. split; [| reflexivity].
      apply (constructed_sameS h2); [| exact G2].
      apply (sameS_insert _ _ o); [exact Ho | reflexivity].
    - intros h2 G2. destruct (G2 a Ha) as (o & -> & _). eauto. }
  rewrite (bind_ok _ _ _ _ _ E1).
  assert (C1 : comparable h1 (image_addrs od)).
  { intros a Ha. destruct (C a Ha) as (o & Ho & Go).
    destruct (T1 a o Ha Ho) as (o1 & Ho1 & ->).
    exists (HierObject.set_overlap (Some []) o). split; [exact Ho1 |].
    split; [exact Go | simpl; eauto]. }
  assert (S1 : sameS h h1).
  { apply (frame_sameS (image_addrs od)); [exact F1 | |].
    - intros a o Ha Ho. destruct (T1 a o Ha Ho) as (o1 & Ho1 & ->). eauto.
    - intros a Ha. destruct (C a Ha) as (o & -> & _). eauto. }
  destruct (compare_all_spec (image_addrs od) h1 ND C1) as (h' & E' & F' & T').
  exists h'. split; [exact E' |]. split.
  - intros a Ha. rewrite F' by exact Ha. apply F1. exact Ha.
  - intros a o Ha Ho. destruct (T1 a o Ha Ho) as (o1 & Ho1 & E).
    destruct (T' a o1 Ha Ho1) as (o' & Ho' & [A B D]).
    exists o'. split; [exact Ho' |]. split; [| exact B |].
    + rewrite A. rewrite E. reflexivity.
    + intros l. rewrite D, E. unfold facts_under at 1. simpl.
      apply new_facts_sameS. exact S1.
Qed.

Lemma find_overlapping_objects_spec all_obj (h : list HierObject.t) :
  WF all_obj h ->
  exists h',
    find_overlapping_objects all_obj h = (Ok tt, h')
    /\ (forall a, a ∉ all_addrs all_obj -> h' !! a = h !! a)
    /\ (forall image od a o,
          (image, od) ∈ all_obj -> a ∈ image_addrs od -> h !! a = Some o ->
          exists o', h' !! a = Some o' /\ overlapped h (image_addrs od) a o o').
Proof.
  intros W.
  set (G := fun h1 : list HierObject.t =>
              sameS h h1 /\ constructed h1 (all_addrs all_obj)).
  set (T := fun (od : list (string * list nat)) a o o' =>
              overlapped h (image_addrs od) a o o').
  destruct (for_each_regions image_addrs G T find_overlapping_image
              (dvalues all_obj) (wf_nodup _ _ W)) with (h := h)
    as (h' & E & _ & F & Ht).
  - intros od Hod h1 [S1 C1].
    apply list_elem_of_fmap in Hod as ([image od'] & -> & Hin). simpl.
    assert (NDi : NoDup (image_addrs od')) by (eapply WF_image_nodup; eauto).
    assert (Ci : constructed h1 (image_addrs od')).
    { intros a Ha. apply C1. apply elem_of_all_addrs. eauto. }
    destruct (find_overlapping_image_spec od' h1 NDi Ci) as (h2 & E2 & F2 & T2).
    assert (S2 : sameS h1 h2).
    { apply (frame_sameS (image_addrs od')); [exact F2 | |].
      - intros a o Ha Ho. destruct (T2 a o Ha Ho) as (o' & Ho' & Hov).
        eauto using overlapped_static.
      - intros a Ha. destruct (Ci a Ha) as (o & -> & _). eauto. }
    exists h2. split; [exact E2 |]. split; [| split; [exact F2 |]].
    + split; [eapply sameS_trans; eauto |].
      eapply constructed_sameS; eauto.
    + intros a o Ha Ho. destruct (T2 a o Ha Ho) as (o' & Ho' & [A B D]).
      exists o'. split; [exact Ho' |]. split; [exact A | exact B |].
      intros l. rewrite D. apply new_facts_sameS. exact S1.
  - split; [apply sameS_refl | apply WF_constructed; exact W].
  - exists h'. split; [exact E |]. split; [exact F |].
    intros image od a o Hin Ha Ho. apply (Ht od); [| exact Ha | exact Ho].
    apply list_elem_of_fmap. exists (image, od). auto.
Qed.

(** ** The facts two objects hold about each other *)

Lemma about_app b fs gs : about b (fs ++ gs) = about b fs ++ about b gs.
Proof. apply List.filter_app. Qed.

Lemma about_row_fact1 h x b l c :
  about c (row_fact1 h x b l) = if b =? c then row_fact1 h x b l else [].
Proof.
  unfold row_fact1. destruct (h !! x) as [ox |], (h !! b) as [ob |];
    try (destruct (b =? c); reflexivity).
  destruct (_ && _); [| destruct (b =? c); reflexivity].
  unfold about. simpl. destruct (b =? c); reflexivity.
Qed.

Lemma about_row_fact2 h x a l c :
  about c (row_fact2 h x a l) = if x =? c then row_fact2 h x a l else [].
Proof.
  unfold row_fact2. destruct (h !! x) as [ox |], (h !! a) as [oa |];
    try (destruct (x =? c); reflexivity).
  destruct (_ && _); [| destruct (x =? c); reflexivity].
  unfold about. simpl. destruct (x =? c); reflexivity.
Qed.

Lemma about_row_notin h x rest l c :
  c ∉ rest -> about c (flat_map (fun b => row_fact1 h x b l) rest) = [].
Proof.
  induction rest as [| b rest IH]; simpl; intros Hc; [reflexivity |].
  rewrite not_elem_of_cons in Hc. destruct Hc as [H1 H2].
  rewrite about_app, about_row_fact1, IH by exact H2.
  rewrite (proj2 (Nat.eqb_neq b c)) by congruence. reflexivity.
Qed.

Lemma about_row_in h x rest l c :
  NoDup rest -> c ∈ rest ->
  about c (flat_map (fun b => row_fact1 h x b l) rest) = row_fact1 h x c l.
Proof.
  induction rest as [| b rest IH]; simpl; intros ND Hc; [inversion Hc |].
  apply NoDup_cons in ND as [Hb ND]. rewrite about_app, about_row_fact1.
  apply elem_of_cons in Hc as [-> | Hc].
  - rewrite Nat.eqb_refl, about_row_notin by exact Hb. apply app_nil_r.
  - rewrite (proj2 (Nat.eqb_neq b c)) by (intros ->; tauto).
    simpl. apply IH; assumption.
Qed.

Lemma about_new_facts_notin h flat a l c :
  c ∉ flat -> about c (new_facts h flat a l) = [].
Proof.
  induction flat as [| x rest IH]; simpl; intros Hc; [reflexivity |].
  rewrite not_elem_of_cons in Hc. destruct Hc as [H1 H2].
  rewrite about_app, IH by exact H2. rewrite app_nil_r.
  destruct (bool_decide (a = x)); [apply about_row_notin; exact H2 |].
  destruct (bool_decide (a ∈ rest)); [| reflexivity].
  rewrite about_row_fact2, (proj2 (Nat.eqb_neq x c)) by congruence. reflexivity.
Qed.

(** In a list without repetition, the earlier object [a] of a pair
    holds about the later one [b] the first fact of [compare a b],
    and [b] holds about [a] the second, and neither holds another. *)
Lemma about_new_facts h (l1 l2 l3 : list nat) (a b : nat) (l : string) :
  NoDup (l1 ++ a :: l2 ++ b :: l3) ->
  about b (new_facts h (l1 ++ a :: l2 ++ b :: l3) a l) = row_fact1 h a b l
  /\ about a (new_facts h (l1 ++ a :: l2 ++ b :: l3) b l) = row_fact2 h a b l.
Proof.
  induction l1 as [| x l1 IH]; intros ND.
  - simpl app in *. apply NoDup_cons in ND as [Ha ND].
    assert (Hb : b ∈ l2 ++ b :: l3) by (apply elem_of_app; right; left).
    assert (Hab : b <> a) by (intros ->; tauto).
    cbn [new_facts]. rewrite !about_app.
    rewrite bool_decide_eq_true_2 by reflexivity.
    rewrite bool_decide_eq_false_2 by exact Hab.
    rewrite bool_decide_eq_true_2 by exact Hb.
    rewrite (new_facts_notin _ _ _ _ Ha).
    rewrite (about_new_facts_notin _ _ _ _ _ Ha).
    rewrite about_row_in by assumption.
    rewrite about_row_fact2, Nat.eqb_refl, !app_nil_r. auto.
  - simpl app in *. apply NoDup_cons in ND as [Hx ND].
    destruct (IH ND) as [IH1 IH2].
    assert (Ha : a ∈ l1 ++ a :: l2 ++ b :: l3) by (apply elem_of_app; right; left).
    assert (Hb : b ∈ l1 ++ a :: l2 ++ b :: l3).
    { apply elem_of_app. right. right. apply elem_of_app. right. left. }
    assert (Hxa : a <> x) by (intros ->; tauto).
    assert (Hxb : b <> x) by (intros ->; tauto).
    cbn [new_facts]. rewrite !about_app, IH1, IH2.
    rewrite (bool_decide_eq_false_2 (a = x)) by assumption.
    rewrite (bool_decide_eq_false_2 (b = x)) by assumption.
    rewrite (bool_decide_eq_true_2 (a ∈ _)) by assumption.
    rewrite (bool_decide_eq_true_2 (b ∈ _)) by assumption.
    rewrite !about_row_fact2.
    rewrite (proj2 (Nat.eqb_neq x a)), (proj2 (Nat.eqb_neq x b)) by congruence.
    auto.
Qed.

Lemma lookup_lt_split {A} (l : list A) i j a b :
  l !! i = Some a -> l !! j = Some b -> i < j ->
  exists l1 l2 l3, l = l1 ++ a :: l2 ++ b :: l3.
Proof.
  intros Hi Hj Hlt.
  apply list_elem_of_split_length in Hi as (l1 & r & -> & ->).
  rewrite lookup_app_r in Hj by lia.
  destruct (j - length l1) as [| k] eqn:E; [lia |]. simpl in Hj.
  apply list_elem_of_split_length in Hj as (l2 & l3 & -> & _).
  eauto.
Qed.

Lemma row_fact1_cases h a b l oa ob :
  h !! a = Some oa -> h !! b = Some ob ->
  row_fact1 h a b l =
  if HierObject.has_intersection oa ob && String.eqb (HierObject.label ob) l
  then [fact1 oa ob b] else [].
Proof. intros Ha Hb. unfold row_fact1. rewrite Ha, Hb. reflexivity. Qed.

Lemma row_fact2_cases h a b l oa ob :
  h !! a = Some oa -> h !! b = Some ob ->
  row_fact2 h a b l =
  if HierObject.has_intersection oa ob && String.eqb (HierObject.label oa) l
  then [fact2 oa ob a] else [].
Proof. intros Ha Hb. unfold row_fact2. rewrite Ha, Hb. reflexivity. Qed.

(** C3: after [find_overlapping_objects], two objects of one image
    that intersect hold exactly one fact about each other, each under
    the label of the other, with the same [intersection], [iou] and
    [iom]; two objects that do not intersect hold none. *)
Theorem find_overlapping_objects_pairs
    (all_obj : list (string * list (string * list nat))) (h : list HierObject.t) :
  wf_coll all_obj h = true ->
  exists h',
    find_overlapping_objects all_obj h = (Ok tt, h')
    /\ forall k image od i j a b,
         all_obj !! k = Some (image, od) ->
         image_addrs od !! i = Some a -> image_addrs od !! j = Some b -> i < j ->
         exists oa ob oa' ob',
           h !! a = Some oa /\ h !! b = Some ob
           /\ h' !! a = Some oa' /\ h' !! b = Some ob'
           /\ if HierObject.has_intersection oa ob then
                exists f g,
                  (forall l, about b (facts_under l oa') =
                             if String.eqb (HierObject.label ob) l then [f] else [])
                  /\ (forall l, about a (facts_under l ob') =
                                if String.eqb (HierObject.label oa) l then [g] else [])
                  /\ Overlap.index f = HierObject.index ob
                  /\ Overlap.index g = HierObject.index oa
                  /\ Overlap.intersection f = Overlap.intersection g
                  /\ Overlap.iou f = Overlap.iou g
                  /\ Overlap.iom f = Overlap.iom g
              else
                forall l, about b (facts_under l oa') = []
                          /\ about a (facts_under l ob') = [].
Proof.
  intros W. apply wf_coll_WF in W.
  destruct (find_overlapping_objects_spec all_obj h W) as (h' & E & _ & Ht).
  exists h'. split; [exact E |].
  intros k image od i j a b Hk Hi Hj Hlt.
  assert (Hin : (image, od) ∈ all_obj) by (apply list_elem_of_lookup; eauto).
  assert (Ha : a ∈ image_addrs od) by (apply list_elem_of_lookup; eauto).
  assert (Hb : b ∈ image_addrs od) by (apply list_elem_of_lookup; eauto).
  destruct (WF_image_obj _ _ _ _ _ W Hin Ha) as (oa & Hoa & _).
  destruct (WF_image_obj _ _ _ _ _ W Hin Hb) as (ob & Hob & _).
  destruct (Ht _ _ _ _ Hin Ha Hoa) as (oa' & Hoa' & [_ _ Fa]).
  destruct (Ht _ _ _ _ Hin Hb Hob) as (ob' & Hob' & [_ _ Fb]).
  exists oa, ob, oa', ob'. repeat (split; [assumption |]).
  destruct (lookup_lt_split _ _ _ _ _ Hi Hj Hlt) as (l1 & l2 & l3 & Hsplit).
  pose proof (WF_image_nodup _ _ _ _ W Hin) as ND. rewrite Hsplit in ND.
  assert (R : forall l,
             about b (facts_under l oa') = row_fact1 h a b l
             /\ about a (facts_under l ob') = row_fact2 h a b l).
  { intros l. rewrite Fa, Fb, Hsplit. apply about_new_facts. exact ND. }
  destruct (HierObject.has_intersection oa ob) eqn:Hi'.
  - exists (fact1 oa ob b), (fact2 oa ob a).
    split; [| split; [| repeat split]].
    + intros l. rewrite (proj1 (R l)), (row_fact1_cases _ _ _ _ _ _ Hoa Hob), Hi'.
      reflexivity.
    + intros l. rewrite (proj2 (R l)), (row_fact2_cases _ _ _ _ _ _ Hoa Hob), Hi'.
      reflexivity.
  - intros l. rewrite (proj1 (R l)), (proj2 (R l)).
    rewrite (row_fact1_cases _ _ _ _ _ _ Hoa Hob),
      (row_fact2_cases _ _ _ _ _ _ Hoa Hob), Hi'. auto.
Qed.

(** ** Well-formed overlap facts *)

Lemma dget_Some_key {V} (k : string) (v : V) (d : list (string * V)) :
  dget k d = Some v -> k ∈ dkeys d.
Proof.
  intros H. apply dget_In in H. unfold dkeys. apply list_elem_of_fmap.
  exists (k, v). auto.
Qed.

Lemma facts_ok_FactsOK all_obj h : facts_ok all_obj h = true -> FactsOK all_obj h.
Proof.
  unfold facts_ok. rewrite forallb_elem_of. intros H image od a Hin Ha.
  specialize (H _ Hin). simpl in H. rewrite forallb_elem_of in H.
  specialize (H _ Ha). destruct (h !! a) as [o |]; [| discriminate].
  exists o. split; [reflexivity |].
  destruct (HierObject.overlap o) as [ov |] eqn:Hov; [| discriminate].
  split; [eauto |]. intros l f Hf. unfold facts_under in Hf. rewrite Hov in Hf.
  simpl in Hf. unfold dget_list in Hf.
  destruct (dget l ov) as [fs |] eqn:El; simpl in Hf; [| inversion Hf].
  rewrite forallb_elem_of in H. specialize (H l (dget_Some_key _ _ _ El)).
  rewrite forallb_elem_of in H. apply H. unfold dget_list. rewrite El. exact Hf.
Qed.

Lemma FactsOK_populated all_obj h : FactsOK all_obj h -> populated all_obj h = true.
Proof.
  intros F. apply populated_spec. intros a Ha.
  apply elem_of_all_addrs in Ha as (image & od & Hin & Ha).
  destruct (F image od a Hin Ha) as (o & Ho & Hov & _). eauto.
Qed.

Lemma fact_ok_spec h flat l f :
  fact_ok h flat l f = true <->
  Overlap.obj f ∈ flat
  /\ exists p, h !! Overlap.obj f = Some p /\ HierObject.label p = l
               /\ HierObject.index p = Overlap.index f.
Proof.
  unfold fact_ok. rewrite andb_true_iff, bool_decide_eq_true.
  destruct (h !! Overlap.obj f) as [p |].
  - rewrite andb_true_iff, String.eqb_eq, Nat.eqb_eq. split.
    + intros [H1 [H2 H3]]. eauto.
    + intros [H1 (p' & [= <-] & H2 & H3)]. auto.
  - split; [intros [_ [=]] | intros [_ (p & [=] & _)]].
Qed.

Lemma fact_ok_sameS h h' flat l f : sameS h h' -> fact_ok h' flat l f = fact_ok h flat l f.
Proof.
  intros E. unfold fact_ok. f_equal. specialize (E (Overlap.obj f)).
  destruct (h !! Overlap.obj f) as [p |], (h' !! Overlap.obj f) as [p' |];
    simpl in E; try discriminate; [| reflexivity].
  apply (inj Some) in E.
  rewrite (static_label _ _ E), (static_index _ _ E). reflexivity.
Qed.

Lemma FactsOK_frame all_obj h h' :
  sameS h h' -> sameO h h' -> FactsOK all_obj h -> FactsOK all_obj h'.
Proof.
  intros ES EO F image od a Hin Ha.
  destruct (F image od a Hin Ha) as (o & Ho & Hov & Hf).
  specialize (EO a). rewrite Ho in EO.
  destruct (h' !! a) as [o' |]; simpl in EO; [| discriminate].
  apply (inj Some) in EO. exists o'. split; [reflexivity |].
  split; [rewrite EO; exact Hov |].
  intros l f Hin'. rewrite (fact_ok_sameS _ _ _ _ _ ES). apply Hf.
  unfold facts_under in *. rewrite <- EO. exact Hin'.
Qed.

Lemma new_facts_ok h suf a l f :
  f ∈ new_facts h suf a l -> fact_ok h suf l f = true.
Proof.
  induction suf as [| x rest IH]; simpl; intros Hf; [inversion Hf |].
  assert (Mono : fact_ok h rest l f = true -> fact_ok h (x :: rest) l f = true).
  { rewrite !fact_ok_spec. intros [H1 H2]. split; [right; exact H1 | exact H2]. }
  apply elem_of_app in Hf as [Hf | Hf]; [| auto].
  destruct (bool_decide (a = x)).
  - apply list_elem_of_In, in_flat_map in Hf as (b & Hb & Hf).
    apply list_elem_of_In in Hb. unfold row_fact1 in Hf.
    destruct (h !! x) as [ox |]; [| inversion Hf].
    destruct (h !! b) as [ob |] eqn:Eb; [| inversion Hf].
    destruct (HierObject.has_intersection ox ob); simpl in Hf; [| inversion Hf].
    destruct (String.eqb (HierObject.label ob) l) eqn:El; [| inversion Hf].
    destruct Hf as [<- | []]. apply fact_ok_spec. simpl.
    split; [right; exact Hb |]. exists ob. apply String.eqb_eq in El. auto.
  - destruct (bool_decide (a ∈ rest)); [| inversion Hf].
    unfold row_fact2 in Hf.
    destruct (h !! x) as [ox |] eqn:Ex; [| inversion Hf].
    destruct (h !! a) as [oa |]; [| inversion Hf].
    destruct (HierObject.has_intersection ox oa); simpl in Hf; [| inversion Hf].
    destruct (String.eqb (HierObject.label ox) l) eqn:El; [| inversion Hf].
    apply list_elem_of_singleton in Hf. subst f. apply fact_ok_spec. simpl.
    split; [left |]. exists ox. apply String.eqb_eq in El. auto.
Qed.

(** [find_overlapping_objects] runs on every well-formed collection
    and leaves well-formed facts. *)
Lemma find_overlapping_objects_ok all_obj (h : list HierObject.t) :
  WF all_obj h ->
  exists h',
    find_overlapping_objects all_obj h = (Ok tt, h')
    /\ WF all_obj h' /\ FactsOK all_obj h'
    /\ (forall a o, h !! a = Some o ->
          exists o', h' !! a = Some o'
                     /\ o' = HierObject.set_overlap (HierObject.overlap o') o)
    /\ length h' = length h.
Proof.
  intros W.
  destruct (find_overlapping_objects_spec all_obj h W) as (h' & E & F & Ht).
  assert (Step : forall a o, h !! a = Some o ->
            exists o', h' !! a = Some o'
                       /\ o' = HierObject.set_overlap (HierObject.overlap o') o).
  { intros a o Ho. destruct (decide (a ∈ all_addrs all_obj)) as [Ha | Ha].
    - apply elem_of_all_addrs in Ha as (image & od & Hin & Ha).
      destruct (Ht _ _ _ _ Hin Ha Ho) as (o' & Ho' & [A _ _]). eauto.
    - exists o. rewrite F by exact Ha. split; [exact Ho |]. destruct o; reflexivity. }
  assert (S : sameS h h').
  { apply (frame_sameS (all_addrs all_obj)); [exact F | |].
    - intros a o Ha Ho. destruct (Step a o Ho) as (o' & Ho' & Eo).
      exists o'. split; [exact Ho' |]. rewrite Eo. reflexivity.
    - intros a Ha. destruct (WF_constructed _ _ W a Ha) as (o & -> & _). eauto. }
  exists h'. split; [exact E |].
  split; [apply (WF_static _ h); [apply sameS_fmap; exact S | exact W] |].
  split; [| split; [exact Step |]].
  - intros image od a Hin Ha.
    destruct (WF_image_obj _ _ _ _ _ W Hin Ha) as (o & Ho & _).
    destruct (Ht _ _ _ _ Hin Ha Ho) as (o' & Ho' & [_ B C]).
    exists o'. split; [exact Ho' |]. split; [exact B |].
    intros l f Hf. rewrite C in Hf. rewrite (fact_ok_sameS _ _ _ _ _ S).
    eapply new_facts_ok. exact Hf.
  - apply sameS_fmap in S. apply (f_equal length) in S.
    rewrite !length_fmap in S. exact S.
Qed.

(** ** [sort_for_parent] *)

Lemma StronglySorted_weaken {A} (R R' : A -> A -> Prop) (l : list A) :
  (forall a b, R a b -> R' a b) -> StronglySorted R l -> StronglySorted R' l.
Proof.
  intros H. induction 1 as [| a r _ IH Ha]; constructor; [exact IH |].
  eapply Forall_impl; [exact Ha |]. intros b. apply H.
Qed.

Lemma key_ltb_lt (a b : Z * Z * Q) : key_ltb a b = true <-> key_lt a b.
Proof.
  destruct a as [[a1 a2] a3], b as [[b1 b2] b3]. unfold key_ltb, key_lt. simpl.
  destruct (Z.eqb_spec a1 b1) as [-> | H1]; simpl.
  - destruct (Z.eqb_spec a2 b2) as [-> | H2]; simpl.
    + rewrite Qltb_lt. split; [auto | intros [H | [_ [H | [_ H]]]]; auto; lia].
    + rewrite Z.ltb_lt. split; [auto | intros [H | [_ [H | [H _]]]]; auto; lia].
  - rewrite Z.ltb_lt. split; [auto | intros [H | [H _]]; auto; lia].
Qed.

Lemma key_ltb_asym a b : key_ltb a b = true -> key_ltb b a = false.
Proof.
  intros H. apply key_ltb_lt in H.
  destruct (key_ltb b a) eqn:E; [| reflexivity].
  apply key_ltb_lt in E. exfalso.
  destruct a as [[a1 a2] a3], b as [[b1 b2] b3]. unfold key_lt in *. simpl in *.
  destruct H as [H | [H1 [H | [H2 H]]]], E as [E | [E1 [E | [E2 E]]]];
    try lia; lra.
Qed.

Lemma ranks_above_trans a b c : ranks_above a b -> ranks_above b c -> ranks_above a c.
Proof.
  unfold ranks_above. intros H1 H2.
  destruct (key_ltb (sort_key a) (sort_key c)) eqn:E; [| reflexivity]. exfalso.
  apply key_ltb_lt in E.
  assert (N1 : ~ key_lt (sort_key a) (sort_key b))
    by (rewrite <- key_ltb_lt; congruence).
  assert (N2 : ~ key_lt (sort_key b) (sort_key c))
    by (rewrite <- key_ltb_lt; congruence).
  destruct (sort_key a) as [[a1 a2] a3], (sort_key b) as [[b1 b2] b3],
    (sort_key c) as [[c1 c2] c3].
  unfold key_lt in *. simpl in *.
  destruct (Z.lt_total a1 b1) as [? | [? | ?]]; [tauto | |];
    destruct (Z.lt_total b1 c1) as [? | [? | ?]]; try tauto; try lia.
  destruct (Z.lt_total a2 b2) as [? | [? | ?]]; [tauto | |];
    destruct (Z.lt_total b2 c2) as [? | [? | ?]]; try tauto; try lia.
  assert (~ (a3 < b3)%Q) by tauto. assert (~ (b3 < c3)%Q) by tauto.
  destruct E as [E | [E1 [E | [E2 E]]]]; try lia. lra.
Qed.

Lemma insert_desc_perm x l : insert_desc x l ≡ₚ x :: l.
Proof.
  induction l as [| y l IH]; cbn [insert_desc]; [reflexivity |].
  destruct (key_ltb (sort_key x) (sort_key y)); [| reflexivity].
  rewrite IH. apply Permutation_swap.
Qed.

Lemma sort_for_parent_perm l : sort_for_parent l ≡ₚ l.
Proof.
  induction l as [| x l IH]; simpl; [reflexivity |].
  rewrite insert_desc_perm, IH. reflexivity.
Qed.

Lemma insert_desc_sorted x l :
  StronglySorted ranks_above l -> StronglySorted ranks_above (insert_desc x l).
Proof.
  induction l as [| y l IH]; cbn [insert_desc]; intros S.
  - repeat constructor.
  - apply StronglySorted_inv in S as [S Hy].
    destruct (key_ltb (sort_key x) (sort_key y)) eqn:E.
    + constructor; [auto |].
      rewrite Forall_forall. intros z Hz.
      rewrite insert_desc_perm in Hz. apply elem_of_cons in Hz as [-> | Hz].
      * apply key_ltb_asym. exact E.
      * rewrite Forall_forall in Hy. auto.
    + constructor; [constructor; assumption |].
      constructor; [exact E |].
      rewrite Forall_forall in *. intros z Hz.
      eapply ranks_above_trans; [exact E | auto].
Qed.

Lemma sort_for_parent_sorted l : StronglySorted ranks_above (sort_for_parent l).
Proof.
  induction l as [| x l IH]; simpl; [constructor | apply insert_desc_sorted, IH].
Qed.

(** The best-ranked candidate is fully inside as soon as any is. *)
Lemma sorted_head_inside first rest f :
  StronglySorted ranks_above (first :: rest) -> f ∈ first :: rest ->
  Overlap.self_inside_other f = true -> Overlap.self_inside_other first = true.
Proof.
  intros S Hf Hin. apply StronglySorted_inv in S as [_ Hall].
  apply elem_of_cons in Hf as [-> | Hf]; [exact Hin |].
  rewrite Forall_forall in Hall. specialize (Hall f Hf).
  unfold ranks_above in Hall.
  destruct (Overlap.self_inside_other first) eqn:E; [reflexivity |]. exfalso.
  assert (K : key_lt (sort_key first) (sort_key f)).
  { left. unfold sort_key. simpl. rewrite E, Hin. simpl. lia. }
  apply key_ltb_lt in K. congruence.
Qed.

(** ** Candidates, survivors and the chosen parent *)

Lemma filter_perm {A} (p : A -> bool) (l l' : list A) :
  l ≡ₚ l' -> List.filter p l ≡ₚ List.filter p l'.
Proof.
  induction 1; simpl.
  - reflexivity.
  - destruct (p x); [constructor |]; assumption.
  - destruct (p x), (p y); try reflexivity. apply Permutation_swap.
  - etransitivity; eassumption.
Qed.

(** What survives, without the ranking: the fully inside candidates
    if there is one, all candidates otherwise. *)
Lemma survivors_perm (cands : list Overlap.t) :
  survivors cands ≡ₚ
  if existsb Overlap.self_inside_other cands
  then List.filter Overlap.self_inside_other cands
  else cands.
Proof.
  unfold survivors. destruct (1 <? length cands) eqn:L.
  - pose proof (sort_for_parent_perm cands) as P.
    pose proof (sort_for_parent_sorted cands) as S.
    destruct (sort_for_parent cands) as [| first rest] eqn:E.
    { apply Permutation_nil_l in P. subst cands. discriminate L. }
    destruct (Overlap.self_inside_other first) eqn:Hf.
    + assert (X : existsb Overlap.self_inside_other cands = true).
      { apply existsb_exists. exists first. split; [| exact Hf].
        apply list_elem_of_In. rewrite <- P. left. }
      rewrite X. apply filter_perm. exact P.
    + assert (X : existsb Overlap.self_inside_other cands = false).
      { destruct (existsb Overlap.self_inside_other cands) eqn:X; [| reflexivity].
        apply existsb_exists in X as (f & Hin & Hi).
        apply list_elem_of_In in Hin. rewrite <- P in Hin.
        rewrite (sorted_head_inside _ _ _ S Hin Hi) in Hf. discriminate. }
      rewrite X. exact P.
  - apply Nat.ltb_ge in L. destruct cands as [| f [| g r]]; simpl in L; [| | lia].
    + reflexivity.
    + simpl. destruct (Overlap.self_inside_other f); reflexivity.
Qed.

Lemma survivors_subset cands f : f ∈ survivors cands -> f ∈ cands.
Proof.
  rewrite survivors_perm. destruct (existsb _ cands); [| auto].
  rewrite list_elem_of_In, List.filter_In, <- list_elem_of_In. tauto.
Qed.

Lemma chosen_candidate h pl o f :
  chosen h pl o = Some f ->
  HierObject.truthy (HierObject.duplicate o) = false
  /\ f ∈ facts_under pl o
  /\ Overlap.center_of_self f = true
  /\ dup_at h (Overlap.obj f) = false.
Proof.
  unfold chosen. destruct (HierObject.truthy _); [discriminate |].
  destruct (survivors (candidates h pl o)) as [| g [| g' r]] eqn:E; try discriminate.
  intros [= ->]. split; [reflexivity |].
  assert (Hf : f ∈ candidates h pl o) by (apply survivors_subset; rewrite E; left).
  unfold candidates in Hf.
  rewrite list_elem_of_In, List.filter_In, <- list_elem_of_In in Hf.
  destruct Hf as [Hf Hc]. apply andb_true_iff in Hc as [Hc Hd].
  apply negb_true_iff in Hd. auto.
Qed.

(** ** [find_parent]: one child *)

Lemma pc_id o : pc (HierObject.parent o) (HierObject.children o) o = o.
Proof. destruct o; reflexivity. Qed.

Lemma pc_pc np1 nc1 np2 nc2 o : pc np2 nc2 (pc np1 nc1 o) = pc np2 nc2 o.
Proof. reflexivity. Qed.

Lemma set_parent_pc np o : HierObject.set_parent np o = pc np (HierObject.children o) o.
Proof. destruct o; reflexivity. Qed.

Lemma set_children_pc nc o : HierObject.set_children nc o = pc (HierObject.parent o) nc o.
Proof. destruct o; reflexivity. Qed.

Lemma pc_only_refl h : pc_only h h.
Proof.
  split; [reflexivity |]. intros a o Ho.
  exists (HierObject.parent o), (HierObject.children o). rewrite pc_id. exact Ho.
Qed.

Lemma pc_only_trans h1 h2 h3 : pc_only h1 h2 -> pc_only h2 h3 -> pc_only h1 h3.
Proof.
  intros [L1 H1] [L2 H2]. split; [congruence |]. intros a o Ho.
  destruct (H1 a o Ho) as (np & nc & Ho1).
  destruct (H2 a _ Ho1) as (np' & nc' & Ho2). rewrite pc_pc in Ho2. eauto.
Qed.

Lemma pc_only_None h h' a : pc_only h h' -> h !! a = None -> h' !! a = None.
Proof.
  intros [L _] Hn. apply lookup_ge_None. apply lookup_ge_None in Hn. lia.
Qed.

Lemma pc_only_dup_at h h' a : pc_only h h' -> dup_at h' a = dup_at h a.
Proof.
  intros P. unfold dup_at. destruct (h !! a) as [o |] eqn:Ho.
  - destruct (proj2 P a o Ho) as (np & nc & ->). reflexivity.
  - rewrite (pc_only_None _ _ _ P Ho). reflexivity.
Qed.

Lemma pc_only_sameS h h' : pc_only h h' -> sameS h h'.
Proof.
  intros P a. destruct (h !! a) as [o |] eqn:Ho.
  - destruct (proj2 P a o Ho) as (np & nc & ->). reflexivity.
  - rewrite (pc_only_None _ _ _ P Ho). reflexivity.
Qed.

Lemma pc_only_sameO h h' : pc_only h h' -> sameO h h'.
Proof.
  intros P a. destruct (h !! a) as [o |] eqn:Ho.
  - destruct (proj2 P a o Ho) as (np & nc & ->). reflexivity.
  - rewrite (pc_only_None _ _ _ P Ho). reflexivity.
Qed.

Lemma pc_only_sameD h h' : pc_only h h' -> sameD h h'.
Proof.
  intros P a. destruct (h !! a) as [o |] eqn:Ho.
  - destruct (proj2 P a o Ho) as (np & nc & ->). reflexivity.
  - rewrite (pc_only_None _ _ _ P Ho). reflexivity.
Qed.

Lemma candidates_pc h h' pl np nc o :
  pc_only h h' -> candidates h' pl (pc np nc o) = candidates h pl o.
Proof.
  intros P. unfold candidates.
  change (facts_under pl (pc np nc o)) with (facts_under pl o).
  apply List.filter_ext. intros f. rewrite (pc_only_dup_at _ _ _ P). reflexivity.
Qed.

Lemma chosen_pc h h' pl np nc o :
  pc_only h h' -> chosen h' pl (pc np nc o) = chosen h pl o.
Proof.
  intros P. unfold chosen. rewrite (candidates_pc _ _ _ _ _ _ P). reflexivity.
Qed.

Lemma assigned_pc h h' pl cs a : pc_only h h' -> assigned h' pl cs a = assigned h pl cs a.
Proof.
  intros P. unfold assigned. apply flat_map_ext. intros c.
  destruct (h !! c) as [o |] eqn:Ho.
  - destruct (proj2 P c o Ho) as (np & nc & ->).
    rewrite (chosen_pc _ _ _ _ _ _ P). reflexivity.
  - rewrite (pc_only_None _ _ _ P Ho). reflexivity.
Qed.

Lemma filterM_candidates (h : list HierObject.t) (l : list Overlap.t) :
  (forall f, f ∈ l -> is_Some (h !! Overlap.obj f)) ->
  filterM (fun over =>
             if Overlap.center_of_self over then
               p <- get_obj (Overlap.obj over) ;;
               ret (negb (HierObject.truthy (HierObject.duplicate p)))
             else ret false) l h
  = (Ok (List.filter (fun over =>
                        Overlap.center_of_self over
                        && negb (dup_at h (Overlap.obj over))) l), h).
Proof.
  induction l as [| f l IH]; intros Hv; [reflexivity |].
  cbn [filterM List.filter].
  assert (E : (if Overlap.center_of_self f
               then p <- get_obj (Overlap.obj f) ;;
                    ret (negb (HierObject.truthy (HierObject.duplicate p)))
               else ret false) h
              = (Ok (Overlap.center_of_self f && negb (dup_at h (Overlap.obj f))), h)).
  { destruct (Overlap.center_of_self f); [| reflexivity].
    destruct (Hv f ltac:(left)) as [p Hp].
    rewrite (bind_ok _ _ _ _ _ (get_obj_ok _ _ _ Hp)).
    unfold dup_at. rewrite Hp. reflexivity. }
  rewrite (bind_ok _ _ _ _ _ E).
  rewrite (bind_ok _ _ _ _ _ (IH (fun g Hg => Hv g ltac:(right; exact Hg)))).
  reflexivity.
Qed.

Lemma assigned_single h pl c a o :
  h !! c = Some o ->
  assigned h pl [c] a =
  match chosen h pl o with
  | Some f => if Overlap.obj f =? a then [HierObject.index o] else []
  | None => []
  end.
Proof. intros Ho. unfold assigned. simpl. rewrite Ho, app_nil_r. reflexivity. Qed.

Lemma not_elem_of_single (a c : nat) : a <> c -> bool_decide (a ∈ [c]) = false.
Proof.
  intros H. apply bool_decide_eq_false_2. intros Hin.
  apply list_elem_of_singleton in Hin. contradiction.
Qed.

Lemma elem_of_single (c : nat) : bool_decide (c ∈ [c]) = true.
Proof. apply bool_decide_eq_true_2. left. Qed.

(** The heap after the round of a child that gets no parent. *)
Lemma unassigned_lookup (h : list HierObject.t) cl pl c o :
  h !! c = Some o -> chosen h pl o = None ->
  forall a oa, h !! a = Some oa ->
    <[c := pc (Some (default [] (HierObject.parent o))) (HierObject.children o) o]> h
      !! a
    = Some (pc (new_parent h pl [c] a oa) (new_children h cl pl [c] a oa) oa).
Proof.
  intros Ho Hc a oa Hoa. unfold new_parent, new_children.
  rewrite (assigned_single _ _ _ _ _ Ho), Hc. simpl.
  destruct (decide (a = c)) as [-> | Hne].
  - rewrite Ho in Hoa. injection Hoa as <-.
    rewrite list_lookup_insert_eq by (eapply lookup_lt_Some; eauto).
    rewrite elem_of_single, Hc. reflexivity.
  - rewrite list_lookup_insert_ne by congruence.
    rewrite not_elem_of_single by exact Hne. rewrite pc_id. exact Hoa.
Qed.

Lemma find_parent_child_spec (cl pl : string) (c : nat) (h : list HierObject.t) :
  child_ready h pl c ->
  exists h',
    find_parent_child cl pl c h = (Ok tt, h')
    /\ length h' = length h
    /\ forall a oa, h !! a = Some oa ->
         h' !! a = Some (pc (new_parent h pl [c] a oa)
                            (new_children h cl pl [c] a oa) oa).
Proof.
  intros (o & Ho & [ov Hov] & Hf).
  assert (Lc : c < length h) by (eapply lookup_lt_Some; eauto).
  set (o1 := pc (Some (default [] (HierObject.parent o))) (HierObject.children o) o).
  set (h1 := <[c := o1]> h).
  assert (E1 : match HierObject.parent o with
               | None => modify c (HierObject.set_parent (Some []))
               | Some _ => ret tt
               end h = (Ok tt, h1)).
  { destruct (HierObject.parent o) as [d |] eqn:Hp.
    - unfold ret, h1, o1. simpl. rewrite <- Hp, pc_id.
      rewrite list_insert_id by exact Ho. reflexivity.
    - rewrite (modify_ok _ _ _ _ Ho). unfold h1, o1. simpl.
      rewrite set_parent_pc. reflexivity. }
  assert (Ho1 : h1 !! c = Some o1) by (apply list_lookup_insert_eq; exact Lc).
  assert (L1 : length h1 = length h) by apply length_insert.
  assert (P1 : pc_only h h1).
  { split; [exact L1 |]. intros a oa Hoa. unfold h1.
    destruct (decide (a = c)) as [-> | Hne].
    - rewrite Ho in Hoa. injection Hoa as <-.
      rewrite list_lookup_insert_eq by exact Lc. unfold o1. eauto.
    - rewrite list_lookup_insert_ne by congruence.
      exists (HierObject.parent oa), (HierObject.children oa). rewrite pc_id. exact Hoa. }
  unfold find_parent_child.
  rewrite (bind_ok _ _ _ _ _ (get_obj_ok _ _ _ Ho)).
  rewrite (bind_ok _ _ _ _ _ E1).
  rewrite (bind_ok _ _ _ _ _ (get_obj_ok _ _ _ Ho1)).
  change (HierObject.duplicate o1) with (HierObject.duplicate o).
  change (HierObject.overlap o1) with (HierObject.overlap o).
  destruct (HierObject.truthy (HierObject.duplicate o)) eqn:Hd.
  { exists h1. split; [reflexivity |]. split; [exact L1 |].
    apply unassigned_lookup; [exact Ho |]. unfold chosen. rewrite Hd. reflexivity. }
  rewrite Hov.
  assert (Hv : forall f, f ∈ dget_list pl ov -> is_Some (h1 !! Overlap.obj f)).
  { intros f Hin. destruct (Hf f) as (p & Hp & _).
    - unfold facts_under. rewrite Hov. exact Hin.
    - destruct (proj2 P1 _ _ Hp) as (np & nc & ->). eauto. }
  rewrite (bind_ok _ _ _ _ _ (filterM_candidates h1 _ Hv)).
  assert (Ec : List.filter
                 (fun over => Overlap.center_of_self over
                              && negb (dup_at h1 (Overlap.obj over)))
                 (dget_list pl ov) = candidates h pl o).
  { unfold candidates, facts_under. rewrite Hov. simpl.
    apply List.filter_ext. intros f. rewrite (pc_only_dup_at _ _ _ P1). reflexivity. }
  rewrite Ec. clear Ec Hv.
  assert (Hch : chosen h pl o =
                match survivors (candidates h pl o) with
                | [over] => Some over
                | _ => None
                end) by (unfold chosen; rewrite Hd; reflexivity).
  assert (Hsub : forall g, g ∈ survivors (candidates h pl o) -> g ∈ facts_under pl o).
  { intros g Hg. apply survivors_subset in Hg. unfold candidates in Hg.
    rewrite list_elem_of_In, List.filter_In, <- list_elem_of_In in Hg. tauto. }
  remember (candidates h pl o) as cands eqn:Ecands.
  destruct cands as [| f0 cands'].
  { exists h1. split; [reflexivity |]. split; [exact L1 |].
    apply unassigned_lookup; [exact Ho | exact Hch]. }
  fold (survivors (f0 :: cands')).
  destruct (survivors (f0 :: cands')) as [| f [| g r]] eqn:Es;
    try (exists h1; split; [reflexivity |]; split; [exact L1 |];
         apply unassigned_lookup; [exact Ho | exact Hch]).
  (* exactly one candidate remains *)
  assert (Hin : f ∈ facts_under pl o) by (apply Hsub; left).
  destruct (Hf f Hin) as (p & Hp & Hidx & [ch Hchd]).
  destruct (proj2 P1 _ _ Hp) as (np1 & nc1 & Hp1).
  rewrite (bind_ok _ _ _ _ _ (get_obj_ok _ _ _ Hp1)).
  change (HierObject.index (pc np1 nc1 p)) with (HierObject.index p).
  set (o2 := HierObject.set_parent
               (Some (dset pl (HierObject.index p) (default [] (HierObject.parent o1))))
               o1).
  set (h2 := <[c := o2]> h1).
  assert (Em : modify c
                 (fun o0 => HierObject.set_parent
                    (Some (dset pl (HierObject.index p)
                             (default [] (HierObject.parent o0)))) o0) h1
               = (Ok tt, h2)) by (rewrite (modify_ok _ _ _ _ Ho1); reflexivity).
  rewrite (bind_ok _ _ _ _ _ Em).
  assert (L2 : length h2 = length h) by (unfold h2; rewrite length_insert; exact L1).
  assert (Ho2 : h2 !! c = Some o2).
  { apply list_lookup_insert_eq. rewrite L1. exact Lc. }
  assert (Hp2 : exists p2, h2 !! Overlap.obj f = Some p2
                           /\ HierObject.children p2 = Some ch
                           /\ (Overlap.obj f <> c -> p2 = p)).
  { unfold h2, h1. destruct (decide (Overlap.obj f = c)) as [Efc | Hne].
    - rewrite Efc in *. rewrite Ho in Hp. injection Hp as <-.
      exists o2. rewrite list_lookup_insert_eq by (rewrite length_insert; exact Lc).
      split; [reflexivity |]. split; [exact Hchd | congruence].
    - exists p. rewrite !list_lookup_insert_ne by congruence. auto. }
  destruct Hp2 as (p2 & Hp2 & Hch2 & Ep2).
  rewrite (bind_ok _ _ _ _ _ (get_obj_ok _ _ _ Hp2)). rewrite Hch2.
  rewrite (bind_ok _ _ _ _ _ (get_obj_ok _ _ _ Ho2)).
  change (HierObject.index o2) with (HierObject.index o).
  set (p3 := HierObject.set_children
               (Some (dappend cl (HierObject.index o) ch)) p2).
  set (h3 := <[Overlap.obj f := p3]> h2).
  assert (Ef : modify (Overlap.obj f)
                 (HierObject.set_children
                    (Some (dappend cl (HierObject.index o) ch))) h2
               = (Ok tt, h3)) by (rewrite (modify_ok _ _ _ _ Hp2); reflexivity).
  rewrite Ef.
  exists h3. split; [reflexivity |].
  split; [unfold h3; rewrite length_insert; exact L2 |].
  intros a oa Hoa. unfold new_parent, new_children.
  rewrite (assigned_single _ _ _ _ _ Ho), Hch.
  assert (Hsome : chosen h pl o = Some f) by exact Hch.
  destruct (decide (a = Overlap.obj f)) as [-> | Hnf].
  - unfold h3. rewrite list_lookup_insert_eq
      by (rewrite L2; eapply lookup_lt_Some; eauto).
    rewrite Hp in Hoa. injection Hoa as <-. rewrite Nat.eqb_refl. f_equal.
    unfold add_kids. simpl. rewrite Hchd. simpl.
    destruct (decide (Overlap.obj f = c)) as [Efc | Hne].
    + rewrite Efc in *. rewrite Ho2 in Hp2. injection Hp2 as <-.
      rewrite elem_of_single. rewrite Ho in Hp. injection Hp as <-.
      rewrite Hsome. simpl. rewrite <- Hidx. reflexivity.
    + rewrite not_elem_of_single by exact Hne.
      unfold p3. rewrite (Ep2 Hne). rewrite set_children_pc. reflexivity.
  - unfold h3. rewrite list_lookup_insert_ne by congruence.
    rewrite (proj2 (Nat.eqb_neq _ _)) by congruence. simpl.
    destruct (decide (a = c)) as [-> | Hne].
    + rewrite Ho in Hoa. injection Hoa as <-. rewrite Ho2. f_equal.
      rewrite elem_of_single, Hsome. simpl. rewrite <- Hidx. reflexivity.
    + unfold h2, h1. rewrite !list_lookup_insert_ne by congruence.
      rewrite not_elem_of_single by exact Hne. rewrite pc_id. exact Hoa.
Qed.

(** ** [find_parent]: the children of one image *)

Lemma candidates_heap h h' pl o :
  pc_only h h' -> candidates h' pl o = candidates h pl o.
Proof.
  intros P. rewrite <- (pc_id o) at 1. apply candidates_pc. exact P.
Qed.

Lemma chosen_heap h h' pl o : pc_only h h' -> chosen h' pl o = chosen h pl o.
Proof. intros P. unfold chosen. rewrite (candidates_heap _ _ _ _ P). reflexivity. Qed.

Lemma add_kids_app cl k1 k2 ch :
  add_kids cl (k1 ++ k2) ch = add_kids cl k2 (add_kids cl k1 ch).
Proof. unfold add_kids. apply fold_left_app. Qed.

Lemma add_kids_is_Some cl kids ch : is_Some ch -> is_Some (add_kids cl kids ch).
Proof.
  revert ch. induction kids as [| i kids IH]; intros ch H; [exact H |].
  simpl. apply IH. eauto.
Qed.

Lemma assigned_cons h pl c cs a :
  assigned h pl (c :: cs) a = assigned h pl [c] a ++ assigned h pl cs a.
Proof. unfold assigned. simpl. rewrite app_nil_r. reflexivity. Qed.

Lemma pointwise_pc_only (h h' : list HierObject.t)
    (np : nat -> HierObject.t -> option (list (string * nat)))
    (nc : nat -> HierObject.t -> option (list (string * list nat))) :
  length h' = length h ->
  (forall a o, h !! a = Some o -> h' !! a = Some (pc (np a o) (nc a o) o)) ->
  pc_only h h'.
Proof. intros L H. split; [exact L |]. intros a o Ho. eauto. Qed.

Lemma find_parent_children_spec (cl pl : string) (cs : list nat)
    (h : list HierObject.t) :
  NoDup cs -> (forall c, c ∈ cs -> child_ready h pl c) ->
  exists h',
    for_each cs (find_parent_child cl pl) h = (Ok tt, h')
    /\ length h' = length h
    /\ forall a oa, h !! a = Some oa ->
         h' !! a = Some (pc (new_parent h pl cs a oa)
                            (new_children h cl pl cs a oa) oa).
Proof.
  revert h. induction cs as [| c rest IH]; intros h ND R.
  - exists h. split; [reflexivity |]. split; [reflexivity |].
    intros a oa Hoa. unfold new_parent, new_children, assigned, add_kids.
    cbn [flat_map fold_left].
    rewrite (bool_decide_eq_false_2 (a ∈ [])) by (intros H; inversion H).
    rewrite pc_id. exact Hoa.
  - apply NoDup_cons in ND as [Hc ND].
    destruct (find_parent_child_spec cl pl c h (R c ltac:(left)))
      as (h1 & E1 & L1 & T1).
    pose proof (pointwise_pc_only _ _ _ _ L1 T1) as P1.
    assert (R1 : forall c', c' ∈ rest -> child_ready h1 pl c').
    { intros c' Hc'. destruct (R c' ltac:(right; exact Hc')) as (o & Ho & Hov & Hf).
      eexists. split; [apply T1; exact Ho |]. split; [exact Hov |].
      intros f Hin. destruct (Hf f Hin) as (p & Hp & Hi & Hch).
      eexists. split; [apply T1; exact Hp |]. split; [exact Hi |].
      simpl. apply add_kids_is_Some. exact Hch. }
    destruct (IH h1 ND R1) as (h' & E' & L' & T').
    exists h'. cbn [for_each]. rewrite (bind_ok _ _ _ _ _ E1).
    split; [exact E' |]. split; [congruence |].
    intros a oa Hoa. rewrite (T' _ _ (T1 _ _ Hoa)), pc_pc.
    apply f_equal. apply (f_equal2 (fun x y => pc x y oa)).
    + unfold new_parent at 1.
      change (HierObject.parent (pc ?x ?y ?o)) with x.
      rewrite (chosen_pc _ _ _ _ _ _ P1).
      destruct (decide (a ∈ rest)) as [Ha | Ha].
      * rewrite bool_decide_eq_true_2 by exact Ha.
        unfold new_parent.
        rewrite not_elem_of_single by (intros ->; tauto).
        rewrite bool_decide_eq_true_2 by (right; exact Ha). reflexivity.
      * rewrite bool_decide_eq_false_2 by exact Ha. unfold new_parent.
        destruct (decide (a = c)) as [-> | Hne].
        -- rewrite elem_of_single. rewrite bool_decide_eq_true_2 by left. reflexivity.
        -- rewrite not_elem_of_single by exact Hne.
           rewrite bool_decide_eq_false_2; [reflexivity |].
           rewrite not_elem_of_cons. tauto.
    + unfold new_children at 1.
      change (HierObject.children (pc ?x ?y ?o)) with y.
      unfold new_children. rewrite (assigned_pc _ _ _ _ _ P1).
      rewrite (assigned_cons _ _ c rest), add_kids_app. reflexivity.
Qed.

Lemma init_children_spec (ps : list nat) (h : list HierObject.t) :
  (forall p, p ∈ ps -> is_Some (h !! p)) ->
  exists h',
    for_each ps (fun parent =>
      p <- get_obj parent ;;
      match HierObject.children p with
      | None => modify parent (HierObject.set_children (Some []))
      | Some _ => ret tt
      end) h = (Ok tt, h')
    /\ length h' = length h
    /\ forall a oa, h !! a = Some oa ->
         h' !! a = Some (pc (HierObject.parent oa) (init_children ps a oa) oa).
Proof.
  revert h. induction ps as [| p rest IH]; intros h V.
  - exists h. split; [reflexivity |]. split; [reflexivity |].
    intros a oa Hoa. unfold init_children.
    rewrite (bool_decide_eq_false_2 (a ∈ [])) by (intros H; inversion H).
    rewrite pc_id. exact Hoa.
  - destruct (V p ltac:(left)) as [o Ho].
    assert (Lp : p < length h) by (eapply lookup_lt_Some; eauto).
    set (h1 := <[p := pc (HierObject.parent o)
                         (Some (default [] (HierObject.children o))) o]> h).
    assert (E1 : (p0 <- get_obj p ;;
                  match HierObject.children p0 with
                  | None => modify p (HierObject.set_children (Some []))
                  | Some _ => ret tt
                  end) h = (Ok tt, h1)).
    { rewrite (bind_ok _ _ _ _ _ (get_obj_ok _ _ _ Ho)). unfold h1.
      destruct (HierObject.children o) as [ch |] eqn:Hch.
      - simpl. rewrite <- Hch, pc_id, list_insert_id by exact Ho. reflexivity.
      - rewrite (modify_ok _ _ _ _ Ho). simpl. rewrite set_children_pc. reflexivity. }
    assert (L1 : length h1 = length h) by apply length_insert.
    assert (T1 : forall a oa, h !! a = Some oa ->
               h1 !! a = Some (pc (HierObject.parent oa) (init_children [p] a oa) oa)).
    { intros a oa Hoa. unfold h1, init_children.
      destruct (decide (a = p)) as [-> | Hne].
      - rewrite Ho in Hoa. injection Hoa as <-.
        rewrite list_lookup_insert_eq by exact Lp.
        rewrite elem_of_single. reflexivity.
      - rewrite list_lookup_insert_ne by congruence.
        rewrite not_elem_of_single by exact Hne. rewrite pc_id. exact Hoa. }
    destruct (IH h1) as (h' & E' & L' & T').
    { intros q Hq. destruct (V q ltac:(right; exact Hq)) as [oq Hoq].
      rewrite (T1 _ _ Hoq). eauto. }
    exists h'. cbn [for_each]. rewrite (bind_ok _ _ _ _ _ E1).
    split; [exact E' |]. split; [congruence |].
    intros a oa Hoa. rewrite (T' _ _ (T1 _ _ Hoa)), pc_pc.
    apply f_equal. apply (f_equal2 (fun x y => pc x y oa)); [reflexivity |].
    unfold init_children. simpl.
    destruct (decide (a = p)) as [-> | Hne].
    + rewrite elem_of_single. rewrite (bool_decide_eq_true_2 (p ∈ p :: rest)) by left.
      destruct (bool_decide (p ∈ rest)); reflexivity.
    + rewrite not_elem_of_single by exact Hne.
      destruct (decide (a ∈ rest)) as [Ha | Ha].
      * rewrite !bool_decide_eq_true_2; [reflexivity | right; exact Ha | exact Ha].
      * rewrite !bool_decide_eq_false_2; [reflexivity | | exact Ha].
        rewrite not_elem_of_cons. tauto.
Qed.

Lemma bucket_in_image (od : list (string * list nat)) lbl l a :
  dget lbl od = Some l -> a ∈ l -> a ∈ image_addrs od.
Proof.
  intros Hd Ha. apply elem_of_image_addrs.
  apply list_elem_of_lookup in Ha as [i Hi]. exists lbl, l, i.
  split; [apply dget_In; exact Hd | exact Hi].
Qed.

Lemma bucket_nodup (od : list (string * list nat)) lbl l :
  NoDup (image_addrs od) -> dget lbl od = Some l -> NoDup l.
Proof.
  intros ND Hd. eapply NoDup_concat_elem; [exact ND |].
  unfold dvalues. apply list_elem_of_fmap. exists (lbl, l).
  split; [reflexivity | apply dget_In; exact Hd].
Qed.

(** In a well-formed image, the facts a child holds under the parent
    label are about objects of the parent bucket. *)
Lemma fact_target_in_bucket all_obj h image od a o pl f :
  WF all_obj h -> FactsOK all_obj h -> (image, od) ∈ all_obj ->
  a ∈ image_addrs od -> h !! a = Some o -> f ∈ facts_under pl o ->
  Overlap.obj f ∈ image_addrs od
  /\ exists p ps, h !! Overlap.obj f = Some p
                  /\ HierObject.index p = Overlap.index f
                  /\ HierObject.label p = pl
                  /\ dget pl od = Some ps /\ Overlap.obj f ∈ ps.
Proof.
  intros W F Hin Ha Ho Hf.
  destruct (F image od a Hin Ha) as (o' & Ho' & _ & Hok).
  rewrite Ho in Ho'. injection Ho' as <-.
  apply Hok, fact_ok_spec in Hf as (Hflat & p & Hp & Hl & Hi).
  split; [exact Hflat |].
  destruct (WF_image_obj _ _ _ _ _ W Hin Hflat) as (p' & Hp' & _ & _ & l & Hd & Hidx).
  rewrite Hp in Hp'. injection Hp' as <-. subst pl.
  exists p, l. repeat split; auto. apply list_elem_of_lookup. eauto.
Qed.

(** ** [find_parent]: one image, then the collection *)

Lemma find_parent_image_spec all_obj (h : list HierObject.t) image od cl pl :
  WF all_obj h -> FactsOK all_obj h -> (image, od) ∈ all_obj ->
  exists h',
    find_parent_image cl pl od h = (Ok tt, h')
    /\ length h' = length h
    /\ forall a oa, h !! a = Some oa ->
         h' !! a = Some (pc (image_parent h cl pl od a oa)
                            (image_children h cl pl od a oa) oa).
Proof.
  intros W F Hin.
  assert (Skip : active cl pl od = None ->
                 forall a oa, h !! a = Some oa ->
                   h !! a = Some (pc (image_parent h cl pl od a oa)
                                     (image_children h cl pl od a oa) oa)).
  { intros E a oa Hoa. unfold image_parent, image_children. rewrite E, pc_id.
    exact Hoa. }
  unfold find_parent_image.
  destruct (dget cl od) as [[| c cs'] |] eqn:Ecl;
    try (exists h; split; [reflexivity |]; split; [reflexivity |];
         apply Skip; unfold active; rewrite Ecl; reflexivity).
  destruct (dget pl od) as [[| p ps'] |] eqn:Epl;
    try (exists h; split; [reflexivity |]; split; [reflexivity |];
         apply Skip; unfold active; rewrite Ecl, Epl; reflexivity).
  set (cs := c :: cs') in *. set (ps := p :: ps') in *.
  assert (Eact : active cl pl od = Some (cs, ps))
    by (unfold active; rewrite Ecl, Epl; reflexivity).
  pose proof (WF_image_nodup _ _ _ _ W Hin) as NDi.
  destruct (init_children_spec ps h) as (h1 & E1 & L1 & T1).
  { intros q Hq.
    destruct (WF_image_obj _ _ _ _ _ W Hin (bucket_in_image _ _ _ _ Epl Hq))
      as (o & -> & _). eauto. }
  pose proof (pointwise_pc_only _ _ _ _ L1 T1) as P1.
  rewrite (bind_ok _ _ _ _ _ E1).
  destruct (find_parent_children_spec cl pl cs h1) as (h' & E' & L' & T').
  { eapply bucket_nodup; eauto. }
  { intros c0 Hc0. pose proof (bucket_in_image _ _ _ _ Ecl Hc0) as Ha.
    destruct (F image od c0 Hin Ha) as (o & Ho & Hov & _).
    eexists. split; [apply T1; exact Ho |]. split; [exact Hov |].
    intros f Hf. change (facts_under pl (pc ?x ?y o)) with (facts_under pl o) in Hf.
    destruct (fact_target_in_bucket _ _ _ _ _ _ _ _ W F Hin Ha Ho Hf)
      as (_ & q & ps0 & Hq & Hi & _ & Hd & Hq').
    rewrite Epl in Hd. injection Hd as <-.
    eexists. split; [apply T1; exact Hq |]. split; [exact Hi |].
    simpl. unfold init_children. rewrite bool_decide_eq_true_2 by exact Hq'. eauto. }
  exists h'. split; [exact E' |]. split; [congruence |].
  intros a oa Hoa. rewrite (T' _ _ (T1 _ _ Hoa)), pc_pc.
  unfold image_parent, image_children. rewrite Eact.
  apply f_equal. apply (f_equal2 (fun x y => pc x y oa)).
  - unfold new_parent. change (HierObject.parent (pc ?x ?y ?o)) with x.
    rewrite (chosen_pc _ _ _ _ _ _ P1). reflexivity.
  - unfold new_children. change (HierObject.children (pc ?x ?y ?o)) with y.
    rewrite (assigned_pc _ _ _ _ _ P1). reflexivity.
Qed.

Lemma WF_pc_only all_obj h h' : pc_only h h' -> WF all_obj h -> WF all_obj h'.
Proof.
  intros P. apply WF_static. apply sameS_fmap, pc_only_sameS. exact P.
Qed.

Lemma FactsOK_pc_only all_obj h h' :
  pc_only h h' -> FactsOK all_obj h -> FactsOK all_obj h'.
Proof.
  intros P. apply FactsOK_frame; [apply pc_only_sameS | apply pc_only_sameO]; exact P.
Qed.

Lemma flat_map_nil {A B} (f : A -> list B) (l : list A) :
  (forall x, In x l -> f x = []) -> flat_map f l = [].
Proof.
  induction l as [| x l IH]; simpl; intros H; [reflexivity |].
  rewrite (H x (or_introl eq_refl)), IH; auto.
Qed.

(** Outside its image a round changes nothing. *)
Lemma image_round_outside all_obj h image od cl pl a o :
  WF all_obj h -> FactsOK all_obj h -> (image, od) ∈ all_obj ->
  a ∉ image_addrs od ->
  image_parent h cl pl od a o = HierObject.parent o
  /\ image_children h cl pl od a o = HierObject.children o.
Proof.
  intros W F Hin Ha. unfold image_parent, image_children.
  destruct (active cl pl od) as [[cs ps] |] eqn:E; [| auto].
  unfold active in E.
  destruct (dget cl od) as [[| c cs'] |] eqn:Ecl; try discriminate.
  destruct (dget pl od) as [[| p ps'] |] eqn:Epl; try discriminate.
  injection E as <- <-. split.
  - unfold new_parent. rewrite bool_decide_eq_false_2; [reflexivity |].
    intros Hc. apply Ha. exact (bucket_in_image _ _ _ _ Ecl Hc).
  - unfold init_children. rewrite bool_decide_eq_false_2
      by (intros Hc; apply Ha; exact (bucket_in_image _ _ _ _ Epl Hc)).
    replace (assigned h pl (c :: cs') a) with (@nil nat); [reflexivity |].
    symmetry. unfold assigned. apply flat_map_nil.
    intros c0 Hc0. apply list_elem_of_In in Hc0.
    pose proof (bucket_in_image _ _ _ _ Ecl Hc0) as Hc0'.
    destruct (F image od c0 Hin Hc0') as (oc & Hoc & _ & _). rewrite Hoc.
    destruct (chosen h pl oc) as [f |] eqn:Ech; [| reflexivity].
    destruct (chosen_candidate _ _ _ _ Ech) as (_ & Hf & _).
    destruct (fact_target_in_bucket _ _ _ _ _ _ _ _ W F Hin Hc0' Hoc Hf) as (Hfl & _).
    rewrite (proj2 (Nat.eqb_neq _ _)); [reflexivity |].
    intros Heq. rewrite Heq in Hfl. contradiction.
Qed.

Lemma find_parent_spec all_obj (h : list HierObject.t) (cl pl : string) :
  WF all_obj h -> FactsOK all_obj h ->
  exists h',
    find_parent all_obj cl pl h = (Ok tt, h')
    /\ pc_only h h'
    /\ (forall a, a ∉ all_addrs all_obj -> h' !! a = h !! a)
    /\ (forall image od a o,
          (image, od) ∈ all_obj -> a ∈ image_addrs od -> h !! a = Some o ->
          h' !! a = Some (pc (image_parent h cl pl od a o)
                             (image_children h cl pl od a o) o)).
Proof.
  intros W F.
  set (G := fun h1 : list HierObject.t => pc_only h h1).
  set (T := fun (od : list (string * list nat)) a o o' =>
              o' = pc (image_parent h cl pl od a o) (image_children h cl pl od a o) o).
  destruct (for_each_regions image_addrs G T (find_parent_image cl pl)
              (dvalues all_obj) (wf_nodup _ _ W)) with (h := h)
    as (h' & E & G' & Fr & Ht).
  - intros od Hod h1 P1.
    apply list_elem_of_fmap in Hod as ([image od'] & -> & Hin). simpl.
    pose proof (WF_pc_only _ _ _ P1 W) as W1.
    pose proof (FactsOK_pc_only _ _ _ P1 F) as F1.
    destruct (find_parent_image_spec all_obj h1 image od' cl pl W1 F1 Hin)
      as (h2 & E2 & L2 & T2).
    exists h2. split; [exact E2 |]. split; [| split].
    + eapply pc_only_trans; [exact P1 |]. eapply pointwise_pc_only; eauto.
    + intros a Ha. destruct (h1 !! a) as [o |] eqn:Ho.
      * rewrite (T2 _ _ Ho).
        destruct (image_round_outside _ _ _ _ cl pl a o W1 F1 Hin Ha) as [-> ->].
        rewrite pc_id. reflexivity.
      * apply lookup_ge_None. apply lookup_ge_None in Ho. lia.
    + intros a o Ha Ho. eexists. split; [apply T2; exact Ho |].
      unfold T, image_parent, image_children, new_parent.
      destruct (active cl pl od') as [[cs ps] |]; [| reflexivity].
      rewrite (chosen_heap _ _ _ _ P1), (assigned_pc _ _ _ _ _ P1). reflexivity.
  - apply pc_only_refl.
  - exists h'. split; [exact E |]. split; [exact G' |]. split; [exact Fr |].
    intros image od a o Hin Ha Ho.
    destruct (Ht od a o) as (o' & Ho' & ->); auto.
    apply list_elem_of_fmap. exists (image, od). auto.
Qed.

(** ** [find_parent]: what it assigns and what it leaves alone *)

Lemma active_Some cl pl od cs ps :
  active cl pl od = Some (cs, ps) ->
  dget_list cl od = cs /\ cs <> [] /\ dget_list pl od = ps /\ ps <> [].
Proof.
  unfold active, dget_list.
  destruct (dget cl od) as [[| c cs'] |]; try discriminate.
  destruct (dget pl od) as [[| p ps'] |]; try discriminate.
  intros [= <- <-]. simpl. repeat split; congruence.
Qed.

Lemma active_None cl pl od :
  active cl pl od = None -> dget_list cl od = [] \/ dget_list pl od = [].
Proof.
  unfold active, dget_list.
  destruct (dget cl od) as [[| c cs'] |]; simpl; auto.
  destruct (dget pl od) as [[| p ps'] |]; simpl; auto. discriminate.
Qed.

Lemma active_dget cl pl od cs ps :
  active cl pl od = Some (cs, ps) -> dget cl od = Some cs /\ dget pl od = Some ps.
Proof.
  unfold active.
  destruct (dget cl od) as [[| c cs'] |]; try discriminate.
  destruct (dget pl od) as [[| p ps'] |]; try discriminate.
  intros [= <- <-]. auto.
Qed.

Lemma fmap_lookup_eq {B} (g : HierObject.t -> B) (h h' : list HierObject.t) :
  (forall a, g <$> (h' !! a) = g <$> (h !! a)) -> g <$> h' = g <$> h.
Proof. intros H. apply list_eq. intros a. rewrite !list_lookup_fmap. apply H. Qed.

(** C10: [find_parent] gives every object of the parent class a
    [children] dictionary and every object of the child class a
    [parent] dictionary in the images that have both classes, leaves
    the objects of every other image as they are, and never touches
    the construction-time members, the overlap facts or the
    duplicate flags. *)
Theorem find_parent_frame
    (all_obj : list (string * list (string * list nat))) (h : list HierObject.t)
    (child_label parent_label : string) :
  wf_coll all_obj h = true -> facts_ok all_obj h = true ->
  exists h',
    find_parent all_obj child_label parent_label h = (Ok tt, h')
    /\ static <$> h' = static <$> h
    /\ HierObject.overlap <$> h' = HierObject.overlap <$> h
    /\ HierObject.duplicate <$> h' = HierObject.duplicate <$> h
    /\ forall k image od,
         all_obj !! k = Some (image, od) ->
         (dget_list child_label od <> [] -> dget_list parent_label od <> [] ->
          (forall a, a ∈ dget_list parent_label od ->
             exists o', h' !! a = Some o' /\ is_Some (HierObject.children o'))
          /\ (forall a, a ∈ dget_list child_label od ->
                exists o', h' !! a = Some o' /\ is_Some (HierObject.parent o')))
         /\ (dget_list child_label od = [] \/ dget_list parent_label od = [] ->
             forall a, a ∈ image_addrs od -> h' !! a = h !! a).
Proof.
  intros W F. apply wf_coll_WF in W. apply facts_ok_FactsOK in F.
  destruct (find_parent_spec all_obj h child_label parent_label W F)
    as (h' & E & P & _ & T).
  exists h'. split; [exact E |].
  split; [apply sameS_fmap, pc_only_sameS; exact P |].
  split; [apply fmap_lookup_eq, pc_only_sameO; exact P |].
  split; [apply fmap_lookup_eq, pc_only_sameD; exact P |].
  intros k image od Hk.
  assert (Hin : (image, od) ∈ all_obj) by (apply list_elem_of_lookup; eauto).
  split.
  - intros Hc Hp.
    destruct (active child_label parent_label od) as [[cs ps] |] eqn:Ea;
      [| apply active_None in Ea; tauto].
    destruct (active_Some _ _ _ _ _ Ea) as (Ecs & _ & Eps & _).
    destruct (active_dget _ _ _ _ _ Ea) as (Dcs & Dps).
    rewrite Ecs, Eps. split.
    + intros a Ha. pose proof (bucket_in_image _ _ _ _ Dps Ha) as Hi.
      destruct (WF_image_obj _ _ _ _ _ W Hin Hi) as (o & Ho & _).
      eexists. split; [apply (T _ _ _ _ Hin Hi Ho) |].
      simpl. unfold image_children. rewrite Ea. apply add_kids_is_Some.
      unfold init_children. rewrite bool_decide_eq_true_2 by exact Ha. eauto.
    + intros a Ha. pose proof (bucket_in_image _ _ _ _ Dcs Ha) as Hi.
      destruct (WF_image_obj _ _ _ _ _ W Hin Hi) as (o & Ho & _).
      eexists. split; [apply (T _ _ _ _ Hin Hi Ho) |].
      simpl. unfold image_parent, new_parent. rewrite Ea.
      rewrite bool_decide_eq_true_2 by exact Ha. eauto.
  - intros Hempty a Ha.
    destruct (WF_image_obj _ _ _ _ _ W Hin Ha) as (o & Ho & _).
    rewrite (T _ _ _ _ Hin Ha Ho), Ho. f_equal.
    unfold image_parent, image_children.
    destruct (active child_label parent_label od) as [[cs ps] |] eqn:Ea;
      [| apply pc_id].
    apply active_Some in Ea. destruct Hempty; exfalso; intuition congruence.
Qed.

Lemma find_parent_frame_witness :
  exists h',
    find_parent sample_all "Object" "Group" sample_flagged = (Ok tt, h')
    /\ static <$> h' = static <$> sample_flagged
    /\ HierObject.overlap <$> h' = HierObject.overlap <$> sample_flagged
    /\ HierObject.duplicate <$> h' = HierObject.duplicate <$> sample_flagged
    /\ forall k image od,
         sample_all !! k = Some (image, od) ->
         (dget_list "Object" od <> [] -> dget_list "Group" od <> [] ->
          (forall a, a ∈ dget_list "Group" od ->
             exists o', h' !! a = Some o' /\ is_Some (HierObject.children o'))
          /\ (forall a, a ∈ dget_list "Object" od ->
                exists o', h' !! a = Some o' /\ is_Some (HierObject.parent o')))
         /\ (dget_list "Object" od = [] \/ dget_list "Group" od = [] ->
             forall a, a ∈ image_addrs od -> h' !! a = sample_flagged !! a).
Proof.
  apply (find_parent_frame sample_all sample_flagged "Object" "Group").
  - vm_compute. reflexivity.
  - vm_compute. reflexivity.
Defined.

Lemma add_kids_dget cl kids ch :
  dget_list cl (default [] (add_kids cl kids ch))
  = dget_list cl (default [] ch) ++ kids.
Proof.
  revert ch. induction kids as [| i kids IH]; intros ch; simpl.
  - rewrite app_nil_r. reflexivity.
  - rewrite IH. simpl. rewrite dget_list_dappend, String.eqb_refl, <- app_assoc.
    reflexivity.
Qed.

Lemma init_children_default ps a o :
  default [] (init_children ps a o) = default [] (HierObject.children o).
Proof. unfold init_children. destruct (bool_decide (a ∈ ps)); reflexivity. Qed.

Lemma assigned_app h pl cs1 cs2 a :
  assigned h pl (cs1 ++ cs2) a = assigned h pl cs1 a ++ assigned h pl cs2 a.
Proof. unfold assigned. apply flat_map_app. Qed.

Lemma ranks_above_triple (a b : Overlap.t) : ranks_above a b <-> triple_ge a b.
Proof.
  unfold ranks_above, triple_ge, bool_lt, sort_key, key_ltb.
  destruct (Overlap.self_inside_other a), (Overlap.self_inside_other b),
    (Overlap.center_of_self a), (Overlap.center_of_self b); simpl;
    rewrite ?Qltb_nlt;
    (split;
     [ intros H; first [ discriminate H
                       | left; split; reflexivity
                       | right; split; [reflexivity |];
                         first [ left; split; reflexivity
                               | right; split; [reflexivity | exact H] ] ]
     | intros [[H1 H2] | [H1 [[H2 H3] | [H2 H3]]]];
       first [ discriminate | reflexivity | exact H3 ] ]).
Qed.

Lemma sort_for_parent_triple l : StronglySorted triple_ge (sort_for_parent l).
Proof.
  apply (StronglySorted_weaken ranks_above).
  - intros a b. apply ranks_above_triple.
  - apply sort_for_parent_sorted.
Qed.

Lemma kept_alt (cands : list Overlap.t) :
  kept cands =
  if existsb Overlap.self_inside_other cands
  then List.filter Overlap.self_inside_other cands
  else cands.
Proof.
  unfold kept. destruct cands as [| f [| g r]]; simpl; [reflexivity | |].
  - destruct (Overlap.self_inside_other f); reflexivity.
  - reflexivity.
Qed.

(** Ranked by the triple, the candidates that remain are the ones kept. *)
Lemma remaining_kept (cands ranked : list Overlap.t) :
  ranked ≡ₚ cands -> StronglySorted triple_ge ranked ->
  remaining ranked ≡ₚ kept cands.
Proof.
  intros P S. rewrite kept_alt.
  apply (StronglySorted_weaken _ ranks_above) in S;
    [| intros a b; apply ranks_above_triple].
  destruct ranked as [| top rest]; simpl.
  - apply Permutation_nil_l in P. subst cands. reflexivity.
  - destruct (Overlap.self_inside_other top) eqn:Ht.
    + assert (X : existsb Overlap.self_inside_other cands = true).
      { apply existsb_exists. exists top. split; [| exact Ht].
        apply list_elem_of_In. rewrite <- P. left. }
      rewrite X. rewrite <- (filter_perm _ _ _ P). simpl. rewrite Ht. reflexivity.
    + assert (X : existsb Overlap.self_inside_other cands = false).
      { destruct (existsb Overlap.self_inside_other cands) eqn:X; [| reflexivity].
        apply existsb_exists in X as (f & Hf & Hin).
        apply list_elem_of_In in Hf. rewrite <- P in Hf.
        pose proof (sorted_head_inside _ _ _ S Hf Hin). congruence. }
      rewrite X. exact P.
Qed.

Lemma single_perm {A} (l l' : list A) :
  l ≡ₚ l' ->
  match l with [x] => Some x | _ => None end
  = match l' with [x] => Some x | _ => None end.
Proof.
  intros P. pose proof (Permutation_length P) as L.
  destruct l as [| a [| b r]], l' as [| a' [| b' r']]; try discriminate L;
    try reflexivity.
  apply Permutation_singleton_r in P. injection P as ->. reflexivity.
Qed.

Lemma survivors_kept (cands : list Overlap.t) : survivors cands ≡ₚ kept cands.
Proof. rewrite kept_alt. apply survivors_perm. Qed.

Lemma chosen_settled h pl o : chosen h pl o = settled h pl o.
Proof.
  unfold chosen, settled. destruct (HierObject.truthy _); [reflexivity |].
  apply single_perm, survivors_kept.
Qed.

Lemma assigned_handed h pl cs b : assigned h pl cs b = handed h pl cs b.
Proof.
  unfold assigned, handed. induction cs as [| c cs IH]; simpl; [reflexivity |].
  rewrite IH. destruct (h !! c) as [oc |]; [| reflexivity].
  rewrite chosen_settled. reflexivity.
Qed.

Lemma kept_subset cands f : f ∈ kept cands -> f ∈ cands.
Proof.
  rewrite kept_alt. destruct (existsb _ cands); [| auto].
  rewrite list_elem_of_In, List.filter_In, <- list_elem_of_In. tauto.
Qed.

Lemma settled_candidate h pl o f :
  settled h pl o = Some f -> f ∈ candidates h pl o.
Proof.
  unfold settled. destruct (HierObject.truthy _); [discriminate |].
  destruct (kept (candidates h pl o)) as [| g [| g' r]] eqn:E; try discriminate.
  intros [= ->]. apply kept_subset. rewrite E. left.
Qed.

Lemma candidates_fact h pl o f : f ∈ candidates h pl o -> f ∈ facts_under pl o.
Proof.
  unfold candidates.
  rewrite list_elem_of_In, List.filter_In, <- list_elem_of_In. tauto.
Qed.

(** C1: [sort_for_parent] ranks by the triple, descending; ranked so,
    what remains of several candidates is what [kept] says; the
    [parent] dictionary of every child of the bucket is the old one
    with, when exactly one candidate is kept for a child that is no
    duplicate, the index of that candidate under the parent label,
    which is the position of the parent in its bucket; the children
    list of every object of the parent bucket is the old one followed
    by the indices of the children it was given, in the order of the
    child bucket; and [find_parent] raises no error. *)
Theorem find_parent_assignment
    (all_obj : list (string * list (string * list nat))) (h : list HierObject.t)
    (child_label parent_label : string) :
  wf_coll all_obj h = true -> facts_ok all_obj h = true ->
  (forall l, sort_for_parent l ≡ₚ l
             /\ StronglySorted triple_ge (sort_for_parent l))
  /\ (forall cands ranked,
        ranked ≡ₚ cands -> StronglySorted triple_ge ranked ->
        1 < length cands -> remaining ranked ≡ₚ kept cands)
  /\ exists h',
       find_parent all_obj child_label parent_label h = (Ok tt, h')
       /\ forall k image od,
            all_obj !! k = Some (image, od) ->
            (forall i a,
               dget_list child_label od !! i = Some a ->
               exists o o',
                 h !! a = Some o /\ h' !! a = Some o'
                 /\ HierObject.parent o'
                    = match dget_list parent_label od with
                      | [] => HierObject.parent o
                      | _ => Some (assign parent_label (settled h parent_label o)
                                     (default [] (HierObject.parent o)))
                      end
                 /\ forall over,
                      settled h parent_label o = Some over ->
                      dget_list parent_label od !! Overlap.index over
                      = Some (Overlap.obj over))
            /\ (forall j b,
                  dget_list parent_label od !! j = Some b ->
                  exists p p',
                    h !! b = Some p /\ h' !! b = Some p'
                    /\ HierObject.index p = j
                    /\ dget_list child_label (default [] (HierObject.children p'))
                       = dget_list child_label (default [] (HierObject.children p))
                         ++ handed h parent_label (dget_list child_label od) b).
Proof.
  intros W F. apply wf_coll_WF in W. apply facts_ok_FactsOK in F.
  split; [intros l; split; [apply sort_for_parent_perm | apply sort_for_parent_triple] |].
  split; [intros cands ranked P S _; apply remaining_kept; assumption |].
  destruct (find_parent_spec all_obj h child_label parent_label W F)
    as (h' & E & P & _ & T).
  exists h'. split; [exact E |].
  intros k image od Hk.
  assert (Hin : (image, od) ∈ all_obj) by (apply list_elem_of_lookup; eauto).
  assert (Bucket : forall lbl i a, dget_list lbl od !! i = Some a ->
            exists l, dget lbl od = Some l /\ l !! i = Some a
                      /\ dget_list lbl od = l /\ a ∈ image_addrs od).
  { intros lbl i a Hi. unfold dget_list in *.
    destruct (dget lbl od) as [l |] eqn:D; [| discriminate Hi].
    exists l. repeat split; auto.
    eapply bucket_in_image; [exact D |]. apply list_elem_of_lookup. eauto. }
  split.
  - intros i a Hi. destruct (Bucket _ _ _ Hi) as (cs & Dcs & Hia & Ecs & Ha).
    destruct (WF_image_obj _ _ _ _ _ W Hin Ha) as (o & Ho & _).
    exists o. eexists. split; [exact Ho |].
    split; [apply (T _ _ _ _ Hin Ha Ho) |]. split.
    + simpl. unfold image_parent.
      destruct (active child_label parent_label od) as [[cs' ps] |] eqn:Ea.
      * destruct (active_dget _ _ _ _ _ Ea) as (Dcs' & Dps).
        rewrite Dcs in Dcs'. injection Dcs' as <-.
        unfold new_parent. rewrite bool_decide_eq_true_2
          by (apply list_elem_of_lookup; eauto).
        rewrite chosen_settled. unfold dget_list. rewrite Dps.
        unfold active in Ea. rewrite Dcs, Dps in Ea.
        destruct cs as [| c0 cs0]; [discriminate Hia |].
        destruct ps as [| p0 ps0]; [discriminate Ea | reflexivity].
      * apply active_None in Ea. destruct Ea as [Ea | Ea].
        -- rewrite Ea in Hi. discriminate Hi.
        -- rewrite Ea. reflexivity.
    + intros over Es. apply settled_candidate, candidates_fact in Es.
      destruct (fact_target_in_bucket _ _ _ _ _ _ _ _ W F Hin Ha Ho Es)
        as (Hfl & p & ps & Hp & Hidx & Hl & Dps & _).
      destruct (WF_image_obj _ _ _ _ _ W Hin Hfl) as (p' & Hp' & _ & _ & l & Dl & Hi').
      rewrite Hp in Hp'. injection Hp' as <-.
      unfold dget_list. rewrite <- Hl, Dl, <- Hidx. exact Hi'.
  - intros j b Hj. destruct (Bucket _ _ _ Hj) as (ps & Dps & Hjb & Eps & Hb).
    destruct (wf_entry _ _ W _ _ _ _ _ _ Hin (dget_In _ _ _ Dps) Hjb)
      as (p & Hp & _ & _ & Ip & _).
    exists p. eexists. split; [exact Hp |].
    split; [apply (T _ _ _ _ Hin Hb Hp) |]. split; [exact Ip |].
    simpl. unfold image_children.
    destruct (active child_label parent_label od) as [[cs ps'] |] eqn:Ea.
    + destruct (active_dget _ _ _ _ _ Ea) as (Dcs & _).
      rewrite add_kids_dget, init_children_default, assigned_handed.
      unfold dget_list at 3. rewrite Dcs. reflexivity.
    + apply active_None in Ea. destruct Ea as [Ea | Ea].
      * rewrite Ea. simpl. rewrite app_nil_r. reflexivity.
      * rewrite Ea in Hj. discriminate Hj.
Qed.

Lemma find_parent_assignment_witness :
  exists h',
    find_parent sample_all "Object" "Group" sample_flagged = (Ok tt, h')
    /\ (exists o', h' !! 0 = Some o'
                   /\ HierObject.parent o' = Some [("Group"%string, 1)])
    /\ (exists p', h' !! 3 = Some p'
                   /\ dget_list "Object" (default [] (HierObject.children p')) = [0])
    /\ (exists p', h' !! 2 = Some p'
                   /\ dget_list "Object" (default [] (HierObject.children p')) = []).
Proof.
  destruct (find_parent_assignment sample_all sample_flagged "Object" "Group")
    as (_ & _ & h' & E & H).
  - vm_compute. reflexivity.
  - vm_compute. reflexivity.
  - exists h'. split; [exact E |].
    destruct (H 0 "i1"%string
                [("Object"%string, [0; 1; 4]); ("Group"%string, [2; 3])] eq_refl)
      as (Hc & Hp).
    split; [| split].
    + destruct (Hc 0 0 eq_refl) as (o & o' & Ho & Ho' & Hs & _).
      exists o'. split; [exact Ho' |]. rewrite Hs.
      vm_compute in Ho. injection Ho as <-. vm_compute. reflexivity.
    + destruct (Hp 1 3 eq_refl) as (p & p' & Hp0 & Hp' & _ & Hk).
      exists p'. split; [exact Hp' |]. rewrite Hk.
      vm_compute in Hp0. injection Hp0 as <-. vm_compute. reflexivity.
    + destruct (Hp 0 2 eq_refl) as (p & p' & Hp0 & Hp' & _ & Hk).
      exists p'. split; [exact Hp' |]. rewrite Hk.
      vm_compute in Hp0. injection Hp0 as <-. vm_compute. reflexivity.
Defined.

(** ** Symmetry of the overlap measures *)

Lemma pymin_comm (a b : Q) : (pymin a b == pymin b a)%Q.
Proof.
  unfold pymin. destruct (Qltb b a) eqn:E1, (Qltb a b) eqn:E2;
    rewrite ?Qltb_lt, ?Qltb_nlt in *; lra.
Qed.

Lemma pymax_comm (a b : Q) : (pymax a b == pymax b a)%Q.
Proof.
  unfold pymax. destruct (Qltb b a) eqn:E1, (Qltb a b) eqn:E2;
    rewrite ?Qltb_lt, ?Qltb_nlt in *; lra.
Qed.

Lemma overlap_w_comm o1 o2 : (overlap_w o1 o2 == overlap_w o2 o1)%Q.
Proof.
  unfold overlap_w.
  pose proof (pymin_comm (HierObject.x1 o1) (HierObject.x1 o2)).
  pose proof (pymax_comm (HierObject.x0 o1) (HierObject.x0 o2)). lra.
Qed.

Lemma overlap_h_comm o1 o2 : (overlap_h o1 o2 == overlap_h o2 o1)%Q.
Proof.
  unfold overlap_h.
  pose proof (pymin_comm (HierObject.y1 o1) (HierObject.y1 o2)).
  pose proof (pymax_comm (HierObject.y0 o1) (HierObject.y0 o2)). lra.
Qed.

Lemma has_intersection_comm o1 o2 :
  HierObject.has_intersection o1 o2 = HierObject.has_intersection o2 o1.
Proof.
  pose proof (overlap_w_comm o1 o2). pose proof (overlap_h_comm o1 o2).
  destruct (HierObject.has_intersection o1 o2) eqn:E1,
    (HierObject.has_intersection o2 o1) eqn:E2; try reflexivity.
  - apply has_intersection_iff in E1 as [? ?].
    assert (E : HierObject.has_intersection o2 o1 = true)
      by (apply has_intersection_iff; split; lra). congruence.
  - apply has_intersection_iff in E2 as [? ?].
    assert (E : HierObject.has_intersection o1 o2 = true)
      by (apply has_intersection_iff; split; lra). congruence.
Qed.

Lemma intersection_area_comm o1 o2 :
  (HierObject.intersection_area o1 o2 == HierObject.intersection_area o2 o1)%Q.
Proof.
  pose proof (overlap_w_comm o1 o2) as Hw. pose proof (overlap_h_comm o1 o2) as Hh.
  unfold HierObject.intersection_area.
  fold (overlap_w o1 o2) (overlap_h o1 o2) (overlap_w o2 o1) (overlap_h o2 o1).
  destruct (Qleb (overlap_w o1 o2) 0) eqn:A1, (Qleb (overlap_h o1 o2) 0) eqn:B1,
    (Qleb (overlap_w o2 o1) 0) eqn:A2, (Qleb (overlap_h o2 o1) 0) eqn:B2;
    simpl; rewrite ?Qleb_le, ?Qleb_nle in *; try reflexivity; try lra.
  rewrite Hw, Hh. reflexivity.
Qed.

(** ** Duplicate flags of two objects of one class *)




(** What [find_duplicates] does to a collection with overlap facts. *)
Lemma find_duplicates_ok all_obj (h : list HierObject.t) :
  WF all_obj h -> FactsOK all_obj h ->
  exists h',
    find_duplicates all_obj h = (Ok tt, h')
    /\ WF all_obj h' /\ FactsOK all_obj h'
    /\ length h' = length h
    /\ (forall a o, a ∈ all_addrs all_obj -> h !! a = Some o ->
          h' !! a = Some (HierObject.set_duplicate (Some (dup_flag o)) o))
    /\ (forall a, a ∉ all_addrs all_obj -> h' !! a = h !! a).
Proof.
  intros W F.
  destruct (find_duplicates_spec all_obj h (wf_nodup _ _ W) (FactsOK_populated _ _ F))
    as (h' & E & Fr & T).
  assert (Pt : forall a o, h !! a = Some o ->
                 exists d, h' !! a = Some (HierObject.set_duplicate d o)).
  { intros a o Ho. destruct (decide (a ∈ all_addrs all_obj)) as [Ha | Ha].
    - rewrite (T a o Ha Ho). eauto.
    - rewrite Fr by exact Ha. exists (HierObject.duplicate o).
      rewrite Ho. destruct o; reflexivity. }
  assert (L : length h' = length h).
  { destruct (Nat.lt_trichotomy (length h') (length h)) as [H | [H | H]]; [| exact H |].
    - destruct (lookup_lt_is_Some_2 h (length h') H) as [o Ho].
      destruct (Pt _ _ Ho) as (d & Hd). apply lookup_lt_Some in Hd. lia.
    - destruct (lookup_lt_is_Some_2 h' (length h) H) as [o Ho].
      rewrite Fr in Ho; [apply lookup_lt_Some in Ho; lia |].
      intros Ha. destruct (WF_constructed _ _ W _ Ha) as (o0 & Ho0 & _).
      apply lookup_lt_Some in Ho0. lia. }
  assert (Same : forall (B : Type) (g : HierObject.t -> B),
             (forall d o, g (HierObject.set_duplicate d o) = g o) ->
             forall a, g <$> (h' !! a) = g <$> (h !! a)).
  { intros B g Hg a. destruct (h !! a) as [o |] eqn:Ho.
    - destruct (Pt _ _ Ho) as (d & ->). simpl. rewrite Hg. reflexivity.
    - replace (h' !! a) with (@None HierObject.t); [reflexivity |].
      symmetry. apply lookup_ge_None. apply lookup_ge_None in Ho. lia. }
  assert (ES : sameS h h') by exact (Same _ static (fun _ _ => eq_refl)).
  assert (EO : sameO h h') by exact (Same _ HierObject.overlap (fun _ _ => eq_refl)).
  exists h'. split; [exact E |].
  split; [apply (WF_static _ h); [apply sameS_fmap; exact ES | exact W] |].
  split; [eapply FactsOK_frame; eauto |]. auto.
Qed.





(** The run of [compare] in binary64 stores the same [iou], one half. *)
Lemma near_half_float :
  exists h',
    Float64.compare 0 1 (float_objects near_half_rows 0) = (Ok tt, h')
    /\ Forall (fun o => exists f, facts_under "Object" o = [f]
                                  /\ (Overlap.iou f == 1 # 2)%Q) h'.
Proof.
  eexists. split; [vm_compute; reflexivity |].
  repeat constructor; eexists; (split; [vm_compute; reflexivity |]);
    vm_compute; reflexivity.
Qed.

(** ** [get_hierarchy] and duplicates *)

Lemma assigned_dup_nil all_obj h image od pl cs a o :
  FactsOK all_obj h -> (image, od) ∈ all_obj ->
  (forall c, c ∈ cs -> c ∈ image_addrs od) ->
  h !! a = Some o -> HierObject.truthy (HierObject.duplicate o) = true ->
  assigned h pl cs a = [].
Proof.
  intros F Hin Hcs Ho Hd. unfold assigned. apply flat_map_nil.
  intros c Hc. apply list_elem_of_In in Hc.
  destruct (F image od c Hin (Hcs c Hc)) as (oc & Hoc & _). rewrite Hoc.
  destruct (chosen h pl oc) as [f |] eqn:Ech; [| reflexivity].
  destruct (chosen_candidate _ _ _ _ Ech) as (_ & _ & _ & Hnd).
  destruct (Nat.eqb_spec (Overlap.obj f) a) as [Heq | Hne]; [| reflexivity].
  unfold dup_at in Hnd. rewrite Heq, Ho in Hnd. congruence.
Qed.

Lemma find_parent_preserves all_obj (h : list HierObject.t) (cl pl : string) :
  WF all_obj h -> FactsOK all_obj h -> dup_bare all_obj h -> parents_sound all_obj h ->
  exists h',
    find_parent all_obj cl pl h = (Ok tt, h')
    /\ pc_only h h' /\ WF all_obj h' /\ FactsOK all_obj h'
    /\ dup_bare all_obj h' /\ parents_sound all_obj h'.
Proof.
  intros W F B S.
  destruct (find_parent_spec all_obj h cl pl W F) as (h' & E & P & _ & T).
  exists h'. split; [exact E |]. split; [exact P |].
  split; [eapply WF_pc_only; eauto |]. split; [eapply FactsOK_pc_only; eauto |].
  assert (Shape : forall a o', a ∈ all_addrs all_obj -> h' !! a = Some o' ->
            exists image od o, (image, od) ∈ all_obj /\ a ∈ image_addrs od
              /\ h !! a = Some o
              /\ o' = pc (image_parent h cl pl od a o) (image_children h cl pl od a o) o).
  { intros a o' Ha Ho'. apply elem_of_all_addrs in Ha as (image & od & Hin & Ha).
    destruct (WF_image_obj _ _ _ _ _ W Hin Ha) as (o & Ho & _).
    rewrite (T _ _ _ _ Hin Ha Ho) in Ho'. injection Ho' as <-. eauto 10. }
  split.
  - intros a o' Ha Ho' Hd.
    destruct (Shape a o' Ha Ho') as (image & od & o & Hin & Hai & Ho & ->).
    simpl in Hd. destruct (B a o Ha Ho Hd) as [Bp Bc]. simpl.
    unfold image_parent, image_children.
    destruct (active cl pl od) as [[cs ps] |] eqn:Ea; [| auto].
    destruct (active_dget _ _ _ _ _ Ea) as (Dcs & Dps).
    rewrite (assigned_dup_nil all_obj h image od pl cs a o F Hin
               (fun c Hc => bucket_in_image _ _ _ _ Dcs Hc) Ho Hd).
    simpl. unfold new_parent, init_children, chosen. rewrite Hd. simpl. split.
    + destruct (bool_decide (a ∈ cs)); [| exact Bp].
      right. destruct Bp as [-> | ->]; reflexivity.
    + destruct (bool_decide (a ∈ ps)); [| exact Bc].
      right. destruct Bc as [-> | ->]; reflexivity.
  - intros a o' pl0 idx Ha Ho' Hget.
    destruct (Shape a o' Ha Ho') as (image & od & o & Hin & Hai & Ho & ->).
    simpl in Hget. change (facts_under pl0 (pc ?x ?y o)) with (facts_under pl0 o).
    assert (Old : dget pl0 (default [] (HierObject.parent o)) = Some idx ->
              exists f, f ∈ facts_under pl0 o /\ Overlap.center_of_self f = true
                        /\ dup_at h' (Overlap.obj f) = false /\ Overlap.index f = idx).
    { intros Hg. destruct (S a o pl0 idx Ha Ho Hg) as (f & H1 & H2 & H3 & H4).
      exists f. rewrite (pc_only_dup_at _ _ _ P). auto. }
    unfold image_parent in Hget.
    destruct (active cl pl od) as [[cs ps] |]; [| auto].
    unfold new_parent in Hget. destruct (bool_decide (a ∈ cs)); [| auto].
    simpl in Hget. destruct (chosen h pl o) as [f |] eqn:Ech; simpl in Hget; [| auto].
    destruct (String.eqb_spec pl pl0) as [<- | Hne].
    + rewrite dget_dset_eq in Hget. injection Hget as <-.
      destruct (chosen_candidate _ _ _ _ Ech) as (_ & H1 & H2 & H3).
      exists f. rewrite (pc_only_dup_at _ _ _ P). auto.
    + rewrite dget_dset_ne in Hget by exact Hne. auto.
Qed.

Lemma fresh_spec all_obj h :
  fresh all_obj h = true ->
  forall a o, a ∈ all_addrs all_obj -> h !! a = Some o ->
    HierObject.parent o = None /\ HierObject.children o = None.
Proof.
  unfold fresh. rewrite forallb_elem_of. intros H a o Ha Ho.
  specialize (H a Ha). rewrite Ho in H.
  destruct (HierObject.parent o), (HierObject.children o); try discriminate. auto.
Qed.

(** C4: after [get_hierarchy] on a fresh collection, an object flagged
    duplicate has no parent entry and no children; and an object
    whose facts under a label with the center inside are all about
    duplicates has no parent under that label. *)
Theorem get_hierarchy_duplicates
    (all_obj : list (string * list (string * list nat))) (h : list HierObject.t)
    (child_parent_list : option (list (string * string))) :
  wf_coll all_obj h = true -> fresh all_obj h = true ->
  exists h',
    get_hierarchy all_obj child_parent_list h = (Ok tt, h')
    /\ forall i a, all_addrs all_obj !! i = Some a ->
         exists o',
           h' !! a = Some o'
           /\ is_Some (HierObject.duplicate o')
           /\ (HierObject.duplicate o' = Some true ->
               (HierObject.parent o' = None \/ HierObject.parent o' = Some [])
               /\ (HierObject.children o' = None
                   \/ HierObject.children o' = Some []))
           /\ (forall pl,
                 (forall f, f ∈ facts_under pl o' ->
                            Overlap.center_of_self f = true ->
                            dup_at h' (Overlap.obj f) = true) ->
                 dget pl (default [] (HierObject.parent o')) = None).
Proof.
  intros W Fr. apply wf_coll_WF in W.
  destruct (find_overlapping_objects_ok all_obj h W) as (h1 & E1 & W1 & F1 & T1 & L1).
  destruct (find_duplicates_ok all_obj h1 W1 F1)
    as (h2 & E2 & W2 & F2 & L2 & T2 & _).
  assert (Bare : forall a o2, a ∈ all_addrs all_obj -> h2 !! a = Some o2 ->
            HierObject.parent o2 = None /\ HierObject.children o2 = None
            /\ is_Some (HierObject.duplicate o2)).
  { intros a o2 Ha Ho2. destruct (WF_constructed _ _ W a Ha) as (o & Ho & _).
    destruct (T1 a o Ho) as (o1 & Ho1 & Eo1).
    rewrite (T2 a o1 Ha Ho1) in Ho2. injection Ho2 as <-.
    destruct (fresh_spec _ _ Fr a o Ha Ho) as [Hp Hc].
    rewrite Eo1. simpl. rewrite Hp, Hc. eauto. }
  set (I := fun h3 : list HierObject.t =>
              WF all_obj h3 /\ FactsOK all_obj h3 /\ dup_bare all_obj h3
              /\ parents_sound all_obj h3 /\ sameD h2 h3).
  assert (I2 : I h2).
  { unfold I. split; [exact W2 |]. split; [exact F2 |].
    split; [| split; [| intros a; reflexivity]].
    - intros a o Ha Ho _. destruct (Bare a o Ha Ho) as (-> & -> & _). auto.
    - intros a o pl idx Ha Ho Hg. destruct (Bare a o Ha Ho) as (Hp & _).
      rewrite Hp in Hg. discriminate. }
  assert (Loop : forall l : list (string * string),
            exists h', for_each l (fun '(child_label, parent_label) =>
                           find_parent all_obj child_label parent_label) h2
                       = (Ok tt, h') /\ I h').
  { intros l. apply for_each_inv; [| exact I2].
    intros [cl pl] h3 _ (W3 & F3 & B3 & S3 & D3).
    destruct (find_parent_preserves all_obj h3 cl pl W3 F3 B3 S3)
      as (h4 & E4 & P4 & W4 & F4 & B4 & S4).
    exists h4. split; [exact E4 |]. unfold I.
    split; [exact W4 |]. split; [exact F4 |]. split; [exact B4 |].
    split; [exact S4 |].
    intros a. rewrite (pc_only_sameD _ _ P4 a). apply D3. }
  assert (Fin : exists h',
            get_hierarchy all_obj child_parent_list h = (Ok tt, h') /\ I h').
  { unfold get_hierarchy. rewrite (bind_ok _ _ _ _ _ E1), (bind_ok _ _ _ _ _ E2).
    destruct child_parent_list as [[| pr l] |].
    - exists h2. split; [reflexivity | exact I2].
    - apply (Loop (pr :: l)).
    - exists h2. split; [reflexivity | exact I2]. }
  destruct Fin as (h' & E & W' & F' & B' & S' & D').
  exists h'. split; [exact E |]. intros i a Hi.
  assert (Ha : a ∈ all_addrs all_obj) by (apply list_elem_of_lookup; eauto).
  destruct (WF_constructed _ _ W' a Ha) as (o' & Ho' & _).
  exists o'. split; [exact Ho' |]. split; [| split].
  - specialize (D' a). rewrite Ho' in D'.
    destruct (h2 !! a) as [o2 |] eqn:Ho2; simpl in D'; [| discriminate].
    injection D' as ->. apply (Bare a o2 Ha Ho2).
  - intros Hd. apply (B' a o' Ha Ho'). rewrite Hd. reflexivity.
  - intros pl Hall.
    destruct (dget pl (default [] (HierObject.parent o'))) as [idx |] eqn:Hg;
      [| reflexivity].
    destruct (S' a o' pl idx Ha Ho' Hg) as (f & H1 & H2 & H3 & _).
    rewrite (Hall f H1 H2) in H3. discriminate.
Qed.

Lemma get_hierarchy_duplicates_witness :
  exists h',
    get_hierarchy sample_all (Some [("Object", "Group")]%string) sample_heap
    = (Ok tt, h')
    /\ exists o', h' !! 2 = Some o'
                  /\ HierObject.duplicate o' = Some true
                  /\ HierObject.children o' = Some [].
Proof.
  destruct (get_hierarchy_duplicates sample_all sample_heap
              (Some [("Object", "Group")]%string)) as (h' & E & H).
  - vm_compute. reflexivity.
  - vm_compute. reflexivity.
  - exists h'. split; [exact E |].
    destruct (H 3 2 eq_refl) as (o' & Ho' & _ & _ & _).
    exists o'. split; [exact Ho' |].
    vm_compute in E. injection E as <-.
    vm_compute in Ho'. injection Ho' as <-. split; reflexivity.
Defined.

(** ** Examples on the sample data *)

Lemma compare_no_intersection_witness :
  compare 0 4 sample_overlapped = (Ok tt, sample_overlapped).
Proof.
  refine (proj2 (compare_no_intersection sample_overlapped 0 4 _ _ _ _ _)).
  - vm_compute. reflexivity.
  - vm_compute. reflexivity.
  - left. apply Qltb_nlt. vm_compute. reflexivity.
Defined.



Lemma find_overlapping_objects_pairs_witness :
  exists h',
    find_overlapping_objects sample_all sample_heap = (Ok tt, h')
    /\ exists oa' ob',
         h' !! 0 = Some oa' /\ h' !! 2 = Some ob'
         /\ length (about 2 (facts_under "Group" oa')) = 1
         /\ length (about 0 (facts_under "Object" ob')) = 1.
Proof.
  destruct (find_overlapping_objects_pairs sample_all sample_heap)
    as (h' & E & H).
  - vm_compute. reflexivity.
  - exists h'. split; [exact E |].
    destruct (H 0 "i1"%string
                [("Object"%string, [0; 1; 4]); ("Group"%string, [2; 3])]
                0 3 0 2 eq_refl eq_refl eq_refl ltac:(lia))
      as (oa & ob & oa' & ob' & Hoa & Hob & Hoa' & Hob' & Hp).
    exists oa', ob'. split; [exact Hoa' |]. split; [exact Hob' |].
    vm_compute in Hoa. injection Hoa as <-.
    vm_compute in Hob. injection Hob as <-.
    change (HierObject.has_intersection _ _) with true in Hp.
    destruct Hp as (f & g & Hf & Hg & _).
    rewrite (Hf "Group"%string), (Hg "Object"%string). split; reflexivity.
Defined.

(** C5: the example program.  Two objects and a group are constructed
    in this order in one image; after [get_hierarchy] with the pair
    (Object, Group) the group has the first object as its only child,
    the first object has the group as parent, and the second object,
    whose center is outside the group, has no parent. *)
Theorem main_hierarchy :
  let '(r, s') := main empty_state in
  r = Ok [0; 1; 2]
  /\ exists hobj1 hobj2 hobj3,
       heap s' !! 0 = Some hobj1 /\ heap s' !! 1 = Some hobj2
       /\ heap s' !! 2 = Some hobj3
       /\ (HierObject.label hobj1, HierObject.index hobj1) = ("Object"%string, 0)
       /\ (HierObject.label hobj2, HierObject.index hobj2) = ("Object"%string, 1)
       /\ (HierObject.label hobj3, HierObject.index hobj3) = ("Group"%string, 0)
       /\ dget "Object" (default [] (HierObject.children hobj3)) = Some [0]
       /\ dget "Group" (default [] (HierObject.parent hobj1)) = Some 0
       /\ HierObject.parent hobj2 = Some []
       /\ HierObject.center_is_inside hobj2 hobj3 = false.
Proof.
  vm_compute. split; [reflexivity |].
  eexists _, _, _. repeat split; reflexivity.
Qed.

Example test60SortForParent :
  map Overlap.index (sort_for_parent overlap_5) = [0; 2; 3; 1; 5]
  /\ map Overlap.index (sort_for_parent (rev overlap_5)) = [0; 2; 3; 1; 5].
Proof. split; reflexivity. Qed.

(** ** Construction keeps the collection well formed *)

Lemma dset_decomp {V} (k : string) (v : V) (d : list (string * V)) :
  (dget k d = None /\ dset k v d = d ++ [(k, v)])
  \/ (exists d1 vold d2,
        d = d1 ++ (k, vold) :: d2 /\ dget k d = Some vold
        /\ dset k v d = d1 ++ (k, v) :: d2).
Proof.
  induction d as [| [k' v'] d IH]; simpl.
  - left. auto.
  - destruct (String.eqb_spec k k') as [<- | Hne].
    + right. exists [], v', d. auto.
    + destruct IH as [[H1 H2] | (d1 & vold & d2 & H1 & H2 & H3)].
      * left. rewrite H2. auto.
      * right. exists ((k', v') :: d1), vold, d2. rewrite H1 at 1. rewrite H3. auto.
Qed.

(** Putting under [k] a value that holds one more address, [a], adds
    [a] to the addresses of the dictionary. *)
Lemma dset_addrs {V} (f : V -> list nat) (v0 : V) (k : string) (v : V)
    (d : list (string * V)) (a : nat) :
  f v0 = [] -> f v ≡ₚ a :: f (default v0 (dget k d)) ->
  concat (map f (dvalues (dset k v d))) ≡ₚ a :: concat (map f (dvalues d)).
Proof.
  intros H0 Hv. unfold dvalues.
  destruct (dset_decomp k v d) as [[H1 H2] | (d1 & vold & d2 & H1 & H2 & H3)].
  - rewrite H2, H1 in *. simpl in Hv. rewrite H0 in Hv.
    rewrite !map_app, concat_app. simpl. rewrite app_nil_r, Hv.
    rewrite Permutation_app_comm. reflexivity.
  - rewrite H3, H2 in *. simpl in Hv. rewrite H1.
    rewrite !map_app, !concat_app. simpl. rewrite Hv. simpl.
    rewrite <- Permutation_middle. reflexivity.
Qed.

Lemma dkeys_dset {V} (k : string) (v : V) (d : list (string * V)) :
  NoDup (dkeys d) -> NoDup (dkeys (dset k v d)).
Proof.
  intros ND. unfold dkeys in *.
  destruct (dset_decomp k v d) as [[H1 H2] | (d1 & vold & d2 & H1 & H2 & H3)].
  - rewrite H2, map_app. simpl. apply NoDup_app. split; [exact ND |].
    split; [| apply NoDup_singleton].
    intros x Hx Hk. apply list_elem_of_singleton in Hk. subst x.
    apply list_elem_of_fmap in Hx as ([k' v'] & E & Hin). simpl in E. subst k'.
    rewrite (In_dget _ _ _ ND Hin) in H1. discriminate.
  - rewrite H3. rewrite H1 in ND. rewrite map_app in *. exact ND.
Qed.

Lemma elem_of_dset {V} (k k' : string) (v v' : V) (d : list (string * V)) :
  NoDup (dkeys d) -> (k', v') ∈ dset k v d ->
  (k' = k /\ v' = v) \/ (k' <> k /\ (k', v') ∈ d).
Proof.
  intros ND Hin. pose proof (dkeys_dset k v d ND) as ND'.
  apply (In_dget _ _ _ ND') in Hin.
  destruct (String.eqb_spec k k') as [<- | Hne].
  - rewrite dget_dset_eq in Hin. injection Hin as <-. auto.
  - rewrite dget_dset_ne in Hin by exact Hne. right. split; [congruence |].
    apply dget_In. exact Hin.
Qed.

Lemma WF_nil_image all_obj h image :
  WF all_obj h -> NoDup (dkeys (default [] (dget image all_obj))).
Proof.
  intros W. destruct (dget image all_obj) as [od |] eqn:E; simpl.
  - eapply wf_labels; [exact W |]. apply dget_In. exact E.
  - constructor.
Qed.

(** The collection after [register] is well formed over the heap with
    the new object at its end. *)
Lemma register_WF all_obj (h : list HierObject.t) (o : HierObject.t) :
  WF all_obj h -> NoDup (dkeys all_obj) -> geom_ok o = true ->
  let '(d', idx) := register (HierObject.imageID o) (HierObject.label o)
                      (length h) all_obj in
  HierObject.index o = idx ->
  WF d' (h ++ [o]) /\ NoDup (dkeys d')
  /\ all_addrs d' ≡ₚ length h :: all_addrs all_obj.
Proof.
  intros W NDk Go. unfold register.
  set (image := HierObject.imageID o). set (lbl := HierObject.label o).
  set (od := default [] (dget image all_obj)).
  set (bk := dget_list lbl od). intros Hidx.
  rewrite length_app in Hidx. simpl in Hidx.
  assert (Hidx' : HierObject.index o = length bk) by lia. clear Hidx.
  assert (NDod : NoDup (dkeys od)) by (apply WF_nil_image with (h := h); exact W).
  assert (Pimg : image_addrs (dset lbl (bk ++ [length h]) od)
                 ≡ₚ length h :: image_addrs od).
  { unfold image_addrs.
    pose proof (dset_addrs (fun l : list nat => l) [] lbl (bk ++ [length h]) od
                  (length h) eq_refl) as P.
    rewrite !map_id in P. apply P. unfold bk, dget_list.
    rewrite Permutation_app_comm. reflexivity. }
  assert (Pall : all_addrs (dset image (dset lbl (bk ++ [length h]) od) all_obj)
                 ≡ₚ length h :: all_addrs all_obj).
  { unfold all_addrs. apply (dset_addrs image_addrs []); [reflexivity |].
    exact Pimg. }
  assert (Valid : forall a, a ∈ all_addrs all_obj -> a < length h).
  { intros a Ha. destruct (WF_constructed _ _ W a Ha) as (oa & Hoa & _).
    eapply lookup_lt_Some; eauto. }
  split; [| split; [apply dkeys_dset; exact NDk | exact Pall]].
  split.
  - rewrite Pall. apply NoDup_cons. split; [| apply (wf_nodup _ _ W)].
    intros Hin. apply Valid in Hin. lia.
  - intros image' od' Hin.
    apply (elem_of_dset _ _ _ _ _ NDk) in Hin as [[-> ->] | [_ Hin]].
    + apply dkeys_dset. exact NDod.
    + eapply wf_labels; eauto.
  - intros image' od' lbl' l i a Hin Hl Hi.
    assert (Old : forall image0 od0, (image0, od0) ∈ all_obj -> (lbl', l) ∈ od0 ->
              exists o0, (h ++ [o]) !! a = Some o0 /\ HierObject.imageID o0 = image0
                         /\ HierObject.label o0 = lbl' /\ HierObject.index o0 = i
                         /\ geom_ok o0 = true).
    { intros image0 od0 H1 H2.
      destruct (wf_entry _ _ W _ _ _ _ _ _ H1 H2 Hi) as (o0 & Ho0 & ?).
      exists o0. split; [| assumption].
      rewrite lookup_app_l by (eapply lookup_lt_Some; eauto). exact Ho0. }
    apply (elem_of_dset _ _ _ _ _ NDk) in Hin as [[-> ->] | [_ Hin]]; [| eauto].
    assert (Hod : forall l0, (lbl', l0) ∈ od -> l0 = l ->
              exists o0, (h ++ [o]) !! a = Some o0 /\ HierObject.imageID o0 = image
                         /\ HierObject.label o0 = lbl' /\ HierObject.index o0 = i
                         /\ geom_ok o0 = true).
    { intros l0 H0 ->. unfold od in H0.
      destruct (dget image all_obj) as [od0 |] eqn:Ed; simpl in H0; [| inversion H0].
      apply (Old image od0); [apply dget_In; exact Ed | exact H0]. }
    apply (elem_of_dset _ _ _ _ _ NDod) in Hl as [[-> ->] | [_ Hl]]; [| eauto].
    destruct (decide (i < length bk)) as [Hlt | Hge].
    + rewrite lookup_app_l in Hi by exact Hlt.
      assert (Hbk : (lbl, bk) ∈ od).
      { unfold bk, dget_list in *. destruct (dget lbl od) as [l0 |] eqn:El.
        - apply dget_In. exact El.
        - simpl in Hlt. lia. }
      unfold od in Hbk.
      destruct (dget image all_obj) as [od0 |] eqn:Ed; simpl in Hbk; [| inversion Hbk].
      destruct (wf_entry _ _ W _ _ _ _ _ _ (dget_In _ _ _ Ed) Hbk Hi)
        as (o0 & Ho0 & ?).
      exists o0. split; [| assumption].
      rewrite lookup_app_l by (eapply lookup_lt_Some; eauto). exact Ho0.
    + rewrite lookup_app_r in Hi by lia.
      destruct (i - length bk) as [| n] eqn:En; simpl in Hi; [| discriminate].
      injection Hi as <-. exists o.
      rewrite list_lookup_middle by reflexivity.
      repeat split; auto. lia.
Qed.

(** Every successful call of the constructor on a well-formed, fresh
    collection leaves it well formed and fresh. *)
Lemma HierObject_init_wf (r : Row) (c : cid) (s s' : State)
    (d : list (string * list (string * list nat))) (a : addr) :
  colls s !! c = Some d -> NoDup (dkeys d) ->
  wf_coll d (heap s) = true -> fresh d (heap s) = true ->
  HierObject_init r (Some c) s = (Ok a, s') ->
  exists d', colls s' !! c = Some d' /\ NoDup (dkeys d')
             /\ wf_coll d' (heap s') = true /\ fresh d' (heap s') = true.
Proof.
  intros Hd NDk W Fr. apply wf_coll_WF in W.
  unfold HierObject_init, resolve_all, bind, ret.
  destruct (HierObject.derive r) as [g |] eqn:Dg; [| discriminate].
  rewrite Hd. destruct g as [[[p xc] yc] area].
  set (idx := length (dget_list (HierObject.p_label p)
                        (default [] (dget (HierObject.p_imageID p) d))
                      ++ [length (heap s)]) - 1).
  set (o := HierObject.build r c (p, xc, yc, area) idx).
  pose proof (register_WF d (heap s) o W NDk (geom_ok_build r c _ idx Dg)) as R.
  unfold register in *. fold idx in R.
  change (HierObject.imageID o) with (HierObject.p_imageID p) in R.
  change (HierObject.label o) with (HierObject.p_label p) in R.
  specialize (R eq_refl). destruct R as (W' & NDk' & Pall).
  simpl. fold idx. fold o. intros [= <- <-]. simpl.
  eexists. split; [apply list_lookup_insert_eq; eapply lookup_lt_Some; eauto |].
  split; [exact NDk' |]. split; [apply wf_coll_WF; exact W' |].
  unfold fresh. apply forallb_elem_of. intros b Hb.
  rewrite Pall in Hb. apply elem_of_cons in Hb as [-> | Hb].
  - rewrite list_lookup_middle by reflexivity. reflexivity.
  - destruct (WF_constructed _ _ W b Hb) as (ob & Hob & _).
    rewrite lookup_app_l by (eapply lookup_lt_Some; eauto). rewrite Hob.
    destruct (fresh_spec _ _ Fr b ob Hb Hob) as [-> ->]. reflexivity.
Qed.

(** So does every sequence of constructor calls on one collection. *)
Lemma construct_wf (rows : list Row) (c : cid) :
  forall (s s' : State) (d : list (string * list (string * list nat)))
         (addrs : list addr),
    colls s !! c = Some d -> NoDup (dkeys d) ->
    wf_coll d (heap s) = true -> fresh d (heap s) = true ->
    construct rows (Some c) s = (Ok addrs, s') ->
    exists d', colls s' !! c = Some d' /\ NoDup (dkeys d')
               /\ wf_coll d' (heap s') = true /\ fresh d' (heap s') = true.
Proof.
  induction rows as [| r rows IH]; intros s s' d addrs Hd NDk W Fr E.
  - injection E as _ <-. eauto.
  - cbn [construct] in E. unfold bind in E.
    destruct (HierObject_init r (Some c) s) as [[a | e] s1] eqn:E1; [| discriminate].
    destruct (HierObject_init_wf r c s s1 d a Hd NDk W Fr E1)
      as (d1 & Hd1 & NDk1 & W1 & Fr1).
    destruct (construct rows (Some c) s1) as [[l | e] s2] eqn:E2; [| discriminate].
    injection E as _ <-. eapply IH; eauto.
Qed.


(** * Further properties of the code *)

(** ** What the constructor registers *)

Lemma parse_members (r : Row) p :
  HierObject.parse r = Ok p ->
  HierObject.p_label p = LabelName r /\ HierObject.p_imageID p = ImageID r.
Proof.
  unfold HierObject.parse.
  repeat match goal with
         | |- context [if ?b then _ else _] => destruct b; simpl
         end; try discriminate.
  intros [= <-]. auto.
Qed.

Lemma derive_members (r : Row) p xc yc area :
  HierObject.derive r = Ok (p, xc, yc, area) ->
  HierObject.p_label p = LabelName r /\ HierObject.p_imageID p = ImageID r.
Proof.
  unfold HierObject.derive. destruct (HierObject.parse r) as [p' |] eqn:P; [| discriminate].
  destruct (negb _); [discriminate |]. intros [= <- _ _ _].
  apply parse_members. exact P.
Qed.

Lemma bucket_resolve (ao : option nat) (s s1 : State) c :
  resolve_all ao s = (Ok c, s1) ->
  heap s1 = heap s
  /\ (forall c' image lbl, bucket s1 c' image lbl = bucket s c' image lbl)
  /\ (ao = Some c \/ default_all s1 = Some c)
  /\ (default_all s = None -> ao = None ->
      c = length (colls s) /\ colls s1 = colls s ++ [create_all_dict])
  /\ (default_all s <> None \/ ao <> None ->
      colls s1 = colls s /\ default_all s1 = default_all s).
Proof.
  destruct ao as [c0 |]; unfold resolve_all, ret.
  - intros [= <- <-]. split; [reflexivity |]. split; [reflexivity |].
    split; [left; reflexivity |]. split; [intros _ [=] |]. intros _. auto.
  - destruct (default_all s) as [c0 |] eqn:D.
    + intros [= <- <-]. split; [reflexivity |]. split; [reflexivity |].
      split; [right; exact D |]. split; [intros [=] |]. intros _. auto.
    + intros [= <- <-]. simpl. split; [reflexivity |].
      split; [| split; [right; reflexivity |];
                split; [auto | intros [Hx | Hx]; congruence]].
      intros c' image lbl. unfold bucket. simpl.
      destruct (decide (c' < length (colls s))) as [Hlt | Hge].
      * rewrite lookup_app_l by exact Hlt. reflexivity.
      * rewrite (lookup_ge_None_2 (colls s)) by lia.
        destruct (decide (c' = length (colls s))) as [-> | Hne].
        -- rewrite list_lookup_middle by reflexivity. reflexivity.
        -- rewrite lookup_ge_None_2; [reflexivity |]. rewrite length_app. simpl. lia.
Qed.

(** What a successful constructor call leaves behind. *)
Lemma HierObject_init_ok (r : Row) (all_obj : option nat) (s s' : State) (a : nat) :
  HierObject_init r all_obj s = (Ok a, s') ->
  exists c s1 d g,
    resolve_all all_obj s = (Ok c, s1)
    /\ HierObject.derive r = Ok g
    /\ colls s1 !! c = Some d
    /\ a = length (heap s)
    /\ s' = mkState (heap s ++ [HierObject.build r c g
                                  (length (bucket s1 c (ImageID r) (LabelName r)))])
                    (<[c := (register (ImageID r) (LabelName r) a d).1]> (colls s1))
                    (default_all s1).
Proof.
  unfold HierObject_init. unfold bind at 1.
  destruct (resolve_all all_obj s) as [[c | e] s1] eqn:E.
  2:{ destruct all_obj as [c0 |]; unfold resolve_all, ret in E; [discriminate |].
      destruct (default_all s); discriminate. }
  destruct (HierObject.derive r) as [g |] eqn:D; [| discriminate].
  destruct (colls s1 !! c) as [d |] eqn:L; [| discriminate].
  destruct g as [[[p xc] yc] area].
  destruct (derive_members _ _ _ _ _ D) as [Hl Hi].
  destruct (bucket_resolve _ _ _ _ E) as (Hh & _).
  unfold register. rewrite Hl, Hi. intros [= <- <-].
  exists c, s1, d, (p, xc, yc, area). rewrite Hh.
  repeat split; auto. simpl. unfold bucket. rewrite L. simpl.
  rewrite length_app. simpl.
  replace (length (dget_list (LabelName r) (default [] (dget (ImageID r) d))) + 1 - 1)
    with (length (dget_list (LabelName r) (default [] (dget (ImageID r) d)))) by lia.
  reflexivity.
Qed.

Lemma HierObject_init_spec
    (r : Row) (all_obj : option nat) (s s' : State) (a : nat) :
  HierObject_init r all_obj s = (Ok a, s') ->
  exists o,
    a = length (heap s) /\ heap s' = heap s ++ [o]
    /\ HierObject.obj o = r /\ geom_ok o = true /\ untouched o
    /\ (forall c, all_obj = Some c -> HierObject.all o = c)
    /\ (all_obj = None -> default_all s' = Some (HierObject.all o))
    /\ HierObject.imageID o = ImageID r /\ HierObject.label o = LabelName r
    /\ HierObject.index o
       = length (bucket s (HierObject.all o) (ImageID r) (LabelName r))
    /\ bucket s' (HierObject.all o) (ImageID r) (LabelName r)
       = bucket s (HierObject.all o) (ImageID r) (LabelName r) ++ [a]
    /\ (forall c image lbl,
          (c, image, lbl) <> (HierObject.all o, ImageID r, LabelName r) ->
          bucket s' c image lbl = bucket s c image lbl).
Proof.
  intros E. destruct (HierObject_init_ok _ _ _ _ _ E) as (c & s1 & d & g & Er & D & L & -> & ->).
  destruct (bucket_resolve _ _ _ _ Er) as (Hh & Hb & Hc & _).
  destruct g as [[[p xc] yc] area].
  destruct (derive_members _ _ _ _ _ D) as [Hl Hi].
  eexists. split; [reflexivity |]. split; [reflexivity |].
  split; [reflexivity |].
  split; [apply geom_ok_build; exact D |].
  split; [repeat split |].
  split; [intros c0 ->; unfold resolve_all, ret in Er; injection Er as <- _; reflexivity |].
  split.
  { intros ->. destruct Hc as [Hc | Hc]; [discriminate | exact Hc]. }
  split; [exact Hi |]. split; [exact Hl |].
  cbn [HierObject.build HierObject.index HierObject.all].
  split; [rewrite Hb; reflexivity |].
  assert (Lc : c < length (colls s1)) by (eapply lookup_lt_Some; eauto).
  split.
  - unfold bucket at 1. cbn [colls].
    rewrite list_lookup_insert_eq by exact Lc. unfold register. cbn [fst default from_option id].
    rewrite dget_dset_eq. cbn [default from_option id]. unfold dget_list at 1.
    rewrite dget_dset_eq. cbn [default from_option id].
    rewrite <- Hb. unfold bucket. rewrite L. reflexivity.
  - intros c' image lbl Hne. rewrite <- Hb. unfold bucket. cbn [colls].
    destruct (decide (c' = c)) as [-> | Hc'].
    + rewrite list_lookup_insert_eq by exact Lc. rewrite L.
      unfold register. cbn [fst default from_option id].
      destruct (String.eqb_spec (ImageID r) image) as [<- | Hi'].
      * rewrite dget_dset_eq. cbn [default from_option id]. unfold dget_list.
        rewrite dget_dset_ne; [reflexivity |]. congruence.
      * rewrite dget_dset_ne by exact Hi'. reflexivity.
    + rewrite list_lookup_insert_ne by congruence. reflexivity.
Qed.

(** X1: a successful constructor call appends the new object to the
    bucket of its image and class label, and to no other bucket of any
    collection; its index is the number of objects the bucket held
    before; the four members the passes fill in are [None]. *)
Theorem HierObject_init_registers
    (r : Row) (all_obj : option nat) (s s' : State) (a : nat) :
  HierObject_init r all_obj s = (Ok a, s') ->
  exists o,
    a = length (heap s) /\ heap s' = heap s ++ [o]
    /\ HierObject.obj o = r /\ geom_ok o = true /\ untouched o
    /\ (forall c, all_obj = Some c -> HierObject.all o = c)
    /\ (all_obj = None -> default_all s' = Some (HierObject.all o))
    /\ HierObject.imageID o = ImageID r /\ HierObject.label o = LabelName r
    /\ HierObject.index o
       = length (bucket s (HierObject.all o) (ImageID r) (LabelName r))
    /\ bucket s' (HierObject.all o) (ImageID r) (LabelName r)
       = bucket s (HierObject.all o) (ImageID r) (LabelName r) ++ [a]
    /\ (forall c image lbl,
          (c, image, lbl) <> (HierObject.all o, ImageID r, LabelName r) ->
          bucket s' c image lbl = bucket s c image lbl).
Proof. apply HierObject_init_spec. Qed.

(** X2: objects constructed without a collection share the default
    one: the second call finds the collection the first one used. *)
Theorem default_all_shared (r1 r2 : Row) (s s1 s2 : State) (a1 a2 : nat) :
  HierObject_init r1 None s = (Ok a1, s1) ->
  HierObject_init r2 None s1 = (Ok a2, s2) ->
  exists o1 o2,
    heap s2 !! a1 = Some o1 /\ heap s2 !! a2 = Some o2
    /\ HierObject.all o1 = HierObject.all o2
    /\ default_all s2 = Some (HierObject.all o1)
    /\ a1 ∈ bucket s2 (HierObject.all o1) (ImageID r1) (LabelName r1)
    /\ a2 ∈ bucket s2 (HierObject.all o1) (ImageID r2) (LabelName r2).
Proof.
  intros E1 E2.
  destruct (HierObject_init_spec _ _ _ _ _ E1)
    as (o1 & -> & H1 & _ & _ & _ & _ & D1 & _ & _ & _ & B1 & _).
  destruct (HierObject_init_spec _ _ _ _ _ E2)
    as (o2 & -> & H2 & _ & _ & _ & _ & D2 & _ & _ & _ & B2 & F2).
  specialize (D1 eq_refl). specialize (D2 eq_refl).
  destruct (HierObject_init_ok _ _ _ _ _ E2) as (c & s1' & d & g & Er & _ & _ & _ & Es).
  assert (Ec : c = HierObject.all o1 /\ default_all s1' = default_all s1).
  { unfold resolve_all in Er. rewrite D1 in Er. injection Er as <- <-. auto. }
  destruct Ec as [-> Ed].
  assert (A2 : HierObject.all o2 = HierObject.all o1).
  { rewrite Es in D2. cbn [default_all] in D2. rewrite Ed, D1 in D2. congruence. }
  exists o1, o2. rewrite H2, H1.
  split.
  { rewrite lookup_app_l by (rewrite length_app; simpl; lia).
    apply list_lookup_middle. reflexivity. }
  split; [apply list_lookup_middle; reflexivity |].
  split; [congruence |]. split; [rewrite D2; congruence |].
  rewrite A2 in *. split.
  - destruct (decide ((ImageID r1, LabelName r1) = (ImageID r2, LabelName r2)))
      as [Heq | Hne].
    + injection Heq as Ei El. rewrite Ei, El in *. rewrite B2, B1.
      rewrite !elem_of_app, !list_elem_of_singleton. auto.
    + rewrite F2 by congruence. rewrite B1.
      rewrite elem_of_app, list_elem_of_singleton. auto.
  - rewrite B2. rewrite elem_of_app, list_elem_of_singleton. right. congruence.
Qed.

(** X3: after [clear_default_all()] the next object constructed without
    a collection starts a new collection, of which it is the only
    object; the collection in use before keeps its objects. *)
Theorem clear_default_all_restarts (r1 r2 : Row) (s s1 s2 s3 : State) (a1 a2 : nat) :
  HierObject_init r1 None s = (Ok a1, s1) ->
  clear_default_all s1 = (Ok tt, s2) ->
  HierObject_init r2 None s2 = (Ok a2, s3) ->
  exists o1 o2,
    heap s3 !! a1 = Some o1 /\ heap s3 !! a2 = Some o2
    /\ HierObject.all o1 <> HierObject.all o2
    /\ HierObject.index o2 = 0
    /\ colls s3 !! HierObject.all o2 = Some [(ImageID r2, [(LabelName r2, [a2])])]
    /\ colls s3 !! HierObject.all o1 = colls s1 !! HierObject.all o1
    /\ default_all s3 = Some (HierObject.all o2).
Proof.
  intros E1 Ec E2. unfold clear_default_all in Ec. injection Ec as <-.
  destruct (HierObject_init_ok _ _ _ _ _ E1) as (c1 & s1' & d1 & g1 & Er1 & _ & L1 & -> & Es1).
  destruct (HierObject_init_ok _ _ _ _ _ E2) as (c2 & s2' & d2 & g2 & Er2 & _ & L2 & -> & Es2).
  cbn [heap colls default_all] in *.
  unfold resolve_all in Er2. cbn [default_all colls heap] in Er2.
  injection Er2 as <- <-. cbn [heap colls default_all] in *.
  rewrite list_lookup_middle in L2 by reflexivity. injection L2 as <-.
  assert (Lc1 : c1 < length (colls s1)).
  { rewrite Es1. cbn [colls]. rewrite length_insert. eapply lookup_lt_Some; eauto. }
  subst s3. cbn [heap colls default_all].
  eexists _, _.
  split.
  { rewrite lookup_app_l; [| rewrite Es1; cbn [heap]; rewrite length_app; simpl; lia].
    rewrite Es1. cbn [heap]. apply list_lookup_middle. reflexivity. }
  split; [apply list_lookup_middle; reflexivity |].
  cbn [HierObject.build HierObject.all HierObject.index].
  destruct g1 as [[[p1 xc1] yc1] ar1], g2 as [[[p2 xc2] yc2] ar2].
  cbn [HierObject.build HierObject.all HierObject.index].
  split; [lia |].
  split.
  { unfold bucket. cbn [colls]. rewrite list_lookup_middle by reflexivity. reflexivity. }
  split.
  { rewrite list_lookup_insert_eq by (rewrite length_app; simpl; lia). reflexivity. }
  split; [| reflexivity].
  rewrite list_lookup_insert_ne by lia.
  apply lookup_app_l. exact Lc1.
Qed.

(** ** Construction into the default collection, and [get_hierarchy] as a whole *)

Lemma HierObject_init_default (r : Row) (s : State) (c : nat) :
  default_all s = Some c -> HierObject_init r None s = HierObject_init r (Some c) s.
Proof.
  intros D. unfold HierObject_init, bind, resolve_all, ret. rewrite D. reflexivity.
Qed.

Lemma HierObject_init_keeps_default (r : Row) (c : nat) (s s' : State) a :
  HierObject_init r (Some c) s = (Ok a, s') -> default_all s' = default_all s.
Proof.
  unfold HierObject_init, bind, resolve_all, ret.
  destruct (HierObject.derive r) as [[[[p xc] yc] area] |]; [| discriminate].
  destruct (colls s !! c); [| discriminate].
  intros [= _ <-]. reflexivity.
Qed.

Lemma construct_default (rows : list Row) :
  forall (s : State) (c : nat),
    default_all s = Some c -> construct rows None s = construct rows (Some c) s.
Proof.
  induction rows as [| r rows IH]; intros s c D; [reflexivity |].
  cbn [construct]. unfold bind. rewrite (HierObject_init_default r s c D).
  destruct (HierObject_init r (Some c) s) as [[a | e] s1] eqn:E; [| reflexivity].
  rewrite (IH s1 c); [reflexivity |].
  rewrite (HierObject_init_keeps_default _ _ _ _ _ E). exact D.
Qed.

Lemma HierObject_init_first (r : Row) (s : State) :
  default_all s = None ->
  HierObject_init r None s
  = HierObject_init r (Some (length (colls s)))
      (mkState (heap s) (colls s ++ [create_all_dict]) (Some (length (colls s)))).
Proof.
  intros D. unfold HierObject_init, bind, resolve_all, ret. rewrite D. reflexivity.
Qed.

Lemma construct_first (r : Row) (rows : list Row) (s : State) :
  default_all s = None ->
  construct (r :: rows) None s
  = construct (r :: rows) (Some (length (colls s)))
      (mkState (heap s) (colls s ++ [create_all_dict]) (Some (length (colls s)))).
Proof.
  intros D. cbn [construct]. unfold bind.
  rewrite (HierObject_init_first r s D).
  destruct (HierObject_init r (Some (length (colls s))) _) as [[a | e] s1] eqn:E;
    [| reflexivity].
  rewrite (construct_default rows s1 (length (colls s))); [reflexivity |].
  rewrite (HierObject_init_keeps_default _ _ _ _ _ E). reflexivity.
Qed.

Lemma construct_keeps_default (rows : list Row) (c : nat) :
  forall (s s' : State) addrs,
    construct rows (Some c) s = (Ok addrs, s') -> default_all s' = default_all s.
Proof.
  induction rows as [| r rows IH]; intros s s' addrs E.
  - injection E as _ <-. reflexivity.
  - cbn [construct] in E. unfold bind in E.
    destruct (HierObject_init r (Some c) s) as [[a | e] s1] eqn:E1; [| discriminate].
    destruct (construct rows (Some c) s1) as [[l | e] s2] eqn:E2; [| discriminate].
    injection E as _ <-.
    rewrite (IH _ _ _ E2). apply (HierObject_init_keeps_default _ _ _ _ _ E1).
Qed.

Lemma sameS_of_static (h h' : list HierObject.t) :
  length h' = length h ->
  (forall a o, h !! a = Some o -> exists o', h' !! a = Some o' /\ static o' = static o) ->
  sameS h h'.
Proof.
  intros L H a. destruct (h !! a) as [o |] eqn:E.
  - destruct (H a o E) as (o' & -> & Es). simpl. rewrite Es. reflexivity.
  - rewrite lookup_ge_None_2; [reflexivity |].
    apply lookup_ge_None_1 in E. lia.
Qed.

(** [get_hierarchy] on a well-formed collection. *)
Lemma get_hierarchy_runs
    (all_obj : list (string * list (string * list nat))) (h : list HierObject.t)
    (child_parent_list : option (list (string * string))) :
  WF all_obj h ->
  exists h',
    get_hierarchy all_obj child_parent_list h = (Ok tt, h')
    /\ WF all_obj h' /\ FactsOK all_obj h' /\ sameS h h' /\ length h' = length h.
Proof.
  intros W.
  destruct (find_overlapping_objects_ok all_obj h W) as (h1 & E1 & W1 & F1 & T1 & L1).
  destruct (find_duplicates_ok all_obj h1 W1 F1)
    as (h2 & E2 & W2 & F2 & L2 & T2 & O2).
  assert (S1 : sameS h h1).
  { apply sameS_of_static; [exact L1 |]. intros a o Ho.
    destruct (T1 a o Ho) as (o' & Ho' & Eo'). exists o'. split; [exact Ho' |].
    rewrite Eo'. reflexivity. }
  assert (S2 : sameS h1 h2).
  { apply sameS_of_static; [exact L2 |]. intros a o Ho.
    destruct (decide (a ∈ all_addrs all_obj)) as [Ha | Ha].
    - rewrite (T2 a o Ha Ho). eexists. split; [reflexivity |]. reflexivity.
    - rewrite (O2 a Ha). eauto. }
  set (I := fun h3 : list HierObject.t =>
              WF all_obj h3 /\ FactsOK all_obj h3 /\ sameS h h3
              /\ length h3 = length h).
  assert (I2 : I h2).
  { unfold I. split; [exact W2 |]. split; [exact F2 |].
    split; [eapply sameS_trans; eauto | lia]. }
  assert (Loop : forall l : list (string * string),
            exists h', for_each l (fun '(child_label, parent_label) =>
                           find_parent all_obj child_label parent_label) h2
                       = (Ok tt, h') /\ I h').
  { intros l. apply for_each_inv; [| exact I2].
    intros [cl pl] h3 _ (W3 & F3 & S3 & L3).
    destruct (find_parent_spec all_obj h3 cl pl W3 F3) as (h4 & E4 & P4 & _).
    exists h4. split; [exact E4 |]. unfold I.
    split; [eapply WF_pc_only; eauto |].
    split; [eapply FactsOK_pc_only; eauto |].
    split; [eapply sameS_trans; [exact S3 | apply pc_only_sameS; exact P4] |].
    destruct P4 as [L4 _]. lia. }
  unfold get_hierarchy. rewrite (bind_ok _ _ _ _ _ E1), (bind_ok _ _ _ _ _ E2).
  destruct child_parent_list as [[| pr l] |].
  - exists h2. split; [reflexivity | exact I2].
  - apply (Loop (pr :: l)).
  - exists h2. split; [reflexivity | exact I2].
Qed.

(** A call of the constructor leaves the objects of the collection
    without [overlap] and [duplicate] members when they had none. *)
Lemma HierObject_init_unpopulated (r : Row) (c : nat) (s s' : State)
    (d : list (string * list (string * list nat))) (a : nat) :
  colls s !! c = Some d -> NoDup (dkeys d) ->
  wf_coll d (heap s) = true -> unpopulated d (heap s) = true ->
  HierObject_init r (Some c) s = (Ok a, s') ->
  exists d', colls s' !! c = Some d' /\ unpopulated d' (heap s') = true.
Proof.
  intros Hd NDk W Un. apply wf_coll_WF in W.
  unfold HierObject_init, resolve_all, bind, ret.
  destruct (HierObject.derive r) as [g |] eqn:Dg; [| discriminate].
  rewrite Hd. destruct g as [[[p xc] yc] area].
  set (idx := length (dget_list (HierObject.p_label p)
                        (default [] (dget (HierObject.p_imageID p) d))
                      ++ [length (heap s)]) - 1).
  set (o := HierObject.build r c (p, xc, yc, area) idx).
  pose proof (register_WF d (heap s) o W NDk (geom_ok_build r c _ idx Dg)) as R.
  unfold register in *. fold idx in R.
  change (HierObject.imageID o) with (HierObject.p_imageID p) in R.
  change (HierObject.label o) with (HierObject.p_label p) in R.
  specialize (R eq_refl). destruct R as (_ & _ & Pall).
  simpl. fold idx. fold o. intros [= <- <-]. simpl.
  eexists. split; [apply list_lookup_insert_eq; eapply lookup_lt_Some; eauto |].
  unfold unpopulated in *. rewrite forallb_elem_of in Un.
  apply forallb_elem_of. intros b Hb.
  rewrite Pall in Hb. apply elem_of_cons in Hb as [-> | Hb].
  - rewrite list_lookup_middle by reflexivity. reflexivity.
  - specialize (Un b Hb). destruct (heap s !! b) as [ob |] eqn:Hob; [| discriminate].
    rewrite lookup_app_l by (eapply lookup_lt_Some; eauto). rewrite Hob. exact Un.
Qed.

(** So does every sequence of calls, which gives one address per row. *)
Lemma construct_unpopulated (rows : list Row) (c : nat) :
  forall (s s' : State) (d : list (string * list (string * list nat)))
         (addrs : list nat),
    colls s !! c = Some d -> NoDup (dkeys d) ->
    wf_coll d (heap s) = true -> fresh d (heap s) = true ->
    unpopulated d (heap s) = true ->
    construct rows (Some c) s = (Ok addrs, s') ->
    exists d', colls s' !! c = Some d' /\ unpopulated d' (heap s') = true
               /\ length addrs = length rows.
Proof.
  induction rows as [| r rows IH]; intros s s' d addrs Hd NDk W Fr Un E.
  - injection E as <- <-. eauto.
  - cbn [construct] in E. unfold bind in E.
    destruct (HierObject_init r (Some c) s) as [[a | e] s1] eqn:E1; [| discriminate].
    destruct (HierObject_init_wf r c s s1 d a Hd NDk W Fr E1)
      as (d1 & Hd1 & NDk1 & W1 & Fr1).
    destruct (HierObject_init_unpopulated r c s s1 d a Hd NDk W Un E1)
      as (d1' & Hd1' & Un1).
    rewrite Hd1 in Hd1'. injection Hd1' as <-.
    destruct (construct rows (Some c) s1) as [[l | e] s2] eqn:E2; [| discriminate].
    injection E as <- <-.
    destruct (IH _ _ _ _ Hd1 NDk1 W1 Fr1 Un1 E2) as (d2 & Hd2 & Un2 & L).
    exists d2. split; [exact Hd2 |]. split; [exact Un2 |]. simpl. lia.
Qed.

(** X4: any sequence of rows the constructor accepts, put into the
    default collection when there is none yet, gives one address per
    row and leaves that collection well formed, with no pass run on
    any of its objects: none has an [overlap], a [duplicate], a
    [parent] or a [children] member. *)
Theorem construct_well_formed (rows : list Row) (s s' : State) (addrs : list nat) :
  default_all s = None -> rows <> [] ->
  construct rows None s = (Ok addrs, s') ->
  exists d,
    default_all s' = Some (length (colls s))
    /\ colls s' !! length (colls s) = Some d
    /\ NoDup (dkeys d)
    /\ wf_coll d (heap s') = true
    /\ fresh d (heap s') = true /\ unpopulated d (heap s') = true
    /\ length addrs = length rows.
Proof.
  intros D Hne E. destruct rows as [| r rows]; [congruence |].
  rewrite (construct_first r rows s D) in E.
  set (s0 := mkState (heap s) (colls s ++ [create_all_dict]) (Some (length (colls s)))) in *.
  assert (H0 : colls s0 !! length (colls s) = Some []).
  { unfold s0. cbn [colls]. apply list_lookup_middle. reflexivity. }
  destruct (construct_wf (r :: rows) (length (colls s)) s0 s' [] addrs
              H0 ltac:(constructor) eq_refl eq_refl E)
    as (d & Hd & NDk & W & Fr).
  destruct (construct_unpopulated (r :: rows) (length (colls s)) s0 s' [] addrs
              H0 ltac:(constructor) eq_refl eq_refl eq_refl E)
    as (d' & Hd' & Un & L).
  rewrite Hd in Hd'. injection Hd' as <-.
  exists d. split; [| auto 10].
  rewrite (construct_keeps_default _ _ _ _ _ E). reflexivity.
Qed.

(** X19: [get_hierarchy] never raises on a well-formed collection,
    whether or not it has run on it before: it leaves the collection
    well formed, so it can be run again, and it never changes a member
    set at construction. *)
Theorem get_hierarchy_total
    (all_obj : list (string * list (string * list nat))) (h : list HierObject.t)
    (child_parent_list : option (list (string * string))) :
  wf_coll all_obj h = true ->
  exists h',
    get_hierarchy all_obj child_parent_list h = (Ok tt, h')
    /\ wf_coll all_obj h' = true
    /\ length h' = length h
    /\ (forall a, static <$> (h' !! a) = static <$> (h !! a))
    /\ (forall again, exists h'',
          get_hierarchy all_obj again h' = (Ok tt, h'')).
Proof.
  intros W. apply wf_coll_WF in W.
  destruct (get_hierarchy_runs all_obj h child_parent_list W)
    as (h' & E & W' & _ & S & L).
  exists h'. split; [exact E |]. split; [apply wf_coll_WF; exact W' |].
  split; [exact L |]. split; [exact S |].
  intros again.
  destruct (get_hierarchy_runs all_obj h' again W') as (h'' & E' & _).
  eauto.
Qed.

(** ** The geometric tests *)

Lemma rn_lower (k : Z) (x : Q) : (k # 100000 <= x)%Q -> (k # 100000 <= rn x)%Q.
Proof.
  intros H. unfold rn, Qle in *. simpl in *.
  assert (k <= round_half_even (Qnum x * 100000) (Z.pos (Qden x)))%Z.
  { apply round_half_even_lower; lia. }
  lia.
Qed.

Lemma rn_upper (k : Z) (x : Q) : (x <= k # 100000)%Q -> (rn x <= k # 100000)%Q.
Proof.
  intros H. unfold rn, Qle in *. simpl in *.
  assert (round_half_even (Qnum x * 100000) (Z.pos (Qden x)) <= k)%Z.
  { apply round_half_even_upper; lia. }
  lia.
Qed.

(** Rounding moves a number by at most half a grid step. *)
Lemma rn_error (x : Q) : (Qabs (rn x - x) <= 1 # 200000)%Q.
Proof.
  pose proof (round_half_even_error (Qnum x * 100000) (Z.pos (Qden x)) ltac:(lia)) as H.
  apply Qabs_Qle_condition.
  unfold rn, Qle, Qminus, Qplus, Qopp. simpl.
  set (R := round_half_even (Qnum x * 100000) (Z.pos (Qden x))) in *.
  split; lia.
Qed.

(** X5: [has_intersection] and [intersection_area] agree: the area is
    never negative, and it is positive exactly when the two objects
    intersect. *)
Theorem has_intersection_area (o1 o2 : HierObject.t) :
  (0 <= HierObject.intersection_area o1 o2)%Q
  /\ (HierObject.has_intersection o1 o2 = true
      <-> (0 < HierObject.intersection_area o1 o2)%Q).
Proof.
  destruct (HierObject.has_intersection o1 o2) eqn:E.
  - rewrite (intersection_area_pos _ _ E).
    apply has_intersection_iff in E as [W H].
    split; [nra |]. split; [intros _; nra | reflexivity].
  - assert (Z : HierObject.intersection_area o1 o2 = 0%Q).
    { unfold HierObject.has_intersection in E. unfold HierObject.intersection_area.
      apply andb_false_iff in E as [E | E]; apply Qltb_nlt in E.
      - apply Qleb_le in E. rewrite E. reflexivity.
      - apply Qleb_le in E. rewrite E. rewrite orb_true_r. reflexivity. }
    rewrite Z. split; [lra |]. split; [discriminate | lra].
Qed.

(** X6: the geometric tests do not depend on the order of the two
    objects: they intersect or not either way round, and the area of
    the intersection is the same number. *)
Theorem intersection_symmetric (o1 o2 : HierObject.t) :
  HierObject.has_intersection o1 o2 = HierObject.has_intersection o2 o1
  /\ (HierObject.intersection_area o1 o2 == HierObject.intersection_area o2 o1)%Q.
Proof. split; [apply has_intersection_comm | apply intersection_area_comm]. Qed.

(** X7: [is_inside] is reflexive and transitive, and two objects that
    are inside each other have the same bounding box. *)
Theorem is_inside_order (a b c : HierObject.t) :
  HierObject.is_inside a a = true
  /\ (HierObject.is_inside a b = true -> HierObject.is_inside b c = true ->
      HierObject.is_inside a c = true)
  /\ (HierObject.is_inside a b = true -> HierObject.is_inside b a = true ->
      (HierObject.x0 a == HierObject.x0 b)%Q /\ (HierObject.y0 a == HierObject.y0 b)%Q
      /\ (HierObject.x1 a == HierObject.x1 b)%Q /\ (HierObject.y1 a == HierObject.y1 b)%Q).
Proof.
  unfold HierObject.is_inside. rewrite !andb_true_iff, !Qleb_le.
  repeat split; try lra.
  all: intros; repeat split; lra.
Qed.

(** A number that [round(x, 5)] makes positive is positive, and so is
    a difference that is positive as a double. *)
Lemma round5_pos_inv (x : Q) : (0 < Float64.round5 x)%Q -> (0 < x)%Q.
Proof.
  intros H. destruct (Qlt_le_dec 0 x) as [P | P]; [exact P | exfalso].
  assert (P' : (x <= 0 # 100000)%Q) by lra.
  pose proof (fl_mono _ _ (rn_upper 0 x P')) as F. unfold Float64.round5 in H.
  rewrite (fl_zero (0 # 100000)) in F by reflexivity. lra.
Qed.

Lemma float_sub_pos_inv (a b : Q) : (0 < Float64.sub a b)%Q -> (b < a)%Q.
Proof.
  intros H. destruct (Qlt_le_dec b a) as [P | P]; [exact P | exfalso].
  pose proof (fl_mono (a - b) 0 ltac:(lra)) as F. unfold Float64.sub in H.
  rewrite (fl_zero 0) in F by reflexivity. lra.
Qed.

(** What the checks of the constructor give in binary64. *)
Lemma geom_ok_float_box (o : HierObject.t) :
  geom_ok_float o = true ->
  (0 < HierObject.w o)%Q /\ (0 < HierObject.h o)%Q
  /\ (HierObject.x0 o < HierObject.x1 o)%Q /\ (HierObject.y0 o < HierObject.y1 o)%Q.
Proof.
  unfold geom_ok_float, Float64.derive, Float64.parse.
  set (r := HierObject.obj o).
  set (X0 := Float64.round5 (Float64.fl (XMin r))).
  set (X1 := Float64.round5 (Float64.fl (XMax r))).
  set (Y0 := Float64.round5 (Float64.fl (YMin r))).
  set (Y1 := Float64.round5 (Float64.fl (YMax r))).
  destruct (Qltb 0 (Float64.round5 (Float64.sub X1 X0))) eqn:W; simpl; [| discriminate].
  destruct (Qltb 0 (Float64.round5 (Float64.sub Y1 Y0))) eqn:H; simpl; [| discriminate].
  match goal with |- context [if ?b then _ else _] => destruct b end;
    [discriminate |].
  rewrite !andb_true_iff, !Qsame_eq.
  intros [[[[[[[[[[_ _] -> ] -> ] -> ] -> ] -> ] -> ] _] _] _].
  apply Qltb_lt in W, H.
  split; [exact W |]. split; [exact H |].
  split.
  - apply float_sub_pos_inv, round5_pos_inv. exact W.
  - apply float_sub_pos_inv, round5_pos_inv. exact H.
Qed.

(** X9: [rect()] and [bbox()] describe one rectangle: for a constructed
    object, in exact arithmetic and in binary64 alike, they have the
    same corner, the width and the height of [rect()] are positive
    and the box of [bbox()] is not empty. *)
Theorem rect_bbox (o : HierObject.t) :
  geom_ok o = true \/ geom_ok_float o = true ->
  let '(bx0, by0, bx1, by1) := bbox o in
  let '(rx, ry, rw, rh) := rect o in
  rx = bx0 /\ ry = by0
  /\ (0 < rw)%Q /\ (0 < rh)%Q
  /\ (bx0 < bx1)%Q /\ (by0 < by1)%Q.
Proof.
  intros [G | G]; simpl.
  - apply geom_ok_geometry in G as [W H Wp Hp _]. repeat split; lra.
  - destruct (geom_ok_float_box o G) as (Wp & Hp & X & Y). repeat split; assumption.
Qed.

Lemma geom_ok_members (o : HierObject.t) :
  geom_ok o = true ->
  let r := HierObject.obj o in
  HierObject.x0 o = rn (XMin r) /\ HierObject.x1 o = rn (XMax r)
  /\ HierObject.y0 o = rn (YMin r) /\ HierObject.y1 o = rn (YMax r)
  /\ HierObject.xc o = rn ((rn (XMin r) + rn (XMax r)) / 2)
  /\ HierObject.yc o = rn ((rn (YMin r) + rn (YMax r)) / 2)
  /\ HierObject.label o = LabelName r /\ HierObject.imageID o = ImageID r.
Proof.
  unfold geom_ok, HierObject.derive, HierObject.parse.
  set (r := HierObject.obj o).
  destruct (Qltb 0 (rn (rn (XMax r) - rn (XMin r)))) eqn:W; simpl; [| discriminate].
  destruct (Qltb 0 (rn (rn (YMax r) - rn (YMin r)))) eqn:H; simpl; [| discriminate].
  match goal with |- context [if ?b then _ else _] => destruct b end;
    [discriminate |].
  rewrite !andb_true_iff, !Qsame_eq.
  intros [[[[[[[[[[L I] X0] X1] Y0] Y1] Hw] Hh] Xc] Yc] Ha].
  apply String.eqb_eq in L, I.
  repeat split; assumption.
Qed.

Lemma pymin_le (a b : Q) : (a <= b)%Q -> (pymin a b == a)%Q.
Proof.
  intros H. unfold pymin. destruct (Qltb b a) eqn:E; [| reflexivity].
  apply Qltb_lt in E. lra.
Qed.

Lemma pymin_ge (a b : Q) : (b <= a)%Q -> (pymin a b == b)%Q.
Proof.
  intros H. unfold pymin. destruct (Qltb b a) eqn:E; [reflexivity |].
  apply Qltb_nlt in E. lra.
Qed.

Lemma pymax_le (a b : Q) : (a <= b)%Q -> (pymax a b == b)%Q.
Proof.
  intros H. unfold pymax. destruct (Qltb a b) eqn:E; [reflexivity |].
  apply Qltb_nlt in E. lra.
Qed.

Lemma pymax_ge (a b : Q) : (b <= a)%Q -> (pymax a b == a)%Q.
Proof.
  intros H. unfold pymax. destruct (Qltb a b) eqn:E; [| reflexivity].
  apply Qltb_lt in E. lra.
Qed.

(** An object inside another one: the intersection is the object itself. *)
Lemma inside_intersection (o1 o2 : HierObject.t) :
  geom_ok o1 = true -> geom_ok o2 = true ->
  HierObject.is_inside o1 o2 = true ->
  HierObject.has_intersection o1 o2 = true
  /\ (HierObject.intersection_area o1 o2 == HierObject.area o1)%Q
  /\ (HierObject.area o1 <= HierObject.area o2)%Q
  /\ (0 < HierObject.area o1)%Q.
Proof.
  intros G1 G2 I.
  pose proof (geom_ok_geometry _ G1) as [W1 H1 Wp1 Hp1 A1].
  pose proof (geom_ok_geometry _ G2) as [W2 H2 Wp2 Hp2 A2].
  unfold HierObject.is_inside in I. rewrite !andb_true_iff, !Qleb_le in I.
  destruct I as [[[I1 I2] I3] I4].
  assert (Ew : (overlap_w o1 o2 == HierObject.w o1)%Q).
  { unfold overlap_w. rewrite (pymin_le _ _ I2), (pymax_ge _ _ I1). lra. }
  assert (Eh : (overlap_h o1 o2 == HierObject.h o1)%Q).
  { unfold overlap_h. rewrite (pymin_le _ _ I4), (pymax_ge _ _ I3). lra. }
  assert (Hi : HierObject.has_intersection o1 o2 = true).
  { apply has_intersection_iff. split; lra. }
  split; [exact Hi |].
  rewrite (intersection_area_pos _ _ Hi), A1, A2, Ew, Eh.
  split; [reflexivity |]. split; nra.
Qed.

(** X11: when [compare] meets an object that lies inside the other
    one, both constructed and with their overlap dictionaries, it
    raises nothing and appends to the facts the inner object holds
    under the label of the outer one a fact about the outer object,
    with its index and with [self_inside_other] set. *)
Theorem compare_inside (h : list HierObject.t) (a1 a2 : nat) (o1 o2 : HierObject.t) :
  h !! a1 = Some o1 -> h !! a2 = Some o2 -> a1 <> a2 ->
  geom_ok o1 = true -> geom_ok o2 = true ->
  is_Some (HierObject.overlap o1) -> is_Some (HierObject.overlap o2) ->
  HierObject.is_inside o1 o2 = true ->
  HierObject.has_intersection o1 o2 = true
  /\ exists h' o1' f,
       compare a1 a2 h = (Ok tt, h')
       /\ h' !! a1 = Some o1'
       /\ facts_under (HierObject.label o2) o1'
          = facts_under (HierObject.label o2) o1 ++ [f]
       /\ Overlap.obj f = a2
       /\ Overlap.index f = HierObject.index o2
       /\ Overlap.self_inside_other f = true.
Proof.
  intros E1 E2 Hne G1 G2 S1 S2 I.
  destruct (inside_intersection o1 o2 G1 G2 I) as (Hi & _).
  split; [exact Hi |].
  exists (<[a2 := add_fact (HierObject.label o1) (fact2 o1 o2 a1) o2]>
            (<[a1 := add_fact (HierObject.label o2) (fact1 o1 o2 a2) o1]> h)),
         (add_fact (HierObject.label o2) (fact1 o1 o2 a2) o1),
         (fact1 o1 o2 a2).
  split; [apply compare_intersecting; assumption |].
  split.
  { rewrite list_lookup_insert_ne by congruence.
    apply list_lookup_insert_eq. apply lookup_lt_Some in E1. exact E1. }
  split.
  { unfold facts_under, add_fact. simpl. rewrite dget_list_dappend.
    rewrite String.eqb_refl. reflexivity. }
  split; [reflexivity |]. split; [reflexivity | exact I].
Qed.

(** ** Stable sorting: [sort_iou] and [sort_for_parent] *)

Section StableInsertion.
Context {A : Type}.
Variable lt : A -> A -> bool.

Lemma insert_by_perm x l : insert_by lt x l ≡ₚ x :: l.
Proof.
  induction l as [| y r IH]; simpl; [reflexivity |].
  destruct (lt x y); [| reflexivity].
  rewrite IH. apply Permutation_swap.
Qed.

Lemma sort_by_perm l : foldr (insert_by lt) [] l ≡ₚ l.
Proof.
  induction l as [| x l IH]; simpl; [reflexivity |].
  rewrite insert_by_perm, IH. reflexivity.
Qed.

(** Elements a test [P] selects, none of which is below another, keep
    their order. *)
Lemma insert_by_filter (P : A -> bool) x l :
  (forall y, P x = true -> P y = true -> lt x y = false) ->
  List.filter P (insert_by lt x l)
  = if P x then x :: List.filter P l else List.filter P l.
Proof.
  intros H. induction l as [| y r IH]; simpl; [reflexivity |].
  destruct (lt x y) eqn:L; simpl.
  - rewrite IH. destruct (P x) eqn:Px, (P y) eqn:Py; try reflexivity.
    rewrite (H y eq_refl Py) in L. discriminate.
  - reflexivity.
Qed.

Lemma sort_by_stable (P : A -> bool) l :
  (forall x y, P x = true -> P y = true -> lt x y = false) ->
  List.filter P (foldr (insert_by lt) [] l) = List.filter P l.
Proof.
  intros H. induction l as [| x l IH]; simpl; [reflexivity |].
  rewrite insert_by_filter by (intros y; apply H). rewrite IH. reflexivity.
Qed.

Hypothesis lt_asym : forall a b, lt a b = true -> lt b a = false.
Hypothesis ge_trans : forall a b c, lt a b = false -> lt b c = false -> lt a c = false.

Lemma insert_by_sorted x l :
  StronglySorted (fun a b => lt a b = false) l ->
  StronglySorted (fun a b => lt a b = false) (insert_by lt x l).
Proof.
  induction 1 as [| y r Hs IH Hy]; simpl.
  - constructor; [constructor | constructor].
  - destruct (lt x y) eqn:L.
    + constructor; [exact IH |].
      apply Forall_forall. intros z Hz.
      rewrite insert_by_perm in Hz.
      apply elem_of_cons in Hz as [-> | Hz].
      * apply lt_asym. exact L.
      * rewrite Forall_forall in Hy. apply Hy. exact Hz.
    + constructor; [constructor; assumption |].
      constructor; [exact L |].
      rewrite Forall_forall in Hy |- *. intros z Hz.
      eapply ge_trans; [exact L | apply Hy, Hz].
Qed.

Lemma sort_by_sorted l :
  StronglySorted (fun a b => lt a b = false) (foldr (insert_by lt) [] l).
Proof.
  induction l as [| x l IH]; simpl; [constructor |].
  apply insert_by_sorted. exact IH.
Qed.
End StableInsertion.

Lemma insert_iou_by x l : insert_iou x l = insert_by iou_ltb x l.
Proof. induction l as [| y r IH]; simpl; [reflexivity |]. rewrite IH. reflexivity. Qed.

Lemma sort_iou_by l : sort_iou l = foldr (insert_by iou_ltb) [] l.
Proof.
  unfold sort_iou. induction l as [| x l IH]; simpl; [reflexivity |].
  rewrite IH. apply insert_iou_by.
Qed.

Lemma insert_desc_by x l : insert_desc x l = insert_by parent_ltb x l.
Proof. induction l as [| y r IH]; simpl; [reflexivity |]. rewrite IH. reflexivity. Qed.

Lemma sort_for_parent_by l : sort_for_parent l = foldr (insert_by parent_ltb) [] l.
Proof.
  unfold sort_for_parent. induction l as [| x l IH]; simpl; [reflexivity |].
  rewrite IH. apply insert_desc_by.
Qed.

Lemma key_eqb_not_lt a b c : key_eqb a c = true -> key_eqb b c = true -> key_ltb a b = false.
Proof.
  destruct a as [[a1 a2] a3], b as [[b1 b2] b3], c as [[c1 c2] c3].
  unfold key_eqb, key_ltb. rewrite !andb_true_iff, !Z.eqb_eq, !Qeq_bool_iff.
  intros [[-> ->] E1] [[-> ->] E2]. rewrite !Z.eqb_refl. simpl.
  apply Qltb_nlt. rewrite E1, E2. lra.
Qed.

(** X13: [sort_iou] returns the facts it was given, each as often as it
    was given, in the order of falling [iou]. *)
Theorem sort_iou_sorted (l : list Overlap.t) :
  sort_iou l ≡ₚ l
  /\ StronglySorted (fun a b => (Overlap.iou b <= Overlap.iou a)%Q) (sort_iou l).
Proof.
  rewrite sort_iou_by. split; [apply sort_by_perm |].
  apply (StronglySorted_weaken (fun a b => iou_ltb a b = false)).
  - intros a b H. apply Qltb_nlt. exact H.
  - apply sort_by_sorted; unfold iou_ltb.
    + intros a b H. apply Qltb_lt in H. apply Qltb_nlt. lra.
    + intros a b c H1 H2. apply Qltb_nlt in H1, H2. apply Qltb_nlt. lra.
Qed.

(** X14: [sort_iou] is stable: the facts with one and the same [iou]
    come out in the order they went in. *)
Theorem sort_iou_stable (q : Q) (l : list Overlap.t) :
  List.filter (fun f => Qeq_bool (Overlap.iou f) q) (sort_iou l)
  = List.filter (fun f => Qeq_bool (Overlap.iou f) q) l.
Proof.
  rewrite sort_iou_by. apply sort_by_stable.
  intros x y Hx Hy. apply Qeq_bool_iff in Hx, Hy.
  apply Qltb_nlt. rewrite Hx, Hy. lra.
Qed.

(** X15: [sort_for_parent] is stable: the facts with one and the same
    key come out in the order they went in. *)
Theorem sort_for_parent_stable (k : Z * Z * Q) (l : list Overlap.t) :
  List.filter (fun f => key_eqb (sort_key f) k) (sort_for_parent l)
  = List.filter (fun f => key_eqb (sort_key f) k) l.
Proof.
  rewrite sort_for_parent_by. apply sort_by_stable.
  intros x y Hx Hy. unfold parent_ltb. exact (key_eqb_not_lt _ _ _ Hx Hy).
Qed.

(** The unit test of [sort_iou]. *)
Example test60SortIou :
  map Overlap.index (sort_iou overlap_5) = [2; 5; 1; 0; 3]
  /\ map Overlap.index (sort_iou (rev overlap_5)) = [5; 2; 1; 0; 3].
Proof. split; vm_compute; reflexivity. Qed.

(** ** Running [find_overlapping_objects] again *)

Lemma local_ret {A} S (x : A) : local S (ret x).
Proof. intros h g H. split; [reflexivity | exact H]. Qed.

Lemma local_raise {A} S e : local S (raise (A := A) e).
Proof. intros h g H. split; [reflexivity | exact H]. Qed.

Lemma local_bind {A B} S (m : M (list HierObject.t) A) (k : A -> M (list HierObject.t) B) :
  local S m -> (forall x, local S (k x)) -> local S (bind m k).
Proof.
  intros Hm Hk h g H. destruct (Hm h g H) as [E1 E2]. unfold bind.
  destruct (m h) as [[x | e] h1], (m g) as [[y | e'] g1]; simpl in *;
    try discriminate.
  - injection E1 as <-. apply Hk. exact E2.
  - injection E1 as <-. split; [reflexivity | exact E2].
Qed.

Lemma local_for_each {X} S (l : list X) (body : X -> M (list HierObject.t) unit) :
  (forall x, x ∈ l -> local S (body x)) -> local S (for_each l body).
Proof.
  induction l as [| x l IH]; intros H; simpl.
  - apply local_ret.
  - apply local_bind; [apply H; left |]. intros _. apply IH.
    intros y Hy. apply H. right. exact Hy.
Qed.

Lemma local_get_obj S a : a ∈ S -> local S (get_obj a).
Proof.
  intros Ha h g [L H]. unfold get_obj. rewrite <- (H a Ha).
  destruct (h !! a); simpl; split; auto; split; auto.
Qed.

Lemma local_modify S a f : a ∈ S -> local S (modify a f).
Proof.
  intros Ha h g [L H]. unfold modify. rewrite <- (H a Ha).
  destruct (h !! a) as [o |] eqn:E; simpl; [| split; auto; split; auto].
  split; [reflexivity |]. split; [rewrite !length_insert; exact L |].
  intros b Hb. destruct (decide (a = b)) as [<- | Hne].
  - rewrite !list_lookup_insert_eq; [reflexivity | |].
    + rewrite <- L. eapply lookup_lt_Some; eauto.
    + eapply lookup_lt_Some; eauto.
  - rewrite !list_lookup_insert_ne by exact Hne. apply H. exact Hb.
Qed.

Lemma local_pydiv S (a b : Q) : local S (pydiv a b).
Proof. unfold pydiv. destruct (Qeq_bool b 0); [apply local_raise | apply local_ret]. Qed.

Lemma local_append_overlap S a lbl f : a ∈ S -> local S (append_overlap a lbl f).
Proof.
  intros Ha. unfold append_overlap. apply local_bind; [apply local_get_obj; exact Ha |].
  intros o. destruct (HierObject.overlap o); [apply local_modify; exact Ha | apply local_raise].
Qed.

Lemma local_compare S a1 a2 : a1 ∈ S -> a2 ∈ S -> local S (compare a1 a2).
Proof.
  intros H1 H2. unfold compare.
  apply local_bind; [apply local_get_obj; exact H1 |]. intros o1.
  apply local_bind; [apply local_get_obj; exact H2 |]. intros o2.
  destruct (HierObject.has_intersection o1 o2); [| apply local_ret].
  apply local_bind; [apply local_pydiv |]. intros q1.
  apply local_bind; [apply local_pydiv |]. intros q2.
  apply local_bind; [apply local_append_overlap; exact H1 |]. intros _.
  apply local_append_overlap; exact H2.
Qed.

Lemma local_compare_all S flat : (forall a, a ∈ flat -> a ∈ S) -> local S (compare_all flat).
Proof.
  induction flat as [| x rest IH]; intros H; simpl.
  - apply local_ret.
  - apply local_bind.
    + apply local_for_each. intros b Hb. apply local_compare; apply H; [left | right; exact Hb].
    + intros _. apply IH. intros a Ha. apply H. right. exact Ha.
Qed.

Lemma same_but_overlap_refl h : same_but_overlap h h.
Proof. intros a. reflexivity. Qed.

Lemma same_but_overlap_trans h1 h2 h3 :
  same_but_overlap h1 h2 -> same_but_overlap h2 h3 -> same_but_overlap h1 h3.
Proof. intros A B a. rewrite B. apply A. Qed.

Lemma same_but_overlap_sym h1 h2 : same_but_overlap h1 h2 -> same_but_overlap h2 h1.
Proof. intros A a. symmetry. apply A. Qed.

Lemma same_but_overlap_length h g : same_but_overlap h g -> length g = length h.
Proof.
  intros H.
  assert (E : HierObject.set_overlap None <$> g = HierObject.set_overlap None <$> h).
  { apply list_eq. intros a. rewrite !list_lookup_fmap. apply H. }
  apply (f_equal length) in E. rewrite !length_fmap in E. exact E.
Qed.

Lemma same_but_overlap_sameS h g : same_but_overlap h g -> sameS h g.
Proof.
  intros H a. specialize (H a).
  destruct (h !! a) as [o |], (g !! a) as [o' |]; simpl in *; try discriminate;
    [| reflexivity].
  apply (inj Some) in H. f_equal. unfold static.
  change (HierObject.set_overlap None
            (HierObject.set_duplicate None
               (HierObject.set_parent None (HierObject.set_children None o'))))
    with (HierObject.set_duplicate None
            (HierObject.set_parent None
               (HierObject.set_children None (HierObject.set_overlap None o')))).
  rewrite H. reflexivity.
Qed.

Lemma same_but_overlap_frame (S : list nat) (h h' : list HierObject.t) :
  (forall a, a ∉ S -> h' !! a = h !! a) ->
  (forall a o, a ∈ S -> h !! a = Some o ->
     exists o', h' !! a = Some o' /\ o' = HierObject.set_overlap (HierObject.overlap o') o) ->
  (forall a, a ∈ S -> is_Some (h !! a)) ->
  same_but_overlap h h'.
Proof.
  intros F T V a. destruct (decide (a ∈ S)) as [Ha | Ha].
  - destruct (V a Ha) as [o Ho]. destruct (T a o Ha Ho) as (o' & Ho' & E).
    rewrite Ho, Ho'. simpl. rewrite E. reflexivity.
  - rewrite (F a Ha). reflexivity.
Qed.

(** The first loop of [find_overlapping_objects] for an image. *)
Lemma reset_overlap_spec (od : list (string * list nat)) (h : list HierObject.t) :
  NoDup (image_addrs od) -> constructed h (image_addrs od) ->
  exists h1,
    for_each (dvalues od) (fun object_list =>
      for_each object_list (fun obj =>
        modify obj (HierObject.set_overlap (Some [])))) h = (Ok tt, h1)
    /\ length h1 = length h
    /\ (forall a, a ∉ image_addrs od -> h1 !! a = h !! a)
    /\ (forall a o, a ∈ image_addrs od -> h !! a = Some o ->
          h1 !! a = Some (HierObject.set_overlap (Some []) o)).
Proof.
  intros ND C.
  set (G := fun h1 : list HierObject.t =>
              constructed h1 (image_addrs od) /\ length h1 = length h).
  set (T := fun (_ : nat) (o o' : HierObject.t) =>
              o' = HierObject.set_overlap (Some []) o).
  destruct (per_image_loop G T
              (fun obj => modify obj (HierObject.set_overlap (Some []))) od ND)
    with (h := h) as (h1 & E1 & [_ L1] & F1 & T1); [| split; [exact C | reflexivity] |].
  { intros a Ha. apply modify_round.
    - intros h2 o [G2 L2] Ho. split; [| reflexivity]. split.
      + apply (constructed_sameS h2); [| exact G2].
        apply (sameS_insert _ _ o); [exact Ho | reflexivity].
      + rewrite length_insert. exact L2.
    - intros h2 [G2 _]. destruct (G2 a Ha) as (o & -> & _). eauto. }
  exists h1. split; [exact E1 |]. split; [exact L1 |]. split; [exact F1 |].
  intros a o Ha Ho. destruct (T1 a o Ha Ho) as (o' & -> & ->). reflexivity.
Qed.

(** What [find_overlapping_objects] makes of the objects of an image
    depends on their members other than [overlap] only. *)
Lemma find_overlapping_image_determined (od : list (string * list nat))
    (g1 g2 : list HierObject.t) :
  NoDup (image_addrs od) ->
  constructed g1 (image_addrs od) -> constructed g2 (image_addrs od) ->
  same_but_overlap g1 g2 ->
  agree (image_addrs od) (snd (find_overlapping_image od g1))
                         (snd (find_overlapping_image od g2)).
Proof.
  intros ND C1 C2 Hs. rewrite !find_overlapping_image_eq.
  destruct (reset_overlap_spec od g1 ND C1) as (r1 & E1 & L1 & _ & T1).
  destruct (reset_overlap_spec od g2 ND C2) as (r2 & E2 & L2 & _ & T2).
  rewrite (bind_ok _ _ _ _ _ E1), (bind_ok _ _ _ _ _ E2).
  apply local_compare_all; [auto |].
  split; [rewrite L1, L2; symmetry; apply same_but_overlap_length; exact Hs |].
  intros a Ha. destruct (C1 a Ha) as (o1 & Ho1 & _), (C2 a Ha) as (o2 & Ho2 & _).
  rewrite (T1 a o1 Ha Ho1), (T2 a o2 Ha Ho2). f_equal.
  specialize (Hs a). rewrite Ho1, Ho2 in Hs. simpl in Hs. apply (inj Some) in Hs.
  change (HierObject.set_overlap (Some []) o1)
    with (HierObject.set_overlap (Some []) (HierObject.set_overlap None o1)).
  rewrite <- Hs. reflexivity.
Qed.

Lemma for_each_fixed {S X} (l : list X) (body : X -> M S unit) (s : S) :
  (forall x, x ∈ l -> body x s = (Ok tt, s)) -> for_each l body s = (Ok tt, s).
Proof.
  induction l as [| x l IH]; intros H; simpl; [reflexivity |].
  rewrite (bind_ok _ _ _ _ _ (H x ltac:(left))). apply IH.
  intros y Hy. apply H. right. exact Hy.
Qed.

(** X16: [find_overlapping_objects] can be run again: it starts by
    resetting the [overlap] member of every object, so a second run
    on its own result gives that result again, with no fact twice. *)
Theorem find_overlapping_objects_idempotent
    (all_obj : list (string * list (string * list nat))) (h : list HierObject.t) :
  wf_coll all_obj h = true ->
  exists h',
    find_overlapping_objects all_obj h = (Ok tt, h')
    /\ find_overlapping_objects all_obj h' = (Ok tt, h').
Proof.
  intros W. apply wf_coll_WF in W.
  set (G := fun hc : list HierObject.t => WF all_obj hc /\ same_but_overlap h hc).
  set (T := fun (od : list (string * list nat)) (a : nat) (_ o' : HierObject.t) =>
              forall g, G g -> snd (find_overlapping_image od g) !! a = Some o').
  assert (Step : forall image od hc, (image, od) ∈ all_obj -> G hc ->
            exists h2, find_overlapping_image od hc = (Ok tt, h2) /\ G h2
              /\ (forall a, a ∉ image_addrs od -> h2 !! a = hc !! a)).
  { intros image od hc Hin [Wc Sc].
    assert (NDi : NoDup (image_addrs od)) by (eapply WF_image_nodup; eauto).
    assert (Ci : constructed hc (image_addrs od)).
    { intros a Ha. apply (WF_constructed _ _ Wc). apply elem_of_all_addrs. eauto. }
    destruct (find_overlapping_image_spec od hc NDi Ci) as (h2 & E2 & F2 & T2).
    assert (S2 : same_but_overlap hc h2).
    { apply (same_but_overlap_frame (image_addrs od)); [exact F2 | |].
      - intros a o Ha Ho. destruct (T2 a o Ha Ho) as (o' & Ho' & [A _ _]). eauto.
      - intros a Ha. destruct (Ci a Ha) as (o & -> & _). eauto. }
    exists h2. split; [exact E2 |]. split; [| exact F2].
    split; [| eapply same_but_overlap_trans; eauto].
    apply (WF_static _ hc); [| exact Wc].
    apply sameS_fmap. apply same_but_overlap_sameS. exact S2. }
  destruct (for_each_regions image_addrs G T find_overlapping_image
              (dvalues all_obj) (wf_nodup _ _ W)) with (h := h)
    as (h' & E & [W' S'] & F & Ht).
  - intros od Hod hc Gc.
    apply list_elem_of_fmap in Hod as ([image od'] & -> & Hin). simpl.
    destruct (Step image od' hc Hin Gc) as (h2 & E2 & G2 & F2).
    exists h2. split; [exact E2 |]. split; [exact G2 |]. split; [exact F2 |].
    intros a o Ha Ho.
    assert (Hs : is_Some (h2 !! a)).
    { apply lookup_lt_is_Some. destruct G2 as [_ S2], Gc as [_ Sc].
      rewrite (same_but_overlap_length _ _ S2), <- (same_but_overlap_length _ _ Sc).
      eapply lookup_lt_Some; eauto. }
    destruct Hs as [o' Ho']. exists o'. split; [exact Ho' |].
    intros g [Wg Sg].
    assert (NDi : NoDup (image_addrs od')) by (eapply WF_image_nodup; eauto).
    assert (Cc : constructed hc (image_addrs od')).
    { intros b Hb. apply (WF_constructed _ _ (proj1 Gc)). apply elem_of_all_addrs. eauto. }
    assert (Cg : constructed g (image_addrs od')).
    { intros b Hb. apply (WF_constructed _ _ Wg). apply elem_of_all_addrs. eauto. }
    destruct (find_overlapping_image_determined od' g hc NDi Cg Cc) as [_ Hag].
    { eapply same_but_overlap_trans; [apply same_but_overlap_sym; exact Sg |].
      exact (proj2 Gc). }
    rewrite (Hag a Ha), E2. exact Ho'.
  - split; [exact W | apply same_but_overlap_refl].
  - exists h'. split; [exact E |].
    apply for_each_fixed. intros od Hod.
    pose proof Hod as Hod'.
    apply list_elem_of_fmap in Hod' as ([image od'] & -> & Hin). simpl.
    destruct (Step image od' h' Hin (conj W' S')) as (h2 & E2 & [_ S2] & F2).
    rewrite E2. f_equal. apply list_eq. intros a.
    destruct (decide (a ∈ image_addrs od')) as [Ha | Ha]; [| apply F2; exact Ha].
    destruct (WF_constructed _ _ W a) as (o & Ho & _);
      [apply elem_of_all_addrs; eauto |].
    destruct (Ht od' a o Hod Ha Ho) as (o' & Ho' & Hg).
    specialize (Hg h' (conj W' S')). rewrite E2 in Hg. simpl in Hg.
    rewrite Hg, Ho'. reflexivity.
Qed.

(** ** Running the other passes again, or too early *)

Lemma dset_dset {V} (k : string) (v : V) (d : list (string * V)) :
  dset k v (dset k v d) = dset k v d.
Proof.
  induction d as [| [k' v'] d IH]; simpl.
  - rewrite String.eqb_refl. reflexivity.
  - destruct (String.eqb k k') eqn:E; simpl; rewrite E; [reflexivity |].
    rewrite IH. reflexivity.
Qed.

Lemma assign_assign pl c d : assign pl c (assign pl c d) = assign pl c d.
Proof. destruct c; simpl; [apply dset_dset | reflexivity]. Qed.

Lemma dup_flag_set_duplicate v o :
  dup_flag (HierObject.set_duplicate v o) = dup_flag o.
Proof. reflexivity. Qed.

(** A loop whose rounds either return at once or raise at once. *)
Lemma for_each_either {S X} (p : X -> bool) (e : exn) (l : list X)
    (body : X -> M S unit) (s : S) :
  (forall x, x ∈ l -> body x s = if p x then (Raise e, s) else (Ok tt, s)) ->
  for_each l body s = if existsb p l then (Raise e, s) else (Ok tt, s).
Proof.
  induction l as [| x l IH]; intros H; simpl; [reflexivity |].
  unfold bind. rewrite (H x ltac:(left)).
  destruct (p x); simpl; [reflexivity |].
  apply IH. intros y Hy. apply H. right. exact Hy.
Qed.

Lemma existsb_nonempty_concat {A B} (f : B -> list A) (ls : list B) :
  existsb (fun x => nonempty (f x)) ls = nonempty (concat (map f ls)).
Proof.
  induction ls as [| l ls IH]; simpl; [reflexivity |].
  destruct (f l); simpl; [exact IH | reflexivity].
Qed.

Lemma find_duplicates_raises all_obj (h : list HierObject.t) :
  unpopulated all_obj h = true ->
  find_duplicates all_obj h
  = if nonempty (all_addrs all_obj) then (Raise AttributeError, h) else (Ok tt, h).
Proof.
  intros U. unfold unpopulated in U. rewrite forallb_elem_of in U.
  assert (Obj : forall a, a ∈ all_addrs all_obj ->
            (o <- get_obj a ;;
             match HierObject.redundant_and_not_last threshold_default o with
             | Raise e => raise e
             | Ok b => modify a (HierObject.set_duplicate (Some b))
             end) h = (Raise AttributeError, h)).
  { intros a Ha. specialize (U a Ha).
    destruct (h !! a) as [o |] eqn:Ho; [| discriminate].
    rewrite (bind_ok _ _ _ _ _ (get_obj_ok _ _ _ Ho)).
    unfold HierObject.redundant_and_not_last.
    destruct (HierObject.overlap o); [discriminate | reflexivity]. }
  unfold find_duplicates, all_addrs in *.
  rewrite <- existsb_nonempty_concat.
  apply for_each_either. intros od Hod.
  unfold image_addrs. rewrite <- (map_id (dvalues od)) at 2.
  rewrite <- existsb_nonempty_concat.
  apply for_each_either. intros l Hl.
  assert (Hin : forall a, a ∈ l -> a ∈ concat (map image_addrs (dvalues all_obj))).
  { intros a Ha. apply elem_of_concat. exists (image_addrs od).
    split; [| apply list_elem_of_fmap; eauto].
    apply elem_of_concat. eauto. }
  destruct l as [| a l]; [reflexivity |]. simpl.
  unfold bind at 1. rewrite (Obj a (Hin a ltac:(left))). reflexivity.
Qed.

(** X17: [find_duplicates] can be run again: the flags depend on the
    overlap facts only, so a second run changes nothing. *)
Theorem find_duplicates_idempotent
    (all_obj : list (string * list (string * list nat))) (h : list HierObject.t) :
  NoDup (all_addrs all_obj) -> populated all_obj h = true ->
  exists h',
    find_duplicates all_obj h = (Ok tt, h')
    /\ find_duplicates all_obj h' = (Ok tt, h').
Proof.
  intros ND P.
  destruct (find_duplicates_spec all_obj h ND P) as (h' & E & F & T).
  pose proof (proj1 (populated_spec _ _) P) as Hp.
  assert (P' : populated all_obj h' = true).
  { apply populated_spec. intros a Ha. destruct (Hp a Ha) as (o & Ho & So).
    rewrite (T a o Ha Ho). eauto. }
  destruct (find_duplicates_spec all_obj h' ND P') as (h'' & E' & F' & T').
  exists h'. split; [exact E |]. rewrite E'. f_equal.
  apply list_eq. intros a.
  destruct (decide (a ∈ all_addrs all_obj)) as [Ha | Ha]; [| apply F'; exact Ha].
  destruct (Hp a Ha) as (o & Ho & _).
  rewrite (T' a _ Ha (T a o Ha Ho)), (T a o Ha Ho). reflexivity.
Qed.

(** X18: [find_duplicates] before [find_overlapping_objects] raises
    [AttributeError] at the first object, whose [overlap] member is
    still [None], and changes nothing; on a collection without objects
    it returns. *)
Theorem find_duplicates_unpopulated
    (all_obj : list (string * list (string * list nat))) (h : list HierObject.t) :
  unpopulated all_obj h = true ->
  (all_addrs all_obj <> [] -> find_duplicates all_obj h = (Raise AttributeError, h))
  /\ (all_addrs all_obj = [] -> find_duplicates all_obj h = (Ok tt, h)).
Proof.
  intros U. rewrite (find_duplicates_raises _ _ U).
  destruct (all_addrs all_obj); simpl; split; congruence.
Qed.

(** X20: without label pairs, [None] or an empty list, [get_hierarchy]
    fills in [overlap] and [duplicate] and leaves [parent] and
    [children] as they were. *)
Theorem get_hierarchy_no_pairs
    (all_obj : list (string * list (string * list nat))) (h : list HierObject.t) :
  wf_coll all_obj h = true ->
  exists h',
    get_hierarchy all_obj None h = (Ok tt, h')
    /\ get_hierarchy all_obj (Some []) h = (Ok tt, h')
    /\ forall a o, a ∈ all_addrs all_obj -> h !! a = Some o ->
         exists o', h' !! a = Some o'
           /\ is_Some (HierObject.overlap o') /\ is_Some (HierObject.duplicate o')
           /\ HierObject.parent o' = HierObject.parent o
           /\ HierObject.children o' = HierObject.children o.
Proof.
  intros W. apply wf_coll_WF in W.
  destruct (find_overlapping_objects_ok all_obj h W) as (h1 & E1 & W1 & F1 & T1 & L1).
  destruct (find_duplicates_ok all_obj h1 W1 F1)
    as (h2 & E2 & W2 & F2 & L2 & T2 & O2).
  exists h2. unfold get_hierarchy.
  rewrite (bind_ok _ _ _ _ _ E1), (bind_ok _ _ _ _ _ E2).
  split; [reflexivity |]. split; [reflexivity |].
  intros a o Ha Ho. destruct (T1 a o Ho) as (o1 & Ho1 & Eo1).
  rewrite (T2 a o1 Ha Ho1). eexists. split; [reflexivity |].
  apply elem_of_all_addrs in Ha as (image & od & Hin & Ha).
  destruct (F1 image od a Hin Ha) as (o1' & Ho1' & S1 & _).
  rewrite Ho1 in Ho1'. injection Ho1' as <-.
  split; [exact S1 |]. split; [simpl; eauto |].
  rewrite Eo1. split; reflexivity.
Qed.

(** X21: running [find_parent] a second time for the same pair of
    labels keeps every [parent] entry and appends to every [children]
    list the children the first run appended, once more. *)
Theorem find_parent_twice
    (all_obj : list (string * list (string * list nat))) (h : list HierObject.t)
    (cl pl : string) :
  wf_coll all_obj h = true -> facts_ok all_obj h = true ->
  exists h1 h2,
    find_parent all_obj cl pl h = (Ok tt, h1)
    /\ find_parent all_obj cl pl h1 = (Ok tt, h2)
    /\ forall a o, a ∈ all_addrs all_obj -> h !! a = Some o ->
         exists o1 o2 kids,
           h1 !! a = Some o1 /\ h2 !! a = Some o2
           /\ HierObject.parent o2 = HierObject.parent o1
           /\ dget_list cl (default [] (HierObject.children o1))
              = dget_list cl (default [] (HierObject.children o)) ++ kids
           /\ dget_list cl (default [] (HierObject.children o2))
              = dget_list cl (default [] (HierObject.children o1)) ++ kids.
Proof.
  intros W F. apply wf_coll_WF in W. apply facts_ok_FactsOK in F.
  destruct (find_parent_spec all_obj h cl pl W F) as (h1 & E1 & P1 & _ & T1).
  pose proof (WF_pc_only _ _ _ P1 W) as W1.
  pose proof (FactsOK_pc_only _ _ _ P1 F) as F1.
  destruct (find_parent_spec all_obj h1 cl pl W1 F1) as (h2 & E2 & P2 & _ & T2).
  exists h1, h2. split; [exact E1 |]. split; [exact E2 |].
  intros a o Ha Ho.
  apply elem_of_all_addrs in Ha as (image & od & Hin & Ha).
  pose proof (T1 image od a o Hin Ha Ho) as Ho1.
  pose proof (T2 image od a _ Hin Ha Ho1) as Ho2.
  eexists _, _, (match active cl pl od with
                 | Some (cs, _) => assigned h pl cs a
                 | None => []
                 end).
  split; [exact Ho1 |]. split; [exact Ho2 |].
  unfold image_parent, image_children.
  destruct (active cl pl od) as [[cs ps] |] eqn:A.
  - cbn [pc HierObject.set_parent HierObject.set_children HierObject.parent
         HierObject.children].
    split; [| split].
    + unfold new_parent. cbn [HierObject.parent HierObject.set_parent
                              HierObject.set_children].
      destruct (bool_decide (a ∈ cs)); [| reflexivity].
      cbn [default from_option id].
      match goal with
      | |- context [chosen h1 pl ?x] =>
          change x with (pc (Some (assign pl (chosen h pl o)
                                     (default [] (HierObject.parent o))))
                            (add_kids cl (assigned h pl cs a) (init_children ps a o)) o)
      end.
      rewrite (chosen_pc _ _ _ _ _ _ P1).
      cbn [pc HierObject.parent HierObject.set_parent HierObject.set_children
           default from_option id].
      rewrite assign_assign. reflexivity.
    + rewrite add_kids_dget, init_children_default. reflexivity.
    + rewrite add_kids_dget, init_children_default.
      rewrite (assigned_pc _ _ _ _ _ P1). reflexivity.
  - cbn [pc HierObject.set_parent HierObject.set_children HierObject.parent
         HierObject.children].
    rewrite !app_nil_r. auto.
Qed.

(** ** Links between children and parents *)

Lemma active_of_buckets cl pl (od : list (string * list nat)) cs ps i j c p :
  dget cl od = Some cs -> dget pl od = Some ps ->
  cs !! i = Some c -> ps !! j = Some p ->
  active cl pl od = Some (cs, ps).
Proof.
  intros Hc Hp Hi Hj. unfold active. rewrite Hc, Hp.
  destruct cs; [discriminate |]. destruct ps; [discriminate |]. reflexivity.
Qed.

Lemma WF_bucket_entry all_obj h image od lbl l i a :
  WF all_obj h -> (image, od) ∈ all_obj -> dget lbl od = Some l -> l !! i = Some a ->
  exists o, h !! a = Some o /\ HierObject.label o = lbl /\ HierObject.index o = i.
Proof.
  intros W Hin Hl Hi.
  destruct (wf_entry _ _ W image od lbl l i a Hin (dget_In _ _ _ Hl) Hi)
    as (o & Ho & _ & L & I & _).
  eauto.
Qed.

Lemma elem_of_assigned h pl cs a i :
  i ∈ assigned h pl cs a <->
  exists c oc f, c ∈ cs /\ h !! c = Some oc /\ chosen h pl oc = Some f
                 /\ Overlap.obj f = a /\ HierObject.index oc = i.
Proof.
  unfold assigned. rewrite list_elem_of_In, in_flat_map. split.
  - intros (c & Hc & Hi). apply list_elem_of_In in Hc.
    destruct (h !! c) as [oc |] eqn:Hoc; [| inversion Hi].
    destruct (chosen h pl oc) as [f |] eqn:Hf; [| inversion Hi].
    destruct (Overlap.obj f =? a) eqn:E; [| inversion Hi].
    apply Nat.eqb_eq in E. destruct Hi as [<- | []].
    exists c, oc, f. auto.
  - intros (c & oc & f & Hc & Hoc & Hf & <- & <-).
    exists c. split; [apply list_elem_of_In; exact Hc |].
    rewrite Hoc, Hf, Nat.eqb_refl. left. reflexivity.
Qed.

Lemma find_parent_image_inactive cl pl (od : list (string * list nat))
    (h : list HierObject.t) :
  active cl pl od = None -> find_parent_image cl pl od h = (Ok tt, h).
Proof.
  unfold active, find_parent_image.
  destruct (dget cl od) as [[| c cs] |]; try reflexivity.
  destruct (dget pl od) as [[| p ps] |]; try reflexivity. discriminate.
Qed.

Lemma unpopulated_spec all_obj h :
  unpopulated all_obj h = true ->
  forall a, a ∈ all_addrs all_obj ->
    exists o, h !! a = Some o /\ HierObject.overlap o = None
              /\ HierObject.duplicate o = None.
Proof.
  unfold unpopulated. rewrite forallb_elem_of. intros H a Ha.
  specialize (H a Ha). destruct (h !! a) as [o |]; [| discriminate].
  exists o. split; [reflexivity |].
  destruct (HierObject.overlap o), (HierObject.duplicate o); try discriminate.
  split; reflexivity.
Qed.

(** The first child of an image makes [find_parent] raise when its
    [overlap] member is [None]. *)
Lemma find_parent_image_raises cl pl (od : list (string * list nat))
    (h : list HierObject.t) cs ps :
  active cl pl od = Some (cs, ps) ->
  (forall a, a ∈ cs ++ ps ->
     exists o, h !! a = Some o /\ HierObject.overlap o = None
               /\ HierObject.duplicate o = None) ->
  fst (find_parent_image cl pl od h) = Raise AttributeError.
Proof.
  intros A U. destruct (active_dget _ _ _ _ _ A) as [Hc Hp].
  destruct (active_Some _ _ _ _ _ A) as (_ & Nc & _ & Np).
  unfold find_parent_image. rewrite Hc, Hp.
  destruct cs as [| c cs]; [congruence |]. destruct ps as [| p ps]; [congruence |].
  destruct (init_children_spec (p :: ps) h) as (h1 & E1 & L1 & T1).
  { intros q Hq. destruct (U q) as (o & -> & _); [| eauto].
    apply elem_of_app. right. exact Hq. }
  rewrite (bind_ok _ _ _ _ _ E1).
  destruct (U c) as (oc & Hoc & Ov & Du); [apply elem_of_app; left; left |].
  pose proof (T1 c oc Hoc) as Hoc1.
  cbn [for_each]. unfold bind at 1. unfold find_parent_child.
  rewrite (bind_ok _ _ _ _ _ (get_obj_ok _ _ _ Hoc1)).
  set (oc1 := pc (HierObject.parent oc) (init_children (p :: ps) c oc) oc) in *.
  assert (Hdup : forall np, HierObject.duplicate (HierObject.set_parent np oc1) = None)
    by (intros np; exact Du).
  assert (Hov : forall np, HierObject.overlap (HierObject.set_parent np oc1) = None)
    by (intros np; exact Ov).
  destruct (HierObject.parent oc1) eqn:Pa.
  - unfold bind at 1. unfold ret at 1.
    rewrite (bind_ok _ _ _ _ _ (get_obj_ok _ _ _ Hoc1)).
    change (HierObject.duplicate oc1) with (HierObject.duplicate oc).
    change (HierObject.overlap oc1) with (HierObject.overlap oc).
    rewrite Du, Ov. reflexivity.
  - rewrite (bind_ok _ _ _ _ _ (modify_ok _ _ _ _ Hoc1)).
    assert (H2 : <[c := HierObject.set_parent (Some []) oc1]> h1 !! c
                 = Some (HierObject.set_parent (Some []) oc1)).
    { apply list_lookup_insert_eq. eapply lookup_lt_Some; eauto. }
    rewrite (bind_ok _ _ _ _ _ (get_obj_ok _ _ _ H2)).
    rewrite Hdup, Hov. reflexivity.
Qed.

Lemma find_parent_raises all_obj cl pl (h : list HierObject.t) :
  (forall od cs ps a, od ∈ dvalues all_obj -> active cl pl od = Some (cs, ps) ->
     a ∈ cs ++ ps ->
     exists o, h !! a = Some o /\ HierObject.overlap o = None
               /\ HierObject.duplicate o = None) ->
  (exists od, od ∈ dvalues all_obj /\ active cl pl od <> None) ->
  fst (find_parent all_obj cl pl h) = Raise AttributeError.
Proof.
  unfold find_parent. induction (dvalues all_obj) as [| od l IH]; intros U (od' & Hin & Hact).
  - inversion Hin.
  - cbn [for_each]. unfold bind.
    destruct (active cl pl od) as [[cs ps] |] eqn:A.
    + pose proof (find_parent_image_raises cl pl od h cs ps A) as R.
      destruct (find_parent_image cl pl od h) as [[[] | e] h1]; simpl in R.
      * discriminate R; intros a Ha; eapply U; [left | exact A | exact Ha].
      * apply R. intros a Ha. eapply U; [left | exact A | exact Ha].
    + rewrite (find_parent_image_inactive _ _ _ _ A).
      apply IH.
      * intros od0 cs ps a H0. apply U. right. exact H0.
      * apply elem_of_cons in Hin as [-> | Hin]; [congruence |]. eauto.
Qed.

(** X22: after [find_parent] on a collection on which it has not run
    before, the links point both ways: the child number [i] of an
    image has the parent number [j] recorded exactly when [i] is in
    the children list of that parent. *)
Theorem find_parent_links
    (all_obj : list (string * list (string * list nat))) (h : list HierObject.t)
    (cl pl : string) :
  wf_coll all_obj h = true -> facts_ok all_obj h = true -> fresh all_obj h = true ->
  exists h',
    find_parent all_obj cl pl h = (Ok tt, h')
    /\ forall image od cs ps i j c p oc op,
         (image, od) ∈ all_obj -> dget cl od = Some cs -> dget pl od = Some ps ->
         cs !! i = Some c -> ps !! j = Some p ->
         h' !! c = Some oc -> h' !! p = Some op ->
         (dget pl (default [] (HierObject.parent oc)) = Some j
          <-> i ∈ dget_list cl (default [] (HierObject.children op))).
Proof.
  intros W F Fr. apply wf_coll_WF in W. apply facts_ok_FactsOK in F.
  destruct (find_parent_spec all_obj h cl pl W F) as (h' & E & _ & _ & T).
  exists h'. split; [exact E |].
  intros image od cs ps i j c p oc op Hin Hcs Hps Hi Hj Hoc Hop.
  pose proof (active_of_buckets _ _ _ _ _ _ _ _ _ Hcs Hps Hi Hj) as A.
  assert (Hc : c ∈ cs) by (apply list_elem_of_lookup; eauto).
  assert (Hp : p ∈ ps) by (apply list_elem_of_lookup; eauto).
  pose proof (bucket_in_image _ _ _ _ Hcs Hc) as Hci.
  pose proof (bucket_in_image _ _ _ _ Hps Hp) as Hpi.
  destruct (WF_bucket_entry _ _ _ _ _ _ _ _ W Hin Hcs Hi) as (oc0 & Hoc0 & _ & Ic).
  destruct (WF_bucket_entry _ _ _ _ _ _ _ _ W Hin Hps Hj) as (op0 & Hop0 & _ & Ip).
  destruct (fresh_spec _ _ Fr c oc0) as [Pc _];
    [apply elem_of_all_addrs; eauto | exact Hoc0 |].
  destruct (fresh_spec _ _ Fr p op0) as [_ Cp];
    [apply elem_of_all_addrs; eauto | exact Hop0 |].
  rewrite (T image od c oc0 Hin Hci Hoc0) in Hoc. injection Hoc as <-.
  rewrite (T image od p op0 Hin Hpi Hop0) in Hop. injection Hop as <-.
  unfold image_parent, image_children. rewrite A.
  cbn [pc HierObject.set_parent HierObject.set_children HierObject.parent
       HierObject.children].
  rewrite add_kids_dget, init_children_default, Cp.
  unfold new_parent. rewrite (bool_decide_eq_true_2 _ Hc), Pc.
  cbn [default from_option id dget_list dget app].
  rewrite elem_of_assigned. split.
  - intros Hd. destruct (chosen h pl oc0) as [f |] eqn:Hf; [| discriminate].
    simpl in Hd. rewrite String.eqb_refl in Hd. injection Hd as Hd.
    exists c, oc0, f. split; [exact Hc |]. split; [exact Hoc0 |].
    split; [exact Hf |]. split; [| exact Ic].
    destruct (chosen_candidate _ _ _ _ Hf) as (_ & Hfa & _).
    destruct (fact_target_in_bucket _ _ _ _ _ _ _ _ W F Hin Hci Hoc0 Hfa)
      as (_ & p' & ps' & Hp' & Ip' & _ & Hps' & Hfp).
    rewrite Hps in Hps'. injection Hps' as <-.
    apply list_elem_of_lookup in Hfp as [k Hk].
    destruct (WF_bucket_entry _ _ _ _ _ _ _ _ W Hin Hps Hk) as (p'' & Hp'' & _ & Ik).
    rewrite Hp' in Hp''. injection Hp'' as <-.
    assert (k = j) by congruence. subst k. congruence.
  - intros (c0 & oc' & f & Hc0 & Hoc' & Hf & Hfp & Ic0).
    apply list_elem_of_lookup in Hc0 as [k Hk].
    destruct (WF_bucket_entry _ _ _ _ _ _ _ _ W Hin Hcs Hk) as (o'' & Ho'' & _ & Ik).
    rewrite Hoc' in Ho''. injection Ho'' as <-.
    assert (k = i) by congruence. subst k.
    assert (c0 = c) by congruence. subst c0.
    rewrite Hoc0 in Hoc'. injection Hoc' as <-.
    rewrite Hf. simpl. rewrite String.eqb_refl. f_equal.
    destruct (chosen_candidate _ _ _ _ Hf) as (_ & Hfa & _).
    destruct (fact_target_in_bucket _ _ _ _ _ _ _ _ W F Hin Hci Hoc0 Hfa)
      as (_ & p' & ps' & Hp' & Ip' & _).
    rewrite Hfp, Hop0 in Hp'. injection Hp' as <-. congruence.
Qed.

(** X24: [find_parent] before [find_overlapping_objects] raises
    [AttributeError] as soon as an image has objects of both classes:
    the [overlap] member of the first child is still [None]; when no
    image has both, it returns and changes nothing. *)
Theorem find_parent_unpopulated
    (all_obj : list (string * list (string * list nat))) (h : list HierObject.t)
    (cl pl : string) :
  unpopulated all_obj h = true ->
  ((exists image od, (image, od) ∈ all_obj /\ active cl pl od <> None) ->
   fst (find_parent all_obj cl pl h) = Raise AttributeError)
  /\ ((forall image od, (image, od) ∈ all_obj -> active cl pl od = None) ->
      find_parent all_obj cl pl h = (Ok tt, h)).
Proof.
  intros U. pose proof (unpopulated_spec _ _ U) as Us. split.
  - intros (image & od & Hin & A). apply find_parent_raises.
    + intros od0 cs ps a Hod A0 Ha. apply Us.
      apply list_elem_of_fmap in Hod as ([image0 od1] & -> & Hin0). simpl in *.
      destruct (active_dget _ _ _ _ _ A0) as [Hc Hp].
      apply elem_of_all_addrs. exists image0, od1. split; [exact Hin0 |].
      apply elem_of_app in Ha as [Ha | Ha];
        [exact (bucket_in_image _ _ _ _ Hc Ha) | exact (bucket_in_image _ _ _ _ Hp Ha)].
    + exists od. split; [| exact A]. apply list_elem_of_fmap. exists (image, od). auto.
  - intros H. unfold find_parent. apply for_each_fixed. intros od Hod.
    apply list_elem_of_fmap in Hod as ([image od'] & -> & Hin). simpl.
    apply find_parent_image_inactive. eapply H; eauto.
Qed.

(** ** Children lists and thresholds *)

Lemma assigned_nodup h pl (cs : list nat) a :
  NoDup cs ->
  (forall c1 c2 o1 o2, c1 ∈ cs -> c2 ∈ cs -> h !! c1 = Some o1 -> h !! c2 = Some o2 ->
     HierObject.index o1 = HierObject.index o2 -> c1 = c2) ->
  NoDup (assigned h pl cs a).
Proof.
  induction cs as [| c cs IH]; intros ND Inj.
  - constructor.
  - apply NoDup_cons in ND as [Hc ND]. rewrite assigned_cons.
    apply NoDup_app. split; [| split].
    + unfold assigned. simpl. rewrite app_nil_r.
      destruct (h !! c) as [oc |]; [| constructor].
      destruct (chosen h pl oc); [| constructor].
      destruct (Overlap.obj _ =? a); [apply NoDup_singleton | constructor].
    + intros i Hi Hi'.
      apply elem_of_assigned in Hi as (c1 & o1 & f1 & Hc1 & Ho1 & _ & _ & I1).
      apply elem_of_assigned in Hi' as (c2 & o2 & f2 & Hc2 & Ho2 & _ & _ & I2).
      apply list_elem_of_singleton in Hc1. subst c1.
      assert (c = c2).
      { apply (Inj c c2 o1 o2); [left | right; exact Hc2 | exact Ho1 | exact Ho2 |].
        congruence. }
      subst c2. contradiction.
    + apply IH; [exact ND |].
      intros c1 c2 o1 o2 H1 H2. apply Inj; right; assumption.
Qed.

Lemma existsb_impl {A} (p q : A -> bool) (l : list A) :
  (forall x, p x = true -> q x = true) -> existsb p l = true -> existsb q l = true.
Proof.
  intros H. rewrite !existsb_exists. intros (x & Hx & Hp). eauto.
Qed.

(** X23: after [find_parent] on a collection on which it has not run
    before, no [children] list names a child twice. *)
Theorem find_parent_children_nodup
    (all_obj : list (string * list (string * list nat))) (h : list HierObject.t)
    (cl pl : string) :
  wf_coll all_obj h = true -> facts_ok all_obj h = true -> fresh all_obj h = true ->
  exists h',
    find_parent all_obj cl pl h = (Ok tt, h')
    /\ forall a o, a ∈ all_addrs all_obj -> h' !! a = Some o ->
         NoDup (dget_list cl (default [] (HierObject.children o))).
Proof.
  intros W F Fr. apply wf_coll_WF in W. apply facts_ok_FactsOK in F.
  destruct (find_parent_spec all_obj h cl pl W F) as (h' & E & _ & _ & T).
  exists h'. split; [exact E |]. intros a o' Ha Ho'.
  pose proof Ha as Ha'.
  apply elem_of_all_addrs in Ha' as (image & od & Hin & Hai).
  destruct (WF_constructed _ _ W a Ha) as (o & Ho & _).
  destruct (fresh_spec _ _ Fr a o Ha Ho) as [_ Cp].
  rewrite (T image od a o Hin Hai Ho) in Ho'. injection Ho' as <-.
  unfold image_children.
  cbn [pc HierObject.set_parent HierObject.set_children HierObject.children].
  destruct (active cl pl od) as [[cs ps] |] eqn:A.
  - rewrite add_kids_dget, init_children_default, Cp.
    cbn [default from_option id dget_list dget app].
    destruct (active_dget _ _ _ _ _ A) as [Hcs _].
    apply assigned_nodup.
    + eapply bucket_nodup; [eapply WF_image_nodup; eauto | exact Hcs].
    + intros c1 c2 o1 o2 H1 H2 Ho1 Ho2 Ei.
      apply list_elem_of_lookup in H1 as [k1 Hk1].
      apply list_elem_of_lookup in H2 as [k2 Hk2].
      destruct (WF_bucket_entry _ _ _ _ _ _ _ _ W Hin Hcs Hk1) as (o1' & Ho1' & _ & I1).
      destruct (WF_bucket_entry _ _ _ _ _ _ _ _ W Hin Hcs Hk2) as (o2' & Ho2' & _ & I2).
      rewrite Ho1 in Ho1'. injection Ho1' as <-.
      rewrite Ho2 in Ho2'. injection Ho2' as <-.
      assert (k1 = k2) by congruence. subst k2. congruence.
  - rewrite Cp. constructor.
Qed.

(** X12: [redundant_and_not_last] raises [AttributeError] while the
    [overlap] member is [None]; once it is set, an object redundant
    at a threshold is redundant at every lower one. *)
Theorem redundant_and_not_last_threshold (t1 t2 : Q) (self : HierObject.t) :
  (HierObject.overlap self = None ->
   HierObject.redundant_and_not_last t1 self = Raise AttributeError)
  /\ ((t2 <= t1)%Q ->
      HierObject.redundant_and_not_last t1 self = Ok true ->
      HierObject.redundant_and_not_last t2 self = Ok true).
Proof.
  unfold HierObject.redundant_and_not_last. split.
  - intros ->. reflexivity.
  - intros Ht. destruct (HierObject.overlap self) as [ov |]; [| discriminate].
    destruct (dget (HierObject.label self) ov) as [[| f over] |]; try discriminate.
    intros [= H]. f_equal.
    eapply existsb_impl; [| exact H]. intros x.
    rewrite !andb_true_iff, !Qltb_lt. intros [A B]. split; [lra | exact B].
Qed.

Lemma find_parent_children_nodup_witness :
  exists h', find_parent sample_all "Object" "Group" sample_flagged = (Ok tt, h').
Proof.
  destruct (find_parent_children_nodup sample_all sample_flagged "Object" "Group")
    as (h' & E & _).
  - vm_compute. reflexivity.
  - vm_compute. reflexivity.
  - vm_compute. reflexivity.
  - exists h'. exact E.
Defined.

Lemma redundant_and_not_last_threshold_witness :
  HierObject.redundant_and_not_last (1 # 10) (sample_object_overlapped 2) = Ok true.
Proof.
  apply (proj2 (redundant_and_not_last_threshold (5 # 10) (1 # 10)
                  (sample_object_overlapped 2))).
  - apply Qleb_le. vm_compute. reflexivity.
  - vm_compute. reflexivity.
Defined.

(** ** [dict_for_json] *)

Lemma forallb_map_true {A B} (f : A -> B) (p : B -> bool) (l : list A) :
  (forall x, p (f x) = true) -> forallb p (map f l) = true.
Proof. intros H. induction l; simpl; [reflexivity |]. rewrite H, IHl. reflexivity. Qed.

Lemma json_ready_overlap (ov : list (string * list Overlap.t)) :
  json_ready (PDict (map (fun e => (e.1, json_overlap_list e.2))
                       (map (fun e => (e.1, PList (map POverlap e.2))) ov))) = true.
Proof.
  simpl. rewrite map_map. apply forallb_map_true. intros [l fs]. simpl.
  rewrite map_map. apply forallb_map_true. intros f. reflexivity.
Qed.

Lemma json_ready_opt {A} (f : A -> pyval) (x : option A) :
  (forall a, json_ready (f a) = true) -> json_ready (pyopt f x) = true.
Proof. intros H. destruct x; simpl; auto. Qed.

Lemma json_ready_parent (d : list (string * nat)) :
  json_ready (PDict (map (fun e => (e.1, PInt e.2)) d)) = true.
Proof. simpl. apply forallb_map_true. reflexivity. Qed.

Lemma json_ready_children (d : list (string * list nat)) :
  json_ready (PDict (map (fun e => (e.1, PList (map PInt e.2))) d)) = true.
Proof.
  simpl. apply forallb_map_true. intros [l ns]. simpl.
  apply forallb_map_true. reflexivity.
Qed.

Lemma cons_eq_inv {A} (x y : A) (l l' : list A) :
  x :: l = y :: l' -> x = y /\ l = l'.
Proof. intros [= -> ->]. auto. Qed.

Lemma pair_eq_inv {A B} (a a' : A) (b b' : B) : (a, b) = (a', b') -> a = a' /\ b = b'.
Proof. intros [= -> ->]. auto. Qed.

Lemma PList_inv (l l' : list pyval) : PList l = PList l' -> l = l'.
Proof. intros [= ->]. reflexivity. Qed.

Lemma forget_fact_json f1 f2 :
  json_overlap (POverlap f1) = json_overlap (POverlap f2) <->
  forget_fact f1 = forget_fact f2.
Proof.
  destruct f1, f2. unfold forget_fact. simpl. split.
  - intros [= -> -> -> -> -> -> -> -> ]. reflexivity.
  - intros [= -> -> -> -> -> -> -> -> ]. reflexivity.
Qed.

Lemma forget_facts_json (l1 l2 : list Overlap.t) :
  map json_overlap (map POverlap l1) = map json_overlap (map POverlap l2) <->
  map forget_fact l1 = map forget_fact l2.
Proof.
  revert l2. induction l1 as [| f1 l1 IH]; intros [| f2 l2]; simpl;
    try (split; [discriminate | discriminate]); [tauto |].
  split.
  - intros E. apply cons_eq_inv in E as [E1 E2].
    apply (proj1 (forget_fact_json f1 f2)) in E1. apply IH in E2. congruence.
  - intros E. apply cons_eq_inv in E as [E1 E2].
    apply IH in E2. rewrite E2.
    pose proof (proj2 (forget_fact_json f1 f2) E1) as A. simpl in A. rewrite A.
    reflexivity.
Qed.

Lemma forget_overlap_json (ov1 ov2 : list (string * list Overlap.t)) :
  map (fun e => (e.1, json_overlap_list e.2))
      (map (fun e => (e.1, PList (map POverlap e.2))) ov1)
  = map (fun e => (e.1, json_overlap_list e.2))
        (map (fun e => (e.1, PList (map POverlap e.2))) ov2)
  <-> map (fun e => (e.1, map forget_fact e.2)) ov1
      = map (fun e => (e.1, map forget_fact e.2)) ov2.
Proof.
  revert ov2. induction ov1 as [| [k1 l1] ov1 IH]; intros [| [k2 l2] ov2]; simpl;
    try (split; [discriminate | discriminate]); [tauto |].
  split.
  - intros E. apply cons_eq_inv in E as [E1 E3].
    apply pair_eq_inv in E1 as [E1 E2]. apply PList_inv in E2.
    apply forget_facts_json in E2. apply IH in E3. congruence.
  - intros E. apply cons_eq_inv in E as [E1 E3].
    apply pair_eq_inv in E1 as [E1 E2].
    apply forget_facts_json in E2. apply IH in E3. congruence.
Qed.

Lemma json_ready_dict_for_json (overlap_info : bool) (self : HierObject.t) :
  json_ready_but_obj (dict_for_json overlap_info self) = true.
Proof.
  unfold json_ready_but_obj, dict_for_json, vars. destruct overlap_info; simpl.
  - destruct (HierObject.overlap self) as [ov |]; simpl.
    + pose proof (json_ready_overlap ov) as R. simpl in R. rewrite R.
      rewrite !json_ready_opt;
        auto using json_ready_parent, json_ready_children.
    + rewrite !json_ready_opt;
        auto using json_ready_parent, json_ready_children.
  - rewrite !json_ready_opt;
      auto using json_ready_parent, json_ready_children.
Qed.

(** X25: the dictionary [dict_for_json] returns has the members of the
    object as keys, in their order, without [all], and without
    [overlap] when that is not asked for; under [obj] it holds the
    row the object was made from, as it is, and no other value in it
    holds a reference to the collection or to another object. *)
Theorem dict_for_json_members (overlap_info : bool) (self : HierObject.t) :
  dkeys (dict_for_json overlap_info self)
  = List.filter (fun k => negb (String.eqb k "all")
                          && (overlap_info || negb (String.eqb k "overlap")))
                member_names
  /\ dget "obj" (dict_for_json overlap_info self) = Some (PRow (HierObject.obj self))
  /\ json_ready_but_obj (dict_for_json overlap_info self) = true.
Proof.
  split; [| split; [| apply json_ready_dict_for_json]].
  - unfold dict_for_json, vars. destruct overlap_info; simpl.
    + destruct (HierObject.overlap self) as [ov |]; reflexivity.
    + reflexivity.
  - unfold dict_for_json, vars. destruct overlap_info; simpl.
    + destruct (HierObject.overlap self) as [ov |]; reflexivity.
    + reflexivity.
Qed.

(** X26: with the overlap information included, [dict_for_json] drops
    the reference to the collection and the references the overlap
    facts hold, and nothing else: two objects have the same dictionary
    exactly when they agree on everything but these references. *)
Theorem dict_for_json_injective (o1 o2 : HierObject.t) :
  dict_for_json true o1 = dict_for_json true o2 <-> forget o1 = forget o2.
Proof.
  destruct o1 as [r1 c1 l1 i1 a1 b1 d1 e1 w1 h1 xc1 yc1 ar1 ix1 ov1 du1 pa1 ch1].
  destruct o2 as [r2 c2 l2 i2 a2 b2 d2 e2 w2 h2 xc2 yc2 ar2 ix2 ov2 du2 pa2 ch2].
  unfold dict_for_json, vars, forget. simpl.
  assert (Hpa : forall p1 p2 : option (list (string * nat)),
            pyopt (fun d => PDict (map (fun e => (e.1, PInt e.2)) d)) p1
            = pyopt (fun d => PDict (map (fun e => (e.1, PInt e.2)) d)) p2
            -> p1 = p2).
  { intros [p1 |] [p2 |]; simpl; try discriminate; [| reflexivity].
    intros [= E]. f_equal. revert p2 E.
    induction p1 as [| [k v] p1 IH]; intros [| [k' v'] p2]; simpl; try discriminate;
      [reflexivity |].
    intros [= -> -> E]. f_equal. apply IH. exact E. }
  assert (Hints : forall x y : list nat, map PInt x = map PInt y -> x = y).
  { induction x as [| n x IH]; intros [| m y]; simpl; try discriminate; [reflexivity |].
    intros [= -> E]. f_equal. apply IH. exact E. }
  assert (Hch : forall p1 p2 : option (list (string * list nat)),
            pyopt (fun d => PDict (map (fun e => (e.1, PList (map PInt e.2))) d)) p1
            = pyopt (fun d => PDict (map (fun e => (e.1, PList (map PInt e.2))) d)) p2
            -> p1 = p2).
  { intros [p1 |] [p2 |]; simpl; try discriminate; [| reflexivity].
    intros [= E]. f_equal. revert p2 E.
    induction p1 as [| [k v] p1 IH]; intros [| [k' v'] p2]; simpl; try discriminate;
      [reflexivity |].
    intros [= -> Ev E]. apply Hints in Ev. subst v'. f_equal. apply IH. exact E. }
  assert (Hdu : forall p1 p2 : option bool, pyopt PBool p1 = pyopt PBool p2 -> p1 = p2).
  { intros [p1 |] [p2 |]; simpl; congruence. }
  split.
  - destruct ov1 as [ov1 |], ov2 as [ov2 |]; simpl; try discriminate.
    + intros E. injection E as -> -> -> -> -> -> -> -> -> -> -> -> -> Eo Ed Ep Ec.
      apply forget_overlap_json in Eo. apply Hdu in Ed. apply Hpa in Ep.
      apply Hch in Ec. subst. simpl in Eo. rewrite Eo. reflexivity.
    + intros E. injection E as -> -> -> -> -> -> -> -> -> -> -> -> -> Ed Ep Ec.
      apply Hdu in Ed. apply Hpa in Ep. apply Hch in Ec. subst. reflexivity.
  - intros E. injection E as -> -> -> -> -> -> -> -> -> -> -> -> -> Eo -> -> ->.
    destruct ov1 as [ov1 |], ov2 as [ov2 |]; simpl in *; try discriminate.
    + injection Eo as Eo.
      pose proof (proj2 (forget_overlap_json ov1 ov2) Eo) as Ej. simpl in Ej.
      rewrite Ej. reflexivity.
    + reflexivity.
Qed.

(** X27: the JSON encoder turns an object into its [dict_for_json]
    with the overlap information, where only the row under [obj] can
    hold a reference, and raises [TypeError] for anything else. *)
Theorem HierObjectJSONEncoder_default_spec (obj : encoded) :
  match obj with
  | AnObject o =>
      HierObjectJSONEncoder_default obj = Ok (dict_for_json true o)
      /\ json_ready_but_obj (dict_for_json true o) = true
      /\ is_Some (dget "overlap" (dict_for_json true o))
      /\ dget "all" (dict_for_json true o) = None
  | Other _ => HierObjectJSONEncoder_default obj = Raise TypeError
  end.
Proof.
  destruct obj as [o | v]; [| reflexivity].
  split; [reflexivity |].
  split; [apply json_ready_dict_for_json |].
  unfold dict_for_json, vars. simpl.
  destruct (HierObject.overlap o); simpl; eauto.
Qed.

(** ** The library and the expectations of the tests *)

Lemma Qltb_proper a a' b b' : (a == a')%Q -> (b == b')%Q -> Qltb a b = Qltb a' b'.
Proof.
  intros Ea Eb. destruct (Qltb a b) eqn:E1, (Qltb a' b') eqn:E2; try reflexivity;
    rewrite ?Qltb_lt, ?Qltb_nlt in *; lra.
Qed.

Lemma Qleb_proper a a' b b' : (a == a')%Q -> (b == b')%Q -> Qleb a b = Qleb a' b'.
Proof.
  intros Ea Eb. destruct (Qleb a b) eqn:E1, (Qleb a' b') eqn:E2; try reflexivity;
    rewrite ?Qleb_le, ?Qleb_nle in *; lra.
Qed.

(** The members of a constructed object whose row is on the grid are
    the coordinates of the row. *)
Lemma on_grid_members (o : HierObject.t) :
  geom_ok o = true -> on_grid (HierObject.obj o) ->
  let r := HierObject.obj o in
  (HierObject.x0 o == XMin r)%Q /\ (HierObject.x1 o == XMax r)%Q
  /\ (HierObject.y0 o == YMin r)%Q /\ (HierObject.y1 o == YMax r)%Q.
Proof.
  intros G (A & B & C & D).
  destruct (geom_ok_members _ G) as (X0 & X1 & Y0 & Y1 & _).
  simpl. rewrite X0, X1, Y0, Y1. auto.
Qed.

(** A strict comparison of two multiples of the grid step leaves a
    whole step between them. *)
Lemma grid_gap (a b : Q) : (rn a < rn b)%Q -> (rn a + grid_step <= rn b)%Q.
Proof.
  unfold rn, grid_step, Qlt, Qle, Qplus. simpl. lia.
Qed.

(** X29: the containment tests of the tests agree with those of the
    library on rows of the grid: [object_is_inside] is [is_inside], and
    a center the library finds strictly inside is inside for
    [center_is_inside] of the tests, which also accepts the border. *)
Theorem inside_tests_agree (o1 o2 : HierObject.t) :
  geom_ok o1 = true -> geom_ok o2 = true ->
  on_grid (HierObject.obj o1) -> on_grid (HierObject.obj o2) ->
  bbox_utils.object_is_inside (HierObject.obj o1) (HierObject.obj o2)
  = HierObject.is_inside o1 o2
  /\ (HierObject.center_is_inside o1 o2 = true ->
      bbox_utils.center_is_inside (HierObject.obj o1) (HierObject.obj o2) = true).
Proof.
  intros G1 G2 Hg1 Hg2.
  destruct (on_grid_members o1 G1 Hg1) as (X0 & X1 & Y0 & Y1).
  destruct (on_grid_members o2 G2 Hg2) as (X0' & X1' & Y0' & Y1').
  split.
  - unfold bbox_utils.object_is_inside, bbox_utils.get_bbox, HierObject.is_inside.
    rewrite (Qleb_proper _ _ _ _ X0' X0), (Qleb_proper _ _ _ _ X1 X1'),
      (Qleb_proper _ _ _ _ Y0' Y0), (Qleb_proper _ _ _ _ Y1 Y1'). reflexivity.
  - destruct (geom_ok_members _ G1) as (M0 & M1 & N0 & N1 & Xc & Yc & _).
    destruct (geom_ok_members _ G2) as (M0' & M1' & N0' & N1' & _).
    unfold HierObject.center_is_inside.
    rewrite !andb_true_iff, !Qltb_lt. intros [[[C1 C2] C3] C4].
    rewrite Xc in C1, C2. rewrite Yc in C3, C4.
    rewrite M0' in C1. rewrite M1' in C2. rewrite N0' in C3. rewrite N1' in C4.
    apply grid_gap in C1, C2, C3, C4.
    pose proof (rn_error ((rn (XMin (HierObject.obj o1))
                           + rn (XMax (HierObject.obj o1))) / 2)) as Ex.
    pose proof (rn_error ((rn (YMin (HierObject.obj o1))
                           + rn (YMax (HierObject.obj o1))) / 2)) as Ey.
    apply Qabs_Qle_condition in Ex, Ey.
    rewrite <- M0, <- M1 in *. rewrite <- N0, <- N1 in *.
    rewrite <- M0' in *. rewrite <- M1' in *. rewrite <- N0' in *. rewrite <- N1' in *.
    unfold grid_step in *.
    unfold bbox_utils.center_is_inside, bbox_utils.get_center, bbox_utils.get_bbox.
    rewrite !andb_true_iff, !Qleb_le.
    set (r1 := HierObject.obj o1) in *. set (r2 := HierObject.obj o2) in *.
    assert (Hx : ((XMin r1 + XMax r1) / 2
                  == (HierObject.x0 o1 + HierObject.x1 o1) / 2)%Q)
      by (rewrite X0, X1; reflexivity).
    assert (Hy : ((YMin r1 + YMax r1) / 2
                  == (HierObject.y0 o1 + HierObject.y1 o1) / 2)%Q)
      by (rewrite Y0, Y1; reflexivity).
    rewrite Hx, Hy, <- X0', <- X1', <- Y0', <- Y1'.
    repeat split; lra.
Qed.

(** X30: [calc_intersection] treats [None] as the whole plane, and of
    two boxes it returns a box that is never inverted; when the two
    boxes meet, the result lies inside both. *)
Theorem calc_intersection_box (b1 b2 : Q * Q * Q * Q) :
  bbox_utils.calc_intersection None (Some b2) = Some b2
  /\ bbox_utils.calc_intersection (Some b1) None = Some b1
  /\ exists x0 y0 x1 y1,
       bbox_utils.calc_intersection (Some b1) (Some b2) = Some (x0, y0, x1, y1)
       /\ (x0 <= x1)%Q /\ (y0 <= y1)%Q
       /\ (0 <= bbox_utils.area (x0, y0, x1, y1))%Q
       /\ let '(x0a, y0a, x1a, y1a) := b1 in
          let '(x0b, y0b, x1b, y1b) := b2 in
          ((x0a <= x1a)%Q -> (y0a <= y1a)%Q -> (x0b <= x1b)%Q -> (y0b <= y1b)%Q ->
           (x0a <= x1b)%Q -> (x0b <= x1a)%Q -> (y0a <= y1b)%Q -> (y0b <= y1a)%Q ->
           (x0a <= x0)%Q /\ (x0b <= x0)%Q /\ (x1 <= x1a)%Q /\ (x1 <= x1b)%Q
           /\ (y0a <= y0)%Q /\ (y0b <= y0)%Q /\ (y1 <= y1a)%Q /\ (y1 <= y1b)%Q).
Proof.
  destruct b1 as [[[x0a y0a] x1a] y1a], b2 as [[[x0b y0b] x1b] y1b].
  split; [reflexivity |]. split; [reflexivity |].
  eexists _, _, _, _. split; [reflexivity |].
  pose proof (pymax_ge_l x0a x0b). pose proof (pymax_ge_r x0a x0b).
  pose proof (pymax_ge_l y0a y0b). pose proof (pymax_ge_r y0a y0b).
  pose proof (pymin_le_l x1a x1b). pose proof (pymin_le_r x1a x1b).
  pose proof (pymin_le_l y1a y1b). pose proof (pymin_le_r y1a y1b).
  assert (Px : (pymin x1a x1b == x1a \/ pymin x1a x1b == x1b)%Q)
    by (destruct (pymin_cases x1a x1b) as [-> | ->]; [left | right]; reflexivity).
  assert (Py : (pymin y1a y1b == y1a \/ pymin y1a y1b == y1b)%Q)
    by (destruct (pymin_cases y1a y1b) as [-> | ->]; [left | right]; reflexivity).
  assert (Mx : (pymax x0a x0b == x0b \/ pymax x0a x0b == x0a)%Q)
    by (unfold pymax; destruct (Qltb x0a x0b); [left | right]; reflexivity).
  assert (My : (pymax y0a y0b == y0b \/ pymax y0a y0b == y0a)%Q)
    by (unfold pymax; destruct (Qltb y0a y0b); [left | right]; reflexivity).
  unfold bbox_utils.area.
  set (mx := pymin x1a x1b) in *. set (my := pymin y1a y1b) in *.
  set (Mx0 := pymax x0a x0b) in *. set (My0 := pymax y0a y0b) in *.
  destruct (Qltb mx Mx0) eqn:Cx;
    [apply Qltb_lt in Cx | apply Qltb_nlt in Cx];
    (destruct (Qltb my My0) eqn:Cy;
     [apply Qltb_lt in Cy | apply Qltb_nlt in Cy]);
    repeat match goal with
           | |- context [Qleb ?a ?b] =>
               let E := fresh "E" in
               destruct (Qleb a b) eqn:E;
               [apply Qleb_le in E | apply Qleb_nle in E]
           end;
    (split; [lra |]); (split; [lra |]); (split; [try lra; try nra |]);
    intros I1 I2 I3 I4 I5 I6 I7 I8;
    destruct Px as [Px | Px], Py as [Py | Py], Mx as [Mx | Mx], My as [My | My];
    repeat split; lra.
Qed.

(** ** Examples for the properties above *)

Lemma is_inside_order_witness :
  HierObject.is_inside (sample_object 0) (sample_object 3) = true.
Proof.
  apply (proj1 (proj2 (is_inside_order (sample_object 0) (sample_object 2)
                         (sample_object 3)))); vm_compute; reflexivity.
Defined.

Lemma rect_bbox_witness :
  (HierObject.x0 (sample_object 0) < HierObject.x1 (sample_object 0))%Q
  /\ (0 < HierObject.w (sample_object 0))%Q.
Proof.
  destruct (rect_bbox (sample_object 0)) as (_ & _ & W & _ & X & _);
    [left; vm_compute; reflexivity | split; [exact X | exact W]].
Defined.

Lemma compare_inside_witness :
  exists h' o1' f,
    compare 0 2 sample_overlapped = (Ok tt, h')
    /\ h' !! 0 = Some o1'
    /\ In f (facts_under "Group" o1')
    /\ Overlap.obj f = 2 /\ Overlap.self_inside_other f = true.
Proof.
  destruct (compare_inside sample_overlapped 0 2
              (sample_object_overlapped 0) (sample_object_overlapped 2))
    as (_ & h' & o1' & f & E & Ho & Hf & Hobj & _ & Hin).
  - reflexivity.
  - reflexivity.
  - discriminate.
  - vm_compute. reflexivity.
  - vm_compute. reflexivity.
  - vm_compute. eexists. reflexivity.
  - vm_compute. eexists. reflexivity.
  - vm_compute. reflexivity.
  - exists h', o1', f. split; [exact E |]. split; [exact Ho |].
    split; [| split; [exact Hobj | exact Hin]].
    change (HierObject.label (sample_object_overlapped 2)) with "Group"%string in Hf.
    rewrite Hf. apply in_or_app. right. left. reflexivity.
Defined.

Lemma HierObject_init_registers_witness :
  exists o, heap main_state_1 = [o] /\ HierObject.index o = 0.
Proof.
  destruct (HierObject_init_registers
              (row "i1" "Object" (2 # 10) (4 # 10) (3 # 10) (5 # 10))
              None empty_state main_state_1 0)
    as (o & _ & H & _ & _ & _ & _ & _ & _ & _ & I & _).
  - vm_compute. reflexivity.
  - exists o. split; [exact H | exact I].
Defined.

Lemma default_all_shared_witness :
  exists o1 o2,
    heap main_state_2 !! 0 = Some o1 /\ heap main_state_2 !! 1 = Some o2
    /\ HierObject.all o1 = HierObject.all o2.
Proof.
  destruct (default_all_shared
              (row "i1" "Object" (2 # 10) (4 # 10) (3 # 10) (5 # 10))
              (row "i1" "Object" (1 # 10) (3 # 10) (4 # 10) (8 # 10))
              empty_state main_state_1 main_state_2 0 1)
    as (o1 & o2 & H1 & H2 & A & _).
  - vm_compute. reflexivity.
  - vm_compute. reflexivity.
  - exists o1, o2. auto.
Defined.

Lemma clear_default_all_restarts_witness :
  exists o1 o2,
    heap main_state_restarted !! 0 = Some o1
    /\ heap main_state_restarted !! 1 = Some o2
    /\ HierObject.all o1 <> HierObject.all o2 /\ HierObject.index o2 = 0.
Proof.
  destruct (clear_default_all_restarts
              (row "i1" "Object" (2 # 10) (4 # 10) (3 # 10) (5 # 10))
              (row "i1" "Object" (1 # 10) (3 # 10) (4 # 10) (8 # 10))
              empty_state main_state_1 main_state_cleared main_state_restarted 0 1)
    as (o1 & o2 & H1 & H2 & A & I & _).
  - vm_compute. reflexivity.
  - vm_compute. reflexivity.
  - vm_compute. reflexivity.
  - exists o1, o2. auto.
Defined.

Lemma construct_well_formed_witness :
  exists d, colls sample_state !! 0 = Some d
            /\ wf_coll d (heap sample_state) = true
            /\ unpopulated d (heap sample_state) = true.
Proof.
  destruct (construct_well_formed sample_rows empty_state sample_state
              [0; 1; 2; 3; 4; 5])
    as (d & _ & Hd & _ & W & _ & U & _).
  - reflexivity.
  - discriminate.
  - vm_compute. reflexivity.
  - exists d. split; [exact Hd |]. split; [exact W | exact U].
Defined.

Lemma get_hierarchy_total_witness :
  exists h',
    get_hierarchy sample_all (Some [("Object", "Group")]%string) sample_heap
    = (Ok tt, h')
    /\ exists h'',
         get_hierarchy sample_all (Some [("Object", "Group")]%string) h'
         = (Ok tt, h'').
Proof.
  destruct (get_hierarchy_total sample_all sample_heap
              (Some [("Object", "Group")]%string))
    as (h' & E & _ & _ & _ & A).
  - vm_compute. reflexivity.
  - exists h'. split; [exact E | apply A].
Defined.

Lemma find_overlapping_objects_idempotent_witness :
  exists h',
    find_overlapping_objects sample_all sample_heap = (Ok tt, h')
    /\ find_overlapping_objects sample_all h' = (Ok tt, h').
Proof.
  apply find_overlapping_objects_idempotent. vm_compute. reflexivity.
Defined.

Lemma find_duplicates_idempotent_witness :
  exists h',
    find_duplicates sample_all sample_overlapped = (Ok tt, h')
    /\ find_duplicates sample_all h' = (Ok tt, h').
Proof.
  apply find_duplicates_idempotent.
  - apply (bool_decide_unpack _). vm_compute. exact I.
  - vm_compute. reflexivity.
Defined.

Lemma find_duplicates_unpopulated_witness :
  find_duplicates sample_all sample_heap = (Raise AttributeError, sample_heap).
Proof.
  apply (proj1 (find_duplicates_unpopulated sample_all sample_heap eq_refl)).
  vm_compute. discriminate.
Defined.

Lemma get_hierarchy_no_pairs_witness :
  exists h',
    get_hierarchy sample_all None sample_heap = (Ok tt, h')
    /\ get_hierarchy sample_all (Some []) sample_heap = (Ok tt, h').
Proof.
  destruct (get_hierarchy_no_pairs sample_all sample_heap) as (h' & E1 & E2 & _).
  - vm_compute. reflexivity.
  - exists h'. auto.
Defined.

Lemma find_parent_twice_witness :
  exists h1 h2,
    find_parent sample_all "Object" "Group" sample_flagged = (Ok tt, h1)
    /\ find_parent sample_all "Object" "Group" h1 = (Ok tt, h2).
Proof.
  destruct (find_parent_twice sample_all sample_flagged "Object" "Group")
    as (h1 & h2 & E1 & E2 & _).
  - vm_compute. reflexivity.
  - vm_compute. reflexivity.
  - exists h1, h2. auto.
Defined.

Lemma find_parent_links_witness :
  exists h', find_parent sample_all "Object" "Group" sample_flagged = (Ok tt, h').
Proof.
  destruct (find_parent_links sample_all sample_flagged "Object" "Group")
    as (h' & E & _).
  - vm_compute. reflexivity.
  - vm_compute. reflexivity.
  - vm_compute. reflexivity.
  - exists h'. exact E.
Defined.

Lemma find_parent_unpopulated_witness :
  fst (find_parent sample_all "Object" "Group" sample_heap) = Raise AttributeError.
Proof.
  apply (proj1 (find_parent_unpopulated sample_all sample_heap "Object" "Group"
                  eq_refl)).
  exists "i1"%string, [("Object"%string, [0; 1; 4]); ("Group"%string, [2; 3])].
  split; [left | vm_compute; discriminate].
Defined.

Lemma inside_tests_agree_witness :
  bbox_utils.object_is_inside (HierObject.obj (sample_object 0))
    (HierObject.obj (sample_object 2))
  = HierObject.is_inside (sample_object 0) (sample_object 2).
Proof.
  apply inside_tests_agree.
  - vm_compute. reflexivity.
  - vm_compute. reflexivity.
  - repeat split; vm_compute; reflexivity.
  - repeat split; vm_compute; reflexivity.
Defined.

Lemma calc_intersection_box_witness :
  exists x0 y0 x1 y1,
    bbox_utils.calc_intersection
      (Some (2 # 10, 3 # 10, 4 # 10, 5 # 10)) (Some (1 # 10, 4 # 10, 3 # 10, 8 # 10))
    = Some (x0, y0, x1, y1)
    /\ (2 # 10 <= x0)%Q /\ (x1 <= 3 # 10)%Q.
Proof.
  destruct (calc_intersection_box (2 # 10, 3 # 10, 4 # 10, 5 # 10)
              (1 # 10, 4 # 10, 3 # 10, 8 # 10))
    as (_ & _ & x0 & y0 & x1 & y1 & E & _ & _ & _ & H).
  exists x0, y0, x1, y1. split; [exact E |].
  destruct H as (A & _ & _ & B & _);
    try (apply Qleb_le; vm_compute; reflexivity).
  split; [exact A | exact B].
Defined.
